(** * A shallow embedding of [solver.cc] (klopyrev/wordle_solver)

    The development follows the source file top to bottom: the feedback
    pattern computed inside [ComputeWordPatternMatches], [ToPatternInt],
    [TrimWordPatternMatches], the recursive minimiser [Recurse], the worker
    [Thread] and the range computation of [main].

    C++ [int] values are integers of [Z]; every quantity the program
    computes is bounded by the number of words or by 243, so no 32-bit
    wrap-around is involved (the one [size_t] product of [main] is written
    with its wrap-around).  A vector is a [list]; an access outside the
    vector, which is undefined behaviour in C++, is the fault
    [OutOfBounds]; a failed [assert] is the fault [AssertFailed]; a vector
    constructed with a negative size throws, the fault [LengthError]. *)

From Stdlib Require Import ZArith Ascii String Lia Bool.
From Stdlib Require Import Floats.SpecFloat Sorting.Sorted.
From stdpp Require Import prelude strings.

Local Open Scope Z_scope.

(** ** Outcomes of a computation *)

Inductive fault : Type :=
  | OutOfBounds
  | AssertFailed
  | LengthError
  | FuelExhausted.

Inductive outcome (A : Type) : Type :=
  | Done (a : A)
  | Fault (f : fault).

Arguments Done {A} a.
Arguments Fault {A} f.

Definition bind {A B : Type} (m : outcome A) (k : A -> outcome B) : outcome B :=
  match m with
  | Done a => k a
  | Fault f => Fault f
  end.

Declare Scope outcome_scope.
Delimit Scope outcome_scope with outcome.
Notation "'let*' x := m 'in' k" := (bind m (fun x => k))
  (at level 10, x pattern, m at level 100, k at level 200) : outcome_scope.
Local Open Scope outcome_scope.

(** ** Vectors indexed by an [int] *)

Definition zget {A : Type} (l : list A) (i : Z) : outcome A :=
  if bool_decide (0 <= i) then
    match l !! Z.to_nat i with
    | Some a => Done a
    | None => Fault OutOfBounds
    end
  else Fault OutOfBounds.

Definition zset {A : Type} (l : list A) (i : Z) (a : A) : outcome (list A) :=
  if bool_decide (0 <= i < Z.of_nat (length l)) then Done (<[Z.to_nat i := a]> l)
  else Fault OutOfBounds.

(** ** Counting loops

    [for_loop lo hi body s] is [for (int i = lo; i < hi; ++i) body]. *)

Fixpoint for_count {S : Type} (n : nat) (i : Z)
    (body : Z -> S -> outcome S) (s : S) : outcome S :=
  match n with
  | O => Done s
  | Datatypes.S n' => let* s' := body i s in for_count n' (i + 1) body s'
  end.

Definition for_loop {S : Type} (lo hi : Z)
    (body : Z -> S -> outcome S) (s : S) : outcome S :=
  for_count (Z.to_nat (hi - lo)) lo body s.

(** ** Words *)

(** A [std::string] is the list of its characters. *)
Abbreviation word := (list ascii) (only parsing).

Definition char_code (ch : ascii) : Z := Z.of_nat (nat_of_ascii ch).

(** [s[c]] for a [std::string]: the character at [c], the terminating
    zero character at [c = s.size()], undefined further out. *)
Definition str_at (s : word) (c : Z) : outcome ascii :=
  if bool_decide (0 <= c) then
    match s !! Z.to_nat c with
    | Some ch => Done ch
    | None => if bool_decide (c = Z.of_nat (length s)) then Done zero
              else Fault OutOfBounds
    end
  else Fault OutOfBounds.

(** [ch - 'a']. *)
Definition letter_index (ch : ascii) : Z := char_code ch - 97.

(** ** The feedback pattern (lines 56-60 and 71-89) *)

Definition kNumPatterns : Z := 243.

(** [shift[0] = 1; for (c = 1; c < 5; ++c) shift[c] = shift[c - 1] * 3]. *)
Definition compute_shift : outcome (list Z) :=
  let* shift0 := zset (replicate 5 0) 0 1 in
  for_loop 1 5 (fun c shift =>
    let* prev := zget shift (c - 1) in
    zset shift c (prev * 3)) shift0.

(** First loop: exact matches, and the count of unmatched answer letters. *)
Definition encode_pass1 (shift : list Z) (guess answer : word)
    (c : Z) (st : Z * list Z) : outcome (Z * list Z) :=
  let '(pattern, letters_left) := st in
  let* g := str_at guess c in
  let* a := str_at answer c in
  if Ascii.eqb g a then
    let* sh := zget shift c in
    Done (pattern + sh * 2, letters_left)
  else
    let* n := zget letters_left (letter_index a) in
    let* letters_left' := zset letters_left (letter_index a) (n + 1) in
    Done (pattern, letters_left').

(** Second loop: a letter in the wrong place, while unmatched ones remain. *)
Definition encode_pass2 (shift : list Z) (guess answer : word)
    (c : Z) (st : Z * list Z) : outcome (Z * list Z) :=
  let '(pattern, letters_left) := st in
  let* g := str_at guess c in
  let* a := str_at answer c in
  if negb (Ascii.eqb g a) then
    let* n := zget letters_left (letter_index g) in
    if bool_decide (n > 0) then
      let* sh := zget shift c in
      let* letters_left' := zset letters_left (letter_index g) (n - 1) in
      Done (pattern + sh * 1, letters_left')
    else Done (pattern, letters_left)
  else Done (pattern, letters_left).

(** Third loop: the counters of the answer's letters are cleared. *)
Definition encode_reset (answer : word)
    (c : Z) (letters_left : list Z) : outcome (list Z) :=
  let* a := str_at answer c in
  zset letters_left (letter_index a) 0.

(** The body of the double loop up to the table update: the pattern of
    [guess] against [answer], with the counters it leaves behind. *)
Definition encode_step (shift letters_left : list Z) (guess answer : word)
    : outcome (Z * list Z) :=
  let* (pattern, letters_left1) :=
    for_loop 0 5 (encode_pass1 shift guess answer) (0, letters_left) in
  let* (pattern, letters_left2) :=
    for_loop 0 5 (encode_pass2 shift guess answer) (pattern, letters_left1) in
  let* letters_left3 := for_loop 0 5 (encode_reset answer) letters_left2 in
  Done (pattern, letters_left3).

(** ** [ComputeWordPatternMatches] *)

Abbreviation pattern_row := (list bool) (only parsing).
Abbreviation table := (list (list (list bool))) (only parsing).

(** [all_word_pattern_matches[i][pattern][j] = true]. *)
Definition table_mark (t : table) (i pattern j : Z) : outcome table :=
  let* rows := zget t i in
  let* row := zget rows pattern in
  let* row' := zset row j true in
  let* rows' := zset rows pattern row' in
  zset t i rows'.

(** Lines 68-91, the body of the double loop. *)
Definition table_body (shift : list Z) (words : list word) (i j : Z)
    (st : table * list Z) : outcome (table * list Z) :=
  let '(t, letters_left) := st in
  let* guess := zget words i in
  let* answer := zget words j in
  let* (pattern, letters_left') :=
    encode_step shift letters_left guess answer in
  let* t' := table_mark t i pattern j in
  Done (t', letters_left').

Definition ComputeWordPatternMatches (words : list word) : outcome table :=
  let n := length words in
  let* shift := compute_shift in
  let all_word_pattern_matches : table :=
    replicate n (replicate (Z.to_nat kNumPatterns) (replicate n false)) in
  let letters_left : list Z := replicate 26 0 in
  let* (t, _) :=
    for_loop 0 (Z.of_nat n) (fun i st =>
      for_loop 0 (Z.of_nat n) (table_body shift words i) st)
      (all_word_pattern_matches, letters_left) in
  Done t.

(** ** [ToPatternInt] *)

Definition assert (b : bool) : outcome unit :=
  if b then Done tt else Fault AssertFailed.

(** Lines 107-114, the body of the loop. *)
Definition ToPatternInt_body (pattern : word) (i : Z) (st : Z * Z)
    : outcome (Z * Z) :=
  let '(result, shift) := st in
  let* ch := str_at pattern i in
  let* result' :=
    if Ascii.eqb ch "g" then Done (result + shift * 2)
    else if Ascii.eqb ch "y" then Done (result + shift * 1)
    else let* _ := assert (Ascii.eqb ch "_") in Done result in
  Done (result', shift * 3).

Definition ToPatternInt (pattern : word) : outcome Z :=
  let* _ := assert (Z.of_nat (length pattern) =? 5) in
  let* (result, _) :=
    for_loop 0 (Z.of_nat (length pattern)) (ToPatternInt_body pattern) (0, 1) in
  Done result.

(** ** [TrimWordPatternMatches] *)

(** The inner counting loop over one [std::vector<bool>]. *)
Definition num_matches (pattern : pattern_row) : Z :=
  fold_left (fun n (val : bool) => if val then n + 1 else n) pattern 0.

(** The loop over the 243 rows of one word, with its [push_back]. *)
Definition trim_rows (rows : list pattern_row) : list pattern_row :=
  fold_left (fun kept pattern =>
    if num_matches pattern >? 0 then kept ++ [pattern] else kept) rows [].

Definition TrimWordPatternMatches (all_word_pattern_matches : table) : table :=
  map trim_rows all_word_pattern_matches.

(** ** Single-precision arithmetic

    [Recurse] and [Thread] compute in [float].  The operations they use
    form an interface; [binary32] below is the IEEE 754 instance. *)

Class FloatOps : Type := {
  F : Type;
  of_int : Z -> F;
  fadd : F -> F -> F;
  fmul : F -> F -> F;
  fdiv : F -> F -> F;
  fcompare : F -> F -> option comparison
}.

(** [x < y] and [x == y] on [float]: false when the operands are unordered. *)
Definition flt `{FloatOps} (x y : F) : bool :=
  match fcompare x y with Some Lt => true | _ => false end.

Definition feq `{FloatOps} (x y : F) : bool :=
  match fcompare x y with Some Eq => true | _ => false end.

Definition binary32 : FloatOps := {|
  F := spec_float;
  of_int := fun n => binary_normalize 24 128 n 0 false;
  fadd := SFadd 24 128;
  fmul := SFmul 24 128;
  fdiv := SFdiv 24 128;
  fcompare := SFcompare
|}.

(** ** Loops over a vector that may [break] *)

Inductive ctl (S : Type) : Type :=
  | Next (s : S)
  | Break (s : S).

Arguments Next {S} s.
Arguments Break {S} s.

Definition ctl_state {S : Type} (r : ctl S) : S :=
  match r with Next s => s | Break s => s end.

Fixpoint foreach_break {A S : Type} (l : list A)
    (body : A -> S -> outcome (ctl S)) (s : S) : outcome (ctl S) :=
  match l with
  | [] => Done (Next s)
  | a :: l' =>
      let* r := body a s in
      match r with
      | Next s' => foreach_break l' body s'
      | Break s' => Done (Break s')
      end
  end.

(** ** [Recurse] *)

(** [all_words_left]: one buffer of word indices per recursion depth,
    shared by reference between [Thread] and every call of [Recurse]. *)
Abbreviation scratch := (list (list Z)) (only parsing).

(** Lines 167-174: the words of [all_words_left[num_guesses - 1]] that the
    row [pattern] keeps are written to the front of
    [all_words_left[num_guesses]]. *)
Definition partition_words_left (pattern : pattern_row)
    (num_guesses num_words_left : Z) (s : scratch) : outcome (Z * scratch) :=
  for_loop 0 num_words_left (fun i '(new_num_words_left, s) =>
    let* words_left := zget s (num_guesses - 1) in
    let* word := zget words_left i in
    let* val := zget pattern word in
    if (val : bool) then
      let* next_words_left := zget s num_guesses in
      let* next_words_left' := zset next_words_left new_num_words_left word in
      let* s' := zset s num_guesses next_words_left' in
      Done (new_num_words_left + 1, s')
    else Done (new_num_words_left, s)) (0, s).

(** [if (!min_expected || result < *min_expected) min_expected = result]. *)
Definition min_update `{FloatOps} (min_expected : option F) (result : F)
    : option F :=
  match min_expected with
  | None => Some result
  | Some m => if flt result m then Some result else Some m
  end.

Section Search.
Context `{ops : FloatOps}.

(** The state of the loop over the rows of one candidate. *)
Abbreviation branch_state := (F * bool * list (list Z))%type (only parsing).

(** Lines 167-193, the body of the loop over the rows of [next_word];
    [recurse] is the recursive call. *)
Definition Recurse_branch
    (recurse : Z -> scratch -> outcome (option F * scratch))
    (num_guesses num_words_left next_word : Z)
    (pattern : pattern_row) (st : branch_state) : outcome (ctl branch_state) :=
  let '(result, valid, s) := st in
  let* (new_num_words_left, s1) :=
    partition_words_left pattern num_guesses num_words_left s in
  if new_num_words_left >? 0 then
    let* next_words_left := zget s1 num_guesses in
    let* first := zget next_words_left 0 in
    if first =? next_word then
      Done (Next (fadd result (fmul (of_int new_num_words_left) (of_int 1)),
                  valid, s1))
    else
      let* (next_result, s2) := recurse new_num_words_left s1 in
      match next_result with
      | None => Done (Break (result, false, s2))
      | Some r =>
          Done (Next (fadd result (fmul (of_int new_num_words_left)
                                        (fadd (of_int 1) r)), valid, s2))
      end
  else Done (Next (result, valid, s1)).

(** Lines 163-196: the expected value of playing the word at position
    [next] of the working set, [None] when [valid] ends up false. *)
Definition Recurse_value
    (recurse : Z -> scratch -> outcome (option F * scratch))
    (num_guesses num_words_left : Z) (word_pattern_matches : table)
    (next : Z) (s : scratch) : outcome (option F * scratch) :=
  let* words_left := zget s (num_guesses - 1) in
  let* next_word := zget words_left next in
  let* rows := zget word_pattern_matches next_word in
  let* r := foreach_break rows
              (Recurse_branch recurse num_guesses num_words_left next_word)
              (of_int 0, true, s) in
  let '(result, valid, s') := ctl_state r in
  if (valid : bool) then Done (Some (fdiv result (of_int num_words_left)), s')
  else Done (None, s').

(** Lines 163-201, the body of the loop over the candidates: the value of
    the candidate, then the update of [min_expected]. *)
Definition Recurse_candidate
    (recurse : Z -> scratch -> outcome (option F * scratch))
    (num_guesses num_words_left : Z) (word_pattern_matches : table)
    (next : Z) (st : option F * scratch) : outcome (option F * scratch) :=
  let '(min_expected, s) := st in
  let* (value, s') :=
    Recurse_value recurse num_guesses num_words_left word_pattern_matches
                  next s in
  match value with
  | Some result => Done (min_update min_expected result, s')
  | None => Done (min_expected, s')
  end.

(** The values of the candidates at positions [next], [next + 1], ... of
    the working set, in the order the loop evaluates them. *)
Fixpoint Recurse_values
    (recurse : Z -> scratch -> outcome (option F * scratch))
    (num_guesses num_words_left : Z) (word_pattern_matches : table)
    (count : nat) (next : Z) (s : scratch)
    : outcome (list (option F) * scratch) :=
  match count with
  | O => Done ([], s)
  | Datatypes.S count' =>
      let* (value, s1) :=
        Recurse_value recurse num_guesses num_words_left word_pattern_matches
                      next s in
      let* (values, s2) :=
        Recurse_values recurse num_guesses num_words_left word_pattern_matches
                       count' (next + 1) s1 in
      Done (value :: values, s2)
  end.

(** [Recurse]; [fuel] bounds the depth of the recursion.  The two
    references [words_left] and [next_words_left] are bound before the
    loops. *)
Fixpoint Recurse_fuel (fuel : nat) (num_guesses max_num_guesses : Z)
    (word_pattern_matches : table) (num_words_left : Z) (s : scratch)
    : outcome (option F * scratch) :=
  if num_guesses =? max_num_guesses then Done (None, s)
  else if num_words_left =? 1 then Done (Some (of_int 1), s)
  else
    let* _ := zget s (num_guesses - 1) in
    let* _ := zget s num_guesses in
    match fuel with
    | O => Fault FuelExhausted
    | Datatypes.S fuel' =>
        for_loop 0 num_words_left
          (Recurse_candidate
             (Recurse_fuel fuel' (num_guesses + 1) max_num_guesses
                           word_pattern_matches)
             num_guesses num_words_left word_pattern_matches)
          (None, s)
    end.

(** Every call that goes one level deeper needs its buffer
    [all_words_left[num_guesses]], so the number of buffers bounds the
    depth. *)
Definition Recurse (num_guesses max_num_guesses : Z) (all_words_left : scratch)
    (num_words_left : Z) (word_pattern_matches : table)
    : outcome (option F * scratch) :=
  Recurse_fuel (length all_words_left) num_guesses max_num_guesses
               word_pattern_matches num_words_left all_words_left.

(** ** [Thread] *)

(** What the workers share: the result file, [min_expected], [best_word]. *)
Record shared : Type := {
  fout : list (F * word);
  min_expected : option F;
  best_word : Z
}.

(** Lines 251-259, the critical section. *)
Definition better (sh : shared) (result : F) (first_word : Z) : bool :=
  match min_expected sh with
  | None => true
  | Some m => flt result m || (feq result m && (first_word <? best_word sh))
  end.

Definition report (sh : shared) (result : F) (first_word : Z) (wd : word)
    : shared :=
  let log := fout sh ++ [(result, wd)] in
  if better sh result first_word then
    {| fout := log; min_expected := Some result; best_word := first_word |}
  else
    {| fout := log; min_expected := min_expected sh; best_word := best_word sh |}.

(** Lines 223-229: the words of the whole vocabulary that the row keeps
    are written to the front of [all_words_left[0]]. *)
Definition partition_all (pattern : pattern_row) (num_words : Z) (s : scratch)
    : outcome (Z * scratch) :=
  for_loop 0 num_words (fun word '(new_num_words_left, s) =>
    let* val := zget pattern word in
    if (val : bool) then
      let* next_words_left := zget s 0 in
      let* next_words_left' := zset next_words_left new_num_words_left word in
      let* s' := zset s 0 next_words_left' in
      Done (new_num_words_left + 1, s')
    else Done (new_num_words_left, s)) (0, s).

(** Lines 223-246, the body of the loop over the rows of [first_word]. *)
Definition Thread_branch (max_num_guesses num_words : Z)
    (word_pattern_matches : table) (first_word : Z)
    (pattern : pattern_row) (st : branch_state) : outcome (ctl branch_state) :=
  let '(result, valid, s) := st in
  let* (new_num_words_left, s1) := partition_all pattern num_words s in
  let* next_words_left := zget s1 0 in
  let* first := zget next_words_left 0 in
  if first =? first_word then
    Done (Next (fadd result (fmul (of_int new_num_words_left) (of_int 1)),
                valid, s1))
  else
    let* (next_result, s2) :=
      Recurse 1 max_num_guesses s1 new_num_words_left word_pattern_matches in
    match next_result with
    | None => Done (Break (result, false, s2))
    | Some r =>
        Done (Next (fadd result (fmul (of_int new_num_words_left)
                                      (fadd (of_int 1) r)), valid, s2))
    end.

(** Lines 220-247: the value of one first guess, [None] when it cannot
    always win. *)
Definition Thread_candidate (max_num_guesses : Z) (words : list word)
    (word_pattern_matches : table) (first_word : Z) (s : scratch)
    : outcome (option F * scratch) :=
  let num_words := Z.of_nat (length words) in
  let* rows := zget word_pattern_matches first_word in
  let* r := foreach_break rows
              (Thread_branch max_num_guesses num_words word_pattern_matches
                             first_word)
              (of_int 0, true, s) in
  let '(result, valid, s') := ctl_state r in
  if (valid : bool) then Done (Some (fdiv result (of_int num_words)), s')
  else Done (None, s').

(** The buffers a worker allocates. *)
Definition new_scratch (max_num_guesses : Z) (num_words : nat)
    : outcome scratch :=
  if max_num_guesses <? 0 then Fault LengthError
  else Done (replicate (Z.to_nat max_num_guesses) (replicate num_words 0)).

(** Lines 220-260, the body of the loop over the first guesses. *)
Definition Thread_step (max_num_guesses : Z) (words : list word)
    (word_pattern_matches : table) (first_word : Z)
    (st : scratch * shared) : outcome (scratch * shared) :=
  let '(s, sh) := st in
  let* (value, s') :=
    Thread_candidate max_num_guesses words word_pattern_matches first_word s in
  match value with
  | Some result =>
      let* wd := zget words first_word in
      Done (s', report sh result first_word wd)
  | None => Done (s', sh)
  end.

Definition Thread (start end_ max_num_guesses : Z) (words : list word)
    (word_pattern_matches : table) (sh : shared) : outcome shared :=
  let* all_words_left := new_scratch max_num_guesses (length words) in
  let* _ := zget all_words_left 0 in
  let* (_, sh') :=
    for_loop start end_
      (Thread_step max_num_guesses words word_pattern_matches)
      (all_words_left, sh) in
  Done sh'.

End Search.

(** ** The ranges of [main] *)

Definition kNumThreads : Z := 24.
Definition kMaxNumGuesses : Z := 6.

(** [size_t] arithmetic and the conversion of its result to [int]. *)
Definition size_t_mul (a b : Z) : Z := (a * b) mod 2 ^ 64.

Definition to_int (x : Z) : Z := (x + 2 ^ 31) mod 2 ^ 32 - 2 ^ 31.

(** [int start = words.size() * thread / kNumThreads]. *)
Definition range_start (num_words thread : Z) : Z :=
  to_int (size_t_mul num_words thread / kNumThreads).

(** [int end = words.size() * (thread + 1) / kNumThreads]. *)
Definition range_end (num_words thread : Z) : Z :=
  to_int (size_t_mul num_words (thread + 1) / kNumThreads).

(** The (start, end) pairs handed to the workers, in the order of creation. *)
Definition thread_ranges (num_words : Z) : list (Z * Z) :=
  map (fun thread => (range_start num_words thread, range_end num_words thread))
      (seqZ 0 kNumThreads).


(** ** Vocabulary used in the statements *)

(** The table [shift] after its initialisation loop. *)
Definition shift_table : list Z := [1; 3; 9; 27; 81].

(** The state of [letters_left] on entry to the double loop. *)
Definition no_letters : list Z := replicate 26 0.

(** The pattern of [guess] against [answer], as one iteration of the double
    loop computes it from cleared counters. *)
Definition encode (guess answer : word) : outcome Z :=
  let* shift := compute_shift in
  let* (pattern, _) := encode_step shift no_letters guess answer in
  Done pattern.

(** The digit of a pattern at position [c]: the coefficient of [shift[c]]
    in the sum the encoding loops build (0 no match, 1 present elsewhere,
    2 exact match). *)
Definition pattern_digit (pattern c : Z) : Z := (pattern / 3 ^ c) mod 3.

Definition lowercase (ch : ascii) : Prop := 97 <= char_code ch <= 122.

(** A word of the vocabulary: five lowercase letters. *)
Definition wf_word (wd : word) : Prop :=
  length wd = 5%nat /\ Forall lowercase wd.

(** [table[g][p][a]] as a proposition. *)
Definition member (t : table) (g p a : Z) : Prop :=
  exists rows row, zget t g = Done rows /\ zget rows p = Done row /\
                   zget row a = Done true.

(** *** The two passes as functions on the paired letters

    [cnt k] is the counter of the letter with index [k]. *)

Definition upd (cnt : Z -> Z) (k v : Z) : Z -> Z :=
  fun k' => if k' =? k then v else cnt k'.

(** Pass 1 on the counters. *)
Fixpoint unmatched (ga : list (ascii * ascii)) (cnt : Z -> Z) : Z -> Z :=
  match ga with
  | [] => cnt
  | (g, a) :: rest =>
      if Ascii.eqb g a then unmatched rest cnt
      else unmatched rest (upd cnt (letter_index a) (cnt (letter_index a) + 1))
  end.

(** Pass 2 on the counters. *)
Fixpoint remaining (ga : list (ascii * ascii)) (cnt : Z -> Z) : Z -> Z :=
  match ga with
  | [] => cnt
  | (g, a) :: rest =>
      if Ascii.eqb g a then remaining rest cnt
      else if cnt (letter_index g) >? 0
           then remaining rest (upd cnt (letter_index g) (cnt (letter_index g) - 1))
           else remaining rest cnt
  end.

(** The digits the two passes settle on, position by position. *)
Fixpoint marks (ga : list (ascii * ascii)) (cnt : Z -> Z) : list Z :=
  match ga with
  | [] => []
  | (g, a) :: rest =>
      if Ascii.eqb g a then 2 :: marks rest cnt
      else if cnt (letter_index g) >? 0
           then 1 :: marks rest (upd cnt (letter_index g) (cnt (letter_index g) - 1))
           else 0 :: marks rest cnt
  end.

Definition feedback (guess answer : word) : list Z :=
  marks (zip guess answer) (unmatched (zip guess answer) (fun _ => 0)).

(** The integer a list of digits stands for, lowest position first. *)
Fixpoint digits_value (ds : list Z) : Z :=
  match ds with
  | [] => 0
  | d :: rest => d + 3 * digits_value rest
  end.

(** The positions of [guess] that hold the letter [x] and whose digit in
    [pattern] is not 0: the credits given to [x]. *)
Definition credits (x : ascii) (guess : word) (pattern : Z) : nat :=
  length (filter (fun c : nat => guess !! c = Some x /\
                                 pattern_digit pattern (Z.of_nat c) <> 0)
                 (seq 0 5)).

Definition occurrences (x : ascii) (wd : word) : nat :=
  length (filter (fun ch => ch = x) wd).

(** *** Bookkeeping for the loops *)

(** The vector [letters_left] holds the counters [cnt]. *)
Definition represents (ll : list Z) (cnt : Z -> Z) : Prop :=
  length ll = 26%nat /\ forall k, 0 <= k < 26 -> ll !! Z.to_nat k = Some (cnt k).

(** The sum of [shift[c + i] * ds[i]]. *)
Fixpoint wsum (c : nat) (ds : list Z) : Z :=
  match ds with
  | [] => 0
  | d :: rest => 3 ^ Z.of_nat c * d + wsum (Datatypes.S c) rest
  end.

(** What pass 1 alone adds to the pattern. *)
Definition exact_marks (ga : list (ascii * ascii)) : list Z :=
  map (fun p => if Ascii.eqb (fst p) (snd p) then 2 else 0) ga.

(** What pass 2 alone adds to the pattern. *)
Fixpoint yellow_marks (ga : list (ascii * ascii)) (cnt : Z -> Z) : list Z :=
  match ga with
  | [] => []
  | (g, a) :: rest =>
      if Ascii.eqb g a then 0 :: yellow_marks rest cnt
      else if cnt (letter_index g) >? 0
           then 1 :: yellow_marks rest (upd cnt (letter_index g) (cnt (letter_index g) - 1))
           else 0 :: yellow_marks rest cnt
  end.

(** Pass 3 on the counters. *)
Fixpoint cleared (answer : list ascii) (cnt : Z -> Z) : Z -> Z :=
  match answer with
  | [] => cnt
  | a :: rest => cleared rest (upd cnt (letter_index a) 0)
  end.

(** *** Reading the table *)

(** [word_pattern_matches[g][p][a]]. *)
Definition table_at (t : table) (g p a : Z) : outcome bool :=
  let* rows := zget t g in
  let* row := zget rows p in
  zget row a.

(** The same read with indices known to be natural numbers. *)
Definition cell (t : table) (g p a : nat) : option bool :=
  match t !! g with
  | Some rows =>
      match rows !! p with
      | Some row => row !! a
      | None => None
      end
  | None => None
  end.

(** The digits of word [g] against word [a] of a vocabulary, as a number. *)
Definition pat (words : list word) (g a : nat) : Z :=
  match words !! g, words !! a with
  | Some guess, Some answer => digits_value (feedback guess answer)
  | _, _ => 0
  end.

(** A table of [n] words: 243 rows per word, one entry per word in a row. *)
Definition table_shape (n : nat) (t : table) : Prop :=
  length t = n /\
  Forall (fun rows : list (list bool) =>
            length rows = 243%nat /\
            Forall (fun row : list bool => length row = n) rows) t.

(** The table after the double loop has handled every pair before
    [(i, j)] in the order of the iteration. *)
Definition filled (words : list word) (i j : nat) (t : table) : Prop :=
  table_shape (length words) t /\
  forall g p a : nat,
    (g < length words)%nat -> (p < 243)%nat -> (a < length words)%nat ->
    cell t g p a
    = Some (bool_decide ((g < i \/ (g = i /\ a < j))%nat /\ pat words g a = Z.of_nat p)).

(** The credits of [x], counted along the paired letters and their digits. *)
Fixpoint credit_list (x : ascii) (ga : list (ascii * ascii)) (ms : list Z) : nat :=
  match ga, ms with
  | (g, _) :: ga', m :: ms' =>
      ((if decide (g = x /\ (m <> 0)%Z) then 1%nat else 0%nat) + credit_list x ga' ms')%nat
  | _, _ => 0%nat
  end.

(** The positions at which guess and answer both hold [x]. *)
Fixpoint exact_count (x : ascii) (ga : list (ascii * ascii)) : nat :=
  match ga with
  | [] => 0%nat
  | (g, a) :: ga' =>
      ((if decide (g = x /\ a = x) then 1%nat else 0%nat) + exact_count x ga')%nat
  end.

(** *** Feedback strings *)

(** The digit a character of a feedback string stands for. *)
Definition symbol_digit (ch : ascii) : Z :=
  if Ascii.eqb ch "g" then 2 else if Ascii.eqb ch "y" then 1 else 0.

Definition in_alphabet (ch : ascii) : bool :=
  Ascii.eqb ch "g" || Ascii.eqb ch "y" || Ascii.eqb ch "_".

(** *** Sizes of the ranges *)

Definition range_size (num_words thread : Z) : Z :=
  range_end num_words thread - range_start num_words thread.

(** [ceil(V / workerCount)]. *)
Definition ceil_range_size (num_words : Z) : Z :=
  (num_words + kNumThreads - 1) / kNumThreads.

(** Every range has the size [ceil(V / workerCount)], except that one
    ending at [V] may be shorter. *)
Definition ranges_ceil_sized (num_words : Z) : Prop :=
  forall thread, 0 <= thread < kNumThreads ->
    range_size num_words thread = ceil_range_size num_words
    \/ (range_end num_words thread = num_words /\
        range_size num_words thread <= ceil_range_size num_words).

(** *** The partition loops, functionally *)

(** The row [pattern] keeps [word]. *)
Definition keeps (pattern : list bool) (word : Z) : bool :=
  match zget pattern word with
  | Done true => true
  | _ => false
  end.

(** The words of [ws] that the row keeps, in order. *)
Definition kept (pattern : list bool) (ws : list Z) : list Z :=
  filter (fun word => keeps pattern word = true) ws.

(** [word] indexes the row. *)
Definition in_row (pattern : list bool) (word : Z) : Prop :=
  0 <= word < Z.of_nat (length pattern).

(** The shape the two partition loops share: [rd] reads the next word,
    [dst] is the buffer written. *)
Definition partition_body (rd : Z -> list (list Z) -> outcome Z) (dst : Z)
    (pattern : list bool) (i : Z) (st : Z * list (list Z))
    : outcome (Z * list (list Z)) :=
  let '(new_num_words_left, s) := st in
  let* word := rd i s in
  let* val := zget pattern word in
  if (val : bool) then
    let* next_words_left := zget s dst in
    let* next_words_left' := zset next_words_left new_num_words_left word in
    let* s' := zset s dst next_words_left' in
    Done (new_num_words_left + 1, s')
  else Done (new_num_words_left, s).

(** What a partition loop over the first [n] words of [ws] returns when
    [buf] is the buffer it writes, number [dst] of [s]. *)
Definition partition_result (pattern : list bool) (ws : list Z) (n : Z)
    (dst : nat) (buf : list Z) (s : list (list Z))
    : outcome (Z * list (list Z)) :=
  let ks := kept pattern (take (Z.to_nat n) ws) in
  if decide (n <= Z.of_nat (length ws)
             /\ Forall (in_row pattern) (take (Z.to_nat n) ws)
             /\ (length ks <= length buf)%nat)
  then Done (Z.of_nat (length ks), <[dst := ks ++ drop (length ks) buf]> s)
  else Fault OutOfBounds.

(** *** A two-word vocabulary for the examples *)

Definition w (s : string) : word := list_ascii_of_string s.

Definition two_words : list word := [w "abcde"; w "fghij"].

Definition two_words_table : table :=
  match ComputeWordPatternMatches two_words with
  | Done t => t
  | Fault _ => []
  end.

(** *** What a call leaves untouched *)

(** The sizes of the buffers. *)
Definition shape (s : list (list Z)) : list nat := length <$> s.

(** [s'] has the buffers of [s], with their sizes, unchanged below depth
    [num_guesses]. *)
Definition same_below (num_guesses : Z) (s s' : list (list Z)) : Prop :=
  length s' = length s /\
  (forall j : nat, Z.of_nat j < num_guesses -> s' !! j = s !! j) /\
  shape s' = shape s.

(** A recursive call at depth [ng] leaves the buffers below [ng] alone. *)
Definition frames `{FloatOps} (ng : Z)
    (recurse : Z -> list (list Z) -> outcome (option F * list (list Z))) : Prop :=
  forall k s1 r s2, recurse k s1 = Done (r, s2) -> same_below ng s1 s2.

(** The reads of a partition of the first [n] words of [prev] by a row of
    [len] entries all succeed. *)
Definition reads_ok (len : nat) (prev : list Z) (n : Z) : Prop :=
  n <= Z.of_nat (length prev)
  /\ Forall (fun word => 0 <= word < Z.of_nat len) (take (Z.to_nat n) prev).

(** At depth [ng] the buffers of the caller and of the callee are there,
    and the caller's is [prev]. *)
Definition buffers_at (ng : Z) (prev : list Z) (s : list (list Z)) : Prop :=
  zget s (ng - 1) = Done prev /\ exists buf, zget s ng = Done buf.

(** *** The minimum the loop of [Recurse] tracks *)

(** One turn of the loop on the value of a candidate: a discarded
    candidate ([None]) leaves [min_expected] as it is. *)
Definition track `{FloatOps} (min_expected : option F) (value : option F)
    : option F :=
  match value with
  | Some result => min_update min_expected result
  | None => min_expected
  end.

(** [min_expected] after the loop has seen [values]. *)
Definition least `{FloatOps} (values : list (option F)) : option F :=
  fold_left track values None.

(** What the comparison [<] of [float] satisfies on all values, the
    unordered ones included. *)
Class FloatOrder `{FloatOps} : Prop := {
  flt_irrefl : forall x : F, flt x x = false;
  flt_trans : forall x y z : F, flt x y = true -> flt y z = true -> flt x z = true
}.

(** *** The comparison of [binary32] through keys *)

(** A key whose lexicographic order is the order [SFcompare] decides;
    a NaN has none. *)
Definition float_key (x : spec_float) : option (Z * Z * Z) :=
  match x with
  | S754_nan => None
  | S754_infinity true => Some (-2, 0, 0)
  | S754_infinity false => Some (2, 0, 0)
  | S754_zero _ => Some (0, 0, 0)
  | S754_finite true m e => Some (-1, - e, Z.neg m)
  | S754_finite false m e => Some (1, e, Z.pos m)
  end.

Definition lex_compare (a b : Z * Z * Z) : comparison :=
  let '(a1, a2, a3) := a in
  let '(b1, b2, b3) := b in
  match a1 ?= b1 with
  | Eq => match a2 ?= b2 with
          | Eq => a3 ?= b3
          | c => c
          end
  | c => c
  end.

Definition lex_lt (a b : Z * Z * Z) : Prop :=
  let '(a1, a2, a3) := a in
  let '(b1, b2, b3) := b in
  a1 < b1 \/ (a1 = b1 /\ (a2 < b2 \/ (a2 = b2 /\ a3 < b3))).

(** *** Laws of the comparison of [float] *)

(** [fcompare] is a comparison: symmetric, transitive, and congruent for
    its own equality.  Unordered pairs ([None]) are left free. *)
Class FloatCompare `{FloatOps} : Prop := {
  fcompare_sym : forall (x y : F) (c : comparison),
    fcompare x y = Some c -> fcompare y x = Some (CompOpp c);
  fcompare_trans : forall (x y z : F) (c : comparison),
    fcompare x y = Some c -> fcompare y z = Some c -> fcompare x z = Some c;
  fcompare_Eq_l : forall (x y z : F) (c : comparison),
    fcompare x y = Some Eq -> fcompare y z = Some c -> fcompare x z = Some c;
  fcompare_Eq_r : forall (x y z : F) (c : comparison),
    fcompare x y = Some c -> fcompare y z = Some Eq -> fcompare x z = Some c;
  fcompare_total : forall x y : F,
    fcompare x x = Some Eq -> fcompare y y = Some Eq -> fcompare x y <> None
}.

(** A value that compares equal to itself: any [float] but a NaN. *)
Definition ordered `{FloatOps} (x : F) : Prop := feq x x = true.

(** *** The reduction over the workers *)

Section Reduction.
Context `{ops : FloatOps}.

(** One pass through the critical section: the value, the index and the
    word of a first guess that was not dropped. *)
Definition event : Type := F * Z * list ascii.

Definition event_value (e : event) : F := e.1.1.
Definition event_index (e : event) : Z := e.1.2.

Definition report_event (sh : shared) (e : event) : shared :=
  report sh (event_value e) (event_index e) e.2.

(** The shared state after the critical sections [evs], in that order. *)
Definition reduce (sh : shared) (evs : list event) : shared :=
  fold_left report_event evs sh.

(** [e] is at most [e'] in the lexicographic order on value, then index. *)
Definition no_worse (e e' : event) : Prop :=
  flt (event_value e) (event_value e') = true
  \/ (feq (event_value e) (event_value e') = true
      /\ event_index e <= event_index e').

(** The events of [Thread] for the first guesses [first_word],
    [first_word + 1], ..., in the order of its loop. *)
Fixpoint Thread_events (max_num_guesses : Z) (words : list word)
    (word_pattern_matches : table) (count : nat) (first_word : Z)
    (s : scratch) : outcome (list event * scratch) :=
  match count with
  | O => Done ([], s)
  | Datatypes.S count' =>
      let* (value, s1) :=
        Thread_candidate max_num_guesses words word_pattern_matches
                         first_word s in
      let* mine :=
        match value with
        | Some result =>
            let* wd := zget words first_word in
            Done [(result, first_word, wd)]
        | None => Done []
        end in
      let* (evs, s2) :=
        Thread_events max_num_guesses words word_pattern_matches count'
                      (first_word + 1) s1 in
      Done (mine ++ evs, s2)
  end.

(** What the shared record holds is one of the events [seen] and is at
    most each of them; it is empty when there is none. *)
Definition record_inv (sh : shared) (seen : list event) : Prop :=
  match min_expected sh with
  | None => seen = []
  | Some m =>
      exists e, e ∈ seen /\ event_value e = m /\ event_index e = best_word sh
                /\ forall e', e' ∈ seen -> no_worse e e'
  end.

End Reduction.

(** *** Schedules *)

(** [interleaving ls r]: [r] takes the elements of the lists [ls], each
    list in its own order; the orders in which the critical sections of
    the workers can follow one another. *)
Inductive interleaving {A : Type} : list (list A) -> list A -> Prop :=
  | interleaving_nil (ls : list (list A)) :
      Forall (fun l => l = []) ls -> interleaving ls []
  | interleaving_cons (ls1 ls2 : list (list A)) (x : A) (l r : list A) :
      interleaving (ls1 ++ l :: ls2) r ->
      interleaving (ls1 ++ (x :: l) :: ls2) (x :: r).

(** The shared state [main] starts the workers with. *)
Definition no_best : @shared binary32 := @Build_shared binary32 [] None 0.

(** *** Tables and buffers that fit a vocabulary *)

(** A table for [V] words: one list of rows per word, every row with one
    entry per word. *)
Definition table_fits (V : nat) (wpm : table) : Prop :=
  length wpm = V /\ Forall (Forall (fun row : list bool => length row = V)) wpm.

(** The buffers of a worker during a call at depth [ng] with [n] words
    left: [max] buffers of [V] entries, the buffer of the caller holding
    [n] word indices at its front. *)
Definition scratch_fits (V : nat) (max ng n : Z) (s : scratch) : Prop :=
  Z.of_nat (length s) = max
  /\ Forall (fun b : list Z => length b = V) s
  /\ exists prev, zget s (ng - 1) = Done prev /\ reads_ok V prev n.
(** ** [ReadWords]

    The input file is the list of its characters, [None] when it cannot be
    opened.  A stream holds the characters not read yet and whether it is
    still good (neither [eofbit] nor [failbit] set). *)

Record ifstream : Type := {
  unread : list ascii;
  good : bool
}.

(** [std::ifstream fin(name)]: a file that cannot be opened leaves the
    stream failed. *)
Definition open_file (file : option (list ascii)) : ifstream :=
  match file with
  | Some cs => {| unread := cs; good := true |}
  | None => {| unread := []; good := false |}
  end.

(** [std::isspace] in the default locale: space and the characters
    [\t], [\n], [\v], [\f], [\r]. *)
Definition isspace (ch : ascii) : bool :=
  (char_code ch =? 32) || ((9 <=? char_code ch) && (char_code ch <=? 13)).

(** The leading whitespace that [>>] skips. *)
Fixpoint skip_space (cs : list ascii) : list ascii :=
  match cs with
  | [] => []
  | ch :: rest => if isspace ch then skip_space rest else cs
  end.

(** The characters [>>] stores: up to the next whitespace or the end. *)
Fixpoint take_word (cs : list ascii) : word * list ascii :=
  match cs with
  | [] => ([], [])
  | ch :: rest =>
      if isspace ch then ([], cs)
      else let '(wd, rest') := take_word rest in (ch :: wd, rest')
  end.

(** [fin >> word]: nothing is read from a stream that is not good; the
    end of the file met while skipping whitespace fails the extraction;
    met while reading the word it ends the word and leaves the stream at
    its end, no longer good. *)
Definition extract_word (fin : ifstream) : option word * ifstream :=
  if good fin then
    match skip_space (unread fin) with
    | [] => (None, {| unread := []; good := false |})
    | ch :: rest =>
        let '(wd, rest') := take_word (ch :: rest) in
        (Some wd, {| unread := rest';
                     good := match rest' with [] => false | _ => true end |})
    end
  else (None, fin).

(** The loop [while (true) { if (!(fin >> word)) break; words.push_back(word); }];
    [fuel] bounds the number of turns. *)
Fixpoint ReadWords_loop (fuel : nat) (fin : ifstream) (words : list word)
    : outcome (list word) :=
  match fuel with
  | O => Fault FuelExhausted
  | Datatypes.S fuel' =>
      match extract_word fin with
      | (None, _) => Done words
      | (Some wd, fin') => ReadWords_loop fuel' fin' (words ++ [wd])
      end
  end.

(** Every word read takes at least one character, so there are at most as
    many turns as characters, and one more that fails. *)
Definition ReadWords (file : option (list ascii)) : outcome (list word) :=
  let fin := open_file file in
  ReadWords_loop (Datatypes.S (length (unread fin))) fin [].

(** *** Files laid out as words and separators *)

Definition blank (cs : list ascii) : Prop := Forall (fun ch => isspace ch = true) cs.

(** A word as [>>] reads it: not empty, no whitespace in it. *)
Definition token (wd : word) : Prop :=
  wd <> [] /\ Forall (fun ch => isspace ch = false) wd.

(** The words [wds], each followed by its separator; only the last
    separator may be empty. *)
Fixpoint separated (items : list (word * list ascii)) : Prop :=
  match items with
  | [] => True
  | (wd, sep) :: rest =>
      token wd /\ blank sep /\ (rest <> [] -> sep <> []) /\ separated rest
  end.

Definition laid_out (items : list (word * list ascii)) : list ascii :=
  concat (map (fun it : word * list ascii => it.1 ++ it.2) items).
(** ** [main]: the guesses already made (lines 294-319) *)

(** [std::find(words.begin(), words.end(), guess) - words.begin()]: the
    position of the first word equal to [guess], [words.size()] when
    there is none. *)
Fixpoint find_index (words : list word) (guess : word) : Z :=
  match words with
  | [] => 0
  | wd :: rest => if decide (wd = guess) then 0 else 1 + find_index rest guess
  end.

(** Lines 307-312: the words whose entry in [matches] is set. *)
Definition prune (words : list word) (matches : pattern_row)
    : outcome (list word) :=
  for_loop 0 (Z.of_nat (length words)) (fun i new_words =>
    let* m := zget matches i in
    if (m : bool) then
      let* wd := zget words i in
      Done (new_words ++ [wd])
    else Done new_words) [].

(** What the loop over the guesses carries: [words],
    [all_word_pattern_matches] and [max_num_guesses]. *)
Abbreviation main_state :=
  (list (list ascii) * list (list (list bool)) * Z)%type (only parsing).

(** Lines 297-317, the body of the loop: [argv[1 + 2 * guess_i]] is the
    guess and the next argument its pattern. *)
Definition apply_guess (argv : list word) (guess_i : Z) (st : main_state)
    : outcome main_state :=
  let '(words, all_word_pattern_matches, max_num_guesses) := st in
  let* guess := zget argv (1 + guess_i * 2) in
  let* pattern := zget argv (1 + guess_i * 2 + 1) in
  let word_i := find_index words guess in
  let* _ := assert (negb (word_i =? Z.of_nat (length words))) in
  let* pattern_int := ToPatternInt pattern in
  let* rows := zget all_word_pattern_matches word_i in
  let* matches := zget rows pattern_int in
  let* new_words := prune words matches in
  let* all_word_pattern_matches' := ComputeWordPatternMatches new_words in
  let max_num_guesses' := max_num_guesses - 1 in
  let* _ := assert (negb (bool_decide (new_words = []))) in
  Done (new_words, all_word_pattern_matches', max_num_guesses').

(** What [main] has when it starts the workers. *)
Record setup : Type := {
  setup_words : list word;
  setup_table : table;
  setup_max_num_guesses : Z;
  setup_result_number : Z
}.

(** [main] up to line 329: the vocabulary is read, the guesses on the
    command line are applied, the table is trimmed.  [argv] holds the
    program name and the arguments; [%] and [/] on [int] truncate. *)
Definition main_setup (file : option (list ascii)) (argv : list word)
    : outcome setup :=
  let args := Z.of_nat (length argv) in
  let* words := ReadWords file in
  let* all_word_pattern_matches := ComputeWordPatternMatches words in
  let* _ := assert (Z.rem (args - 1) 2 =? 0) in
  let* (words', all_word_pattern_matches', max_num_guesses) :=
    for_loop 0 (Z.quot (args - 1) 2) (apply_guess argv)
      (words, all_word_pattern_matches, kMaxNumGuesses) in
  let* _ := assert (max_num_guesses >? 0) in
  Done {| setup_words := words';
          setup_table := TrimWordPatternMatches all_word_pattern_matches';
          setup_max_num_guesses := max_num_guesses;
          setup_result_number := kMaxNumGuesses - max_num_guesses + 1 |}.

(** *** Clues *)

#[global] Instance fault_eq_dec : EqDecision fault.
Proof. solve_decision. Defined.

#[global] Instance outcome_eq_dec {A : Type} `{EqDecision A} : EqDecision (outcome A).
Proof. solve_decision. Defined.

(** The arguments of the program for a list of guesses with their
    patterns. *)
Definition clue_args (clues : list (word * word)) : list word :=
  concat (map (fun clue : word * word => [clue.1; clue.2]) clues).

(** The words that would have answered [guess] with [pattern]. *)
Definition consistent (guess pattern : word) (words : list word) : list word :=
  filter (fun wd => encode guess wd = ToPatternInt pattern) words.

(** The words left after each clue in turn. *)
Definition narrow (words : list word) (clues : list (word * word)) : list word :=
  fold_left (fun ws (clue : word * word) => consistent clue.1 clue.2 ws) clues words.

(** The loop over the guesses gets through every clue: each guess is
    still in the vocabulary when its turn comes, and some word is left
    after it. *)
Fixpoint accepted (words : list word) (clues : list (word * word)) : bool :=
  match clues with
  | [] => true
  | clue :: rest =>
      bool_decide (clue.1 ∈ words /\ consistent clue.1 clue.2 words <> [])
      && accepted (consistent clue.1 clue.2 words) rest
  end.

(** A file with the two words of the examples, one per line. *)
Definition two_words_file : list ascii :=
  w "abcde" ++ ["010"%char] ++ w "fghij" ++ ["010"%char].
(** ** [main]: the workers and the announcement (lines 330-350) *)

Section Workers.
Context `{ops : FloatOps}.

(** The call of [Thread] that the worker number [thread] makes. *)
Definition worker (su : setup) (thread : Z) (sh : shared) : outcome shared :=
  let num_words := Z.of_nat (length (setup_words su)) in
  Thread (range_start num_words thread) (range_end num_words thread)
         (setup_max_num_guesses su) (setup_words su) (setup_table su) sh.

(** The critical sections of that worker, in its own order. *)
Definition worker_events (su : setup) (thread : Z) : outcome (list event) :=
  let num_words := Z.of_nat (length (setup_words su)) in
  let* all_words_left :=
    new_scratch (setup_max_num_guesses su) (length (setup_words su)) in
  let* _ := zget all_words_left 0 in
  let* (evs, _) :=
    Thread_events (setup_max_num_guesses su) (setup_words su) (setup_table su)
      (Z.to_nat (range_end num_words thread - range_start num_words thread))
      (range_start num_words thread) all_words_left in
  Done evs.

(** The shared state when the workers start: nothing written to the
    file, no [min_expected]; [best_word] is not initialised and holds
    some value [garbage]. *)
Definition initial_shared (garbage : Z) : shared :=
  {| fout := []; min_expected := None; best_word := garbage |}.

(** Lines 345-350: [None] stands for the line [You can't win!], [Some wd]
    for [Play the word: wd]. *)
Definition announce (words : list word) (sh : shared) : outcome (option word) :=
  match min_expected sh with
  | None => Done None
  | Some _ =>
      let* wd := zget words (best_word sh) in
      Done (Some wd)
  end.

(** The record is empty as long as nothing was reported; once set,
    [best_word] is the index of a reported first guess. *)
Definition best_inv (sh : shared) (seen : list event) : Prop :=
  match min_expected sh with
  | None => seen = []
  | Some _ => exists e, e ∈ seen /\ best_word sh = event_index e
  end.

End Workers.

(** Two reports with the value 1.5, the higher index first. *)
Definition two_reports : list (@event binary32) :=
  [(S754_finite false 12582912 (-23), 1, w "fghij");
   (S754_finite false 12582912 (-23), 0, w "abcde")].

(** *** Patterns as strings *)

(** The character that stands for a digit. *)
Definition digit_symbol (d : Z) : ascii :=
  if d =? 2 then "g"%char else if d =? 1 then "y"%char else "_"%char.

(** The string of five characters that spells the pattern [p], first
    position first. *)
Definition pattern_string (p : Z) : word :=
  map (fun c => digit_symbol (pattern_digit p c)) (seqZ 0 5).

(** *** Counting along the paired letters *)

(** The positions at which the guess holds [x] and the answer another
    letter. *)
Fixpoint misplaced_count (x : ascii) (ga : list (ascii * ascii)) : nat :=
  match ga with
  | [] => 0%nat
  | (g, a) :: ga' =>
      ((if decide (g = x /\ a <> x) then 1%nat else 0%nat) + misplaced_count x ga')%nat
  end.
(** *** Two runs on the same working set *)

(** The buffers [s] and [s'] hold the same [n] words at the front of the
    buffer of the caller at depth [ng]. *)
Definition same_working_set (ng n : Z) (s s' : scratch) : Prop :=
  exists prev prev', zget s (ng - 1) = Done prev /\ zget s' (ng - 1) = Done prev'
    /\ take (Z.to_nat n) prev = take (Z.to_nat n) prev'.

(** Two outcomes of a loop body or of a loop: both go on, or both break,
    with states related by [R]. *)
Definition ctl_rel {S : Type} (R : S -> S -> Prop) (r r' : ctl S) : Prop :=
  match r, r' with
  | Next s, Next s' => R s s'
  | Break s, Break s' => R s s'
  | _, _ => False
  end.

(** *** Characters outside the alphabet *)

(** *** Values of [float] in the examples *)

Definition float_1 : @F binary32 := S754_finite false 8388608 (-23).
Definition float_2 : @F binary32 := S754_finite false 8388608 (-22).
Definition float_3 : @F binary32 := S754_finite false 12582912 (-22).
Definition float_1_5 : @F binary32 := S754_finite false 12582912 (-23).

(** [result] in the loop over the rows of a candidate when two words are
    left: the row that keeps the candidate adds [1 * 1], the row that
    keeps the other word adds [1 * (1 + 1)]. *)
Definition two_words_result (seen_guess seen_other : nat) : @F binary32 :=
  match seen_guess, seen_other with
  | O, O => S754_zero false
  | Datatypes.S _, O => float_1
  | O, Datatypes.S _ => float_2
  | Datatypes.S _, Datatypes.S _ => float_3
  end.

(** * Properties *)

(** ** The outcome monad and vectors *)

Lemma bind_Done {A B : Type} (m : outcome A) (k : A -> outcome B) (b : B) :
  bind m k = Done b -> exists a, m = Done a /\ k a = Done b.
Proof. destruct m; simpl; [eauto | discriminate]. Qed.

Lemma bind_Done_l {A B : Type} (a : A) (k : A -> outcome B) :
  bind (Done a) k = k a.
Proof. reflexivity. Qed.

Lemma zget_nat {A : Type} (l : list A) (n : nat) (x : A) :
  l !! n = Some x -> zget l (Z.of_nat n) = Done x.
Proof.
  intros H. unfold zget. rewrite bool_decide_true by lia.
  rewrite Nat2Z.id, H. reflexivity.
Qed.

Lemma zget_Done {A : Type} (l : list A) (i : Z) (x : A) :
  zget l i = Done x <-> 0 <= i /\ l !! Z.to_nat i = Some x.
Proof.
  unfold zget. case_bool_decide.
  - destruct (l !! Z.to_nat i) eqn:E; split; intros H'.
    + split; [lia | congruence].
    + destruct H' as [_ H']. congruence.
    + discriminate.
    + destruct H' as [_ H']. discriminate.
  - split; [discriminate | lia].
Qed.

Lemma zget_in_range {A : Type} (l : list A) (i : Z) :
  0 <= i < Z.of_nat (length l) -> exists x, zget l i = Done x.
Proof.
  intros H. destruct (lookup_lt_is_Some_2 l (Z.to_nat i)) as [x Hx]; [lia |].
  exists x. apply zget_Done. split; [lia | done].
Qed.

Lemma zget_out_of_range {A : Type} (l : list A) (i : Z) :
  ~ 0 <= i < Z.of_nat (length l) -> zget l i = Fault OutOfBounds.
Proof.
  intros H. unfold zget. case_bool_decide; [|done].
  rewrite lookup_ge_None_2 by lia. reflexivity.
Qed.

Lemma zget_Done_range {A : Type} (l : list A) (i : Z) (x : A) :
  zget l i = Done x -> 0 <= i < Z.of_nat (length l).
Proof.
  intros [H1 H2]%zget_Done. apply lookup_lt_Some in H2. lia.
Qed.

Lemma zset_nat {A : Type} (l : list A) (n : nat) (x : A) :
  (n < length l)%nat -> zset l (Z.of_nat n) x = Done (<[n := x]> l).
Proof.
  intros H. unfold zset. rewrite bool_decide_true by lia.
  rewrite Nat2Z.id. reflexivity.
Qed.

Lemma zset_Done {A : Type} (l l' : list A) (i : Z) (x : A) :
  zset l i x = Done l' <->
  0 <= i < Z.of_nat (length l) /\ l' = <[Z.to_nat i := x]> l.
Proof.
  unfold zset. case_bool_decide; split; intros H'.
  - split; [done | congruence].
  - destruct H' as [_ ->]. done.
  - discriminate.
  - lia.
Qed.

Lemma for_count_S {S : Type} (n : nat) (i : Z) (body : Z -> S -> outcome S) (s : S) :
  for_count (Datatypes.S n) i body s
  = bind (body i s) (fun s' => for_count n (i + 1) body s').
Proof. reflexivity. Qed.

Lemma for_count_app {S : Type} (n m : nat) (i : Z) (body : Z -> S -> outcome S) (s : S) :
  for_count (n + m) i body s
  = bind (for_count n i body s) (fun s' => for_count m (i + Z.of_nat n) body s').
Proof.
  revert i s. induction n as [|n IH]; intros i s.
  - simpl. f_equal. lia.
  - change (Datatypes.S n + m)%nat with (Datatypes.S (n + m)).
    rewrite !for_count_S. destruct (body i s) as [s'|f]; simpl; [|done].
    rewrite IH. destruct (for_count n (i + 1) body s'); simpl; [|done].
    f_equal. lia.
Qed.

Lemma compute_shift_eq : compute_shift = Done shift_table.
Proof. reflexivity. Qed.

(** ** The encoding loops *)

Lemma shift_table_lookup (c : nat) :
  (c < 5)%nat -> zget shift_table (Z.of_nat c) = Done (3 ^ Z.of_nat c).
Proof.
  intros H. apply zget_nat.
  do 5 (destruct c as [|c]; [reflexivity |]). lia.
Qed.

Lemma str_at_nat (s : word) (c : nat) (ch : ascii) :
  s !! c = Some ch -> str_at s (Z.of_nat c) = Done ch.
Proof.
  intros H. unfold str_at. rewrite bool_decide_true by lia.
  rewrite Nat2Z.id, H. reflexivity.
Qed.

Lemma lowercase_index (ch : ascii) : lowercase ch -> 0 <= letter_index ch < 26.
Proof. unfold lowercase, letter_index. lia. Qed.

Lemma letter_index_inj (a b : ascii) : letter_index a = letter_index b -> a = b.
Proof.
  unfold letter_index, char_code. intros H.
  rewrite <- (ascii_nat_embedding a), <- (ascii_nat_embedding b).
  f_equal. lia.
Qed.

Lemma represents_get (ll : list Z) (cnt : Z -> Z) (k : Z) :
  represents ll cnt -> 0 <= k < 26 -> zget ll k = Done (cnt k).
Proof.
  intros [_ H] Hk. apply zget_Done. split; [lia | auto].
Qed.

Lemma represents_set (ll : list Z) (cnt : Z -> Z) (k v : Z) :
  represents ll cnt -> 0 <= k < 26 ->
  exists ll', zset ll k v = Done ll' /\ represents ll' (upd cnt k v).
Proof.
  intros [Hlen H] Hk. exists (<[Z.to_nat k := v]> ll). split.
  - apply zset_Done. split; [lia | done].
  - split; [by rewrite length_insert |].
    intros k' Hk'. unfold upd. destruct (Z.eqb_spec k' k) as [->|Hne].
    + apply list_lookup_insert_eq. lia.
    + rewrite list_lookup_insert_ne by lia. auto.
Qed.

Lemma represents_zero (ll : list Z) (cnt : Z -> Z) :
  represents ll cnt -> (forall k, cnt k = 0) -> ll = no_letters.
Proof.
  intros [Hlen H] Hz. apply list_eq. intros i.
  destruct (decide (i < 26)%nat) as [Hi|Hi].
  - specialize (H (Z.of_nat i)). rewrite Nat2Z.id, Hz in H.
    rewrite H by lia. symmetry. apply lookup_replicate. split; [done | lia].
  - rewrite !lookup_ge_None_2; [done | |]; [unfold no_letters; rewrite length_replicate | ]; lia.
Qed.

Lemma represents_no_letters : represents no_letters (fun _ => 0).
Proof.
  split; [reflexivity |]. intros k Hk. apply lookup_replicate. split; [done | lia].
Qed.

Section Passes.
Variables guess answer : word.
Hypothesis guess_len : length guess = 5%nat.
Hypothesis answer_len : length answer = 5%nat.
Hypothesis guess_lower : Forall lowercase guess.
Hypothesis answer_lower : Forall lowercase answer.

Lemma zip_at (c : nat) :
  (c < 5)%nat ->
  exists g a, guess !! c = Some g /\ answer !! c = Some a /\
              lowercase g /\ lowercase a /\
              drop c (zip guess answer) = (g, a) :: drop (Datatypes.S c) (zip guess answer) /\
              drop c answer = a :: drop (Datatypes.S c) answer.
Proof.
  intros Hc.
  destruct (lookup_lt_is_Some_2 guess c) as [g Hg]; [lia |].
  destruct (lookup_lt_is_Some_2 answer c) as [a Ha]; [lia |].
  exists g, a. split_and!; try done.
  - eapply (Forall_lookup_1 lowercase guess); eauto.
  - eapply (Forall_lookup_1 lowercase answer); eauto.
  - apply drop_S. rewrite lookup_zip_with, Hg. simpl. rewrite Ha. done.
  - by apply drop_S.
Qed.

Lemma pass1_loop (n : nat) : forall (c : nat) (p : Z) (ll : list Z) (cnt : Z -> Z),
  (c + n = 5)%nat -> represents ll cnt ->
  exists ll',
    for_count n (Z.of_nat c) (encode_pass1 shift_table guess answer) (p, ll)
    = Done (p + wsum c (exact_marks (drop c (zip guess answer))), ll')
    /\ represents ll' (unmatched (drop c (zip guess answer)) cnt).
Proof.
  induction n as [|n IH]; intros c p ll cnt Hc Hll.
  - exists ll. rewrite drop_ge by (rewrite length_zip_with; lia).
    simpl. split; [f_equal; f_equal; lia | done].
  - destruct (zip_at c) as (g & a & Hg & Ha & Lg & La & Hd & _); [lia |].
    rewrite Hd. rewrite for_count_S. unfold encode_pass1 at 1.
    rewrite (str_at_nat _ _ _ Hg), (str_at_nat _ _ _ Ha). simpl.
    destruct (Ascii.eqb g a) eqn:E.
    + rewrite shift_table_lookup by lia. simpl.
      replace (Z.of_nat c + 1) with (Z.of_nat (Datatypes.S c)) by lia.
      destruct (IH (Datatypes.S c) (p + 3 ^ Z.of_nat c * 2) ll cnt) as (ll' & H1 & H2);
        [lia | done |].
      exists ll'. rewrite H1. split; [f_equal; f_equal; lia | done].
    + rewrite (represents_get _ _ _ Hll) by (by apply lowercase_index). simpl.
      destruct (represents_set ll cnt (letter_index a) (cnt (letter_index a) + 1) Hll)
        as (ll1 & Hs & Hr); [by apply lowercase_index |].
      rewrite Hs. simpl.
      replace (Z.of_nat c + 1) with (Z.of_nat (Datatypes.S c)) by lia.
      destruct (IH (Datatypes.S c) p ll1 _ ltac:(lia) Hr) as (ll' & H1 & H2).
      exists ll'. rewrite H1. split; [f_equal; f_equal; lia | done].
Qed.

Lemma pass2_loop (n : nat) : forall (c : nat) (p : Z) (ll : list Z) (cnt : Z -> Z),
  (c + n = 5)%nat -> represents ll cnt ->
  exists ll',
    for_count n (Z.of_nat c) (encode_pass2 shift_table guess answer) (p, ll)
    = Done (p + wsum c (yellow_marks (drop c (zip guess answer)) cnt), ll')
    /\ represents ll' (remaining (drop c (zip guess answer)) cnt).
Proof.
  induction n as [|n IH]; intros c p ll cnt Hc Hll.
  - exists ll. rewrite drop_ge by (rewrite length_zip_with; lia).
    simpl. split; [f_equal; f_equal; lia | done].
  - destruct (zip_at c) as (g & a & Hg & Ha & Lg & La & Hd & _); [lia |].
    rewrite Hd. rewrite for_count_S. unfold encode_pass2 at 1.
    rewrite (str_at_nat _ _ _ Hg), (str_at_nat _ _ _ Ha). simpl.
    replace (Z.of_nat c + 1) with (Z.of_nat (Datatypes.S c)) by lia.
    destruct (Ascii.eqb g a) eqn:E; simpl.
    + destruct (IH (Datatypes.S c) p ll cnt) as (ll' & H1 & H2); [lia | done |].
      exists ll'. rewrite H1. split; [f_equal; f_equal; lia | done].
    + rewrite (represents_get _ _ _ Hll) by (by apply lowercase_index). simpl.
      destruct (Z.gtb_spec (cnt (letter_index g)) 0) as [Hpos|Hnpos].
      * rewrite bool_decide_true by lia.
        rewrite shift_table_lookup by lia. simpl.
        destruct (represents_set ll cnt (letter_index g) (cnt (letter_index g) - 1) Hll)
          as (ll1 & Hs & Hr); [by apply lowercase_index |].
        rewrite Hs. simpl.
        destruct (IH (Datatypes.S c) (p + 3 ^ Z.of_nat c * 1) ll1 _ ltac:(lia) Hr)
          as (ll' & H1 & H2).
        exists ll'. rewrite H1. split; [f_equal; f_equal; lia | done].
      * rewrite bool_decide_false by lia. simpl.
        destruct (IH (Datatypes.S c) p ll cnt) as (ll' & H1 & H2); [lia | done |].
        exists ll'. rewrite H1. split; [f_equal; f_equal; lia | done].
Qed.

Lemma reset_loop (n : nat) : forall (c : nat) (ll : list Z) (cnt : Z -> Z),
  (c + n = 5)%nat -> represents ll cnt ->
  exists ll',
    for_count n (Z.of_nat c) (encode_reset answer) ll = Done ll'
    /\ represents ll' (cleared (drop c answer) cnt).
Proof.
  induction n as [|n IH]; intros c ll cnt Hc Hll.
  - exists ll. rewrite drop_ge by lia. done.
  - destruct (zip_at c) as (g & a & Hg & Ha & Lg & La & _ & Hd); [lia |].
    rewrite Hd. rewrite for_count_S. unfold encode_reset at 1.
    rewrite (str_at_nat _ _ _ Ha). simpl.
    destruct (represents_set ll cnt (letter_index a) 0 Hll)
      as (ll1 & Hs & Hr); [by apply lowercase_index |].
    rewrite Hs. simpl.
    replace (Z.of_nat c + 1) with (Z.of_nat (Datatypes.S c)) by lia.
    destruct (IH (Datatypes.S c) ll1 _ ltac:(lia) Hr) as (ll' & H1 & H2).
    exists ll'. by rewrite H1.
Qed.

End Passes.

(** ** The two passes on paired letters *)

Lemma wsum_digits_value (ds : list Z) (c : nat) :
  wsum c ds = 3 ^ Z.of_nat c * digits_value ds.
Proof.
  revert c. induction ds as [|d ds IH]; intros c; simpl.
  - lia.
  - rewrite IH. replace (Z.of_nat (Datatypes.S c)) with (Z.of_nat c + 1) by lia.
    rewrite Z.pow_add_r by lia. lia.
Qed.

Lemma marks_split (ga : list (ascii * ascii)) : forall (cnt : Z -> Z) (c : nat),
  wsum c (exact_marks ga) + wsum c (yellow_marks ga cnt) = wsum c (marks ga cnt).
Proof.
  induction ga as [|[g a] ga IH]; intros cnt c; simpl; [done |].
  destruct (Ascii.eqb g a); simpl.
  - rewrite <- IH. lia.
  - destruct (cnt (letter_index g) >? 0); simpl; rewrite <- IH; lia.
Qed.

Lemma marks_length (ga : list (ascii * ascii)) : forall cnt : Z -> Z,
  length (marks ga cnt) = length ga.
Proof.
  induction ga as [|[g a] ga IH]; intros cnt; simpl; [done |].
  destruct (Ascii.eqb g a); [| destruct (cnt (letter_index g) >? 0)];
    simpl; by rewrite IH.
Qed.

Lemma marks_lookup (ga : list (ascii * ascii)) :
  forall (cnt : Z -> Z) (c : nat) (g a : ascii),
  ga !! c = Some (g, a) ->
  exists d, marks ga cnt !! c = Some d /\ 0 <= d <= 2 /\ (d = 2 <-> g = a).
Proof.
  induction ga as [|[g0 a0] ga IH]; intros cnt c g a Hc; [done |].
  destruct c as [|c]; simpl in *.
  - inversion Hc; subst. destruct (Ascii.eqb_spec g a) as [->|Hne].
    + exists 2. split_and!; done.
    + destruct (cnt (letter_index g) >? 0); eexists; (split; [done |]);
        split; try lia; split; intros; done.
  - destruct (Ascii.eqb g0 a0); [| destruct (cnt (letter_index g0) >? 0)];
      simpl; by apply IH.
Qed.

Lemma marks_range (ga : list (ascii * ascii)) : forall cnt : Z -> Z,
  Forall (fun d => 0 <= d <= 2) (marks ga cnt).
Proof.
  induction ga as [|[g a] ga IH]; intros cnt; simpl; [constructor |].
  destruct (Ascii.eqb g a); [| destruct (cnt (letter_index g) >? 0)];
    constructor; (lia || apply IH).
Qed.

(** Counters that were never raised are still zero at the end. *)
Lemma unmatched_support (ga : list (ascii * ascii)) :
  forall (cnt : Z -> Z) (k : Z),
  unmatched ga cnt k <> 0 ->
  cnt k <> 0 \/ exists a, a ∈ ga.*2 /\ letter_index a = k.
Proof.
  induction ga as [|[g a] ga IH]; intros cnt k H; simpl in *; [by left |].
  destruct (Ascii.eqb g a).
  - destruct (IH _ _ H) as [?|(a' & ? & ?)]; [by left | right].
    exists a'. split; [by right | done].
  - destruct (IH _ _ H) as [H'|(a' & ? & ?)].
    + unfold upd in H'. destruct (Z.eqb_spec k (letter_index a)) as [Hk|Hk].
      * right. exists a. split; [by left | done].
      * by left.
    + right. exists a'. split; [by right | done].
Qed.

Lemma remaining_support (ga : list (ascii * ascii)) :
  forall (cnt : Z -> Z) (k : Z), remaining ga cnt k <> 0 -> cnt k <> 0.
Proof.
  induction ga as [|[g a] ga IH]; intros cnt k H; simpl in *; [done |].
  destruct (Ascii.eqb g a); [by apply IH |].
  destruct (Z.gtb_spec (cnt (letter_index g)) 0); [| by apply IH].
  apply IH in H. unfold upd in H.
  destruct (Z.eqb_spec k (letter_index g)) as [Hk|Hk]; [rewrite Hk; lia | done].
Qed.

Lemma cleared_spec (answer : list ascii) : forall (cnt : Z -> Z) (k : Z),
  cleared answer cnt k <> 0 ->
  cnt k <> 0 /\ forall a, a ∈ answer -> letter_index a <> k.
Proof.
  induction answer as [|a answer IH]; intros cnt k H; simpl in *.
  - split; [done |]. intros a Ha. by apply elem_of_nil in Ha.
  - apply IH in H as [H1 H2]. unfold upd in H1.
    destruct (Z.eqb_spec k (letter_index a)) as [Hk|Hne]; [done |].
    split; [done |]. intros a' [->|Ha']%elem_of_cons; [congruence | auto].
Qed.

Lemma counters_cleared (guess answer : word) (k : Z) :
  length guess = length answer ->
  cleared answer
    (remaining (zip guess answer) (unmatched (zip guess answer) (fun _ => 0))) k = 0.
Proof.
  intros Hlen.
  destruct (Z.eq_dec (cleared answer (remaining (zip guess answer)
              (unmatched (zip guess answer) (fun _ => 0))) k) 0) as [|Hne]; [done |].
  exfalso. apply cleared_spec in Hne as [H1 H2].
  apply remaining_support, unmatched_support in H1 as [?|(a & Ha & Hk)]; [done |].
  rewrite snd_zip in Ha by lia. by apply (H2 a).
Qed.

#[local] Arguments for_count : simpl never.

(** The loops of one iteration compute the digits of [feedback] and leave
    the counters cleared. *)
Lemma encode_step_wf (guess answer : word) :
  wf_word guess -> wf_word answer ->
  encode_step shift_table no_letters guess answer
  = Done (digits_value (feedback guess answer), no_letters).
Proof.
  intros [Hgl Hg] [Hal Ha]. unfold encode_step, for_loop.
  change (Z.to_nat (5 - 0)) with 5%nat.
  destruct (pass1_loop guess answer Hgl Hal Hg Ha 5 0 0 no_letters _ eq_refl
              represents_no_letters) as (ll1 & E1 & R1).
  change (Z.of_nat 0) with 0 in E1. rewrite E1. simpl.
  destruct (pass2_loop guess answer Hgl Hal Hg Ha 5 0
              (0 + wsum 0 (exact_marks (drop 0 (zip guess answer)))) ll1 _ eq_refl R1)
    as (ll2 & E2 & R2).
  change (Z.of_nat 0) with 0 in E2. rewrite E2. simpl.
  destruct (reset_loop guess answer Hgl Hal Hg Ha 5 0 ll2 _ eq_refl R2)
    as (ll3 & E3 & R3).
  change (Z.of_nat 0) with 0 in E3. rewrite E3. simpl.
  rewrite !drop_0 in *. f_equal. f_equal.
  - rewrite Z.add_0_l, marks_split, wsum_digits_value. unfold feedback.
    change (3 ^ Z.of_nat 0) with 1. lia.
  - eapply represents_zero; [exact R3 |]. intros k.
    apply counters_cleared. lia.
Qed.

Lemma encode_wf (guess answer : word) :
  wf_word guess -> wf_word answer ->
  encode guess answer = Done (digits_value (feedback guess answer)).
Proof.
  intros Hg Ha. unfold encode. rewrite compute_shift_eq. simpl.
  rewrite encode_step_wf by done. reflexivity.
Qed.

(** ** Patterns as five base-3 digits *)

Lemma digits_value_range (ds : list Z) :
  Forall (fun d => 0 <= d <= 2) ds ->
  0 <= digits_value ds < 3 ^ Z.of_nat (length ds).
Proof.
  induction 1 as [|d ds Hd _ IH]; simpl digits_value; simpl length.
  - simpl. lia.
  - rewrite Nat2Z.inj_succ, Z.pow_succ_r by lia. lia.
Qed.

Lemma pattern_digit_value (ds : list Z) : forall (c : nat) (d : Z),
  Forall (fun d => 0 <= d <= 2) ds -> ds !! c = Some d ->
  pattern_digit (digits_value ds) (Z.of_nat c) = d.
Proof.
  unfold pattern_digit.
  induction ds as [|d0 ds IH]; intros c d Hr Hc; [done |].
  inversion Hr as [|? ? Hd0 Hds]; subst. destruct c as [|c]; simpl in Hc.
  - inversion Hc; subst. simpl digits_value. change (3 ^ Z.of_nat 0) with 1.
    rewrite Z.div_1_r.
    replace (d + 3 * digits_value ds) with (d + digits_value ds * 3) by lia.
    rewrite Z.mod_add by lia. apply Z.mod_small. lia.
  - simpl digits_value. rewrite Nat2Z.inj_succ, Z.pow_succ_r by lia.
    rewrite <- Z.div_div by lia.
    replace ((d0 + 3 * digits_value ds) / 3) with (digits_value ds).
    + by apply IH.
    + replace (d0 + 3 * digits_value ds) with (d0 + digits_value ds * 3) by lia.
      rewrite Z.div_add by lia. rewrite (Z.div_small d0 3) by lia. lia.
Qed.

Lemma feedback_range (guess answer : word) :
  length guess = 5%nat -> length answer = 5%nat ->
  0 <= digits_value (feedback guess answer) < 243.
Proof.
  intros Hg Ha. unfold feedback.
  pose proof (digits_value_range _ (marks_range (zip guess answer)
                (unmatched (zip guess answer) (fun _ => 0)))) as H.
  rewrite marks_length, length_zip_with, Hg, Ha in H. exact H.
Qed.

Lemma feedback_digit (guess answer : word) (c : nat) (g a : ascii) :
  guess !! c = Some g -> answer !! c = Some a ->
  exists d, feedback guess answer !! c = Some d /\ 0 <= d <= 2 /\ (d = 2 <-> g = a)
            /\ pattern_digit (digits_value (feedback guess answer)) (Z.of_nat c) = d.
Proof.
  intros Hg Ha. unfold feedback.
  destruct (marks_lookup (zip guess answer)
              (unmatched (zip guess answer) (fun _ => 0)) c g a) as (d & Hd & Hr & He).
  { rewrite lookup_zip_with, Hg. simpl. by rewrite Ha. }
  exists d. split_and!; try done; try lia.
  apply pattern_digit_value; [apply marks_range | done].
Qed.

(** The all-exact pattern is 242, and only a word itself gets it. *)
Lemma feedback_all_exact (guess answer : word) :
  length guess = 5%nat -> length answer = 5%nat ->
  digits_value (feedback guess answer) = 242 <-> guess = answer.
Proof.
  intros Hg Ha. split.
  - intros H. apply list_eq. intros c.
    destruct (decide (c < 5)%nat) as [Hc|Hc].
    + destruct (lookup_lt_is_Some_2 guess c) as [g Hgc]; [lia |].
      destruct (lookup_lt_is_Some_2 answer c) as [a Hac]; [lia |].
      destruct (feedback_digit guess answer c g a Hgc Hac) as (d & _ & _ & He & Hd).
      rewrite H in Hd. rewrite Hgc, Hac. f_equal. apply He. rewrite <- Hd.
      do 5 (destruct c as [|c]; [reflexivity |]). lia.
    + rewrite !lookup_ge_None_2; [done | lia | lia].
  - intros <-. unfold feedback.
    assert (forall (l : word) (cnt : Z -> Z),
              marks (zip l l) cnt = replicate (length l) 2) as Hm.
    { induction l as [|x l IH]; intros cnt; simpl; [done |].
      rewrite Ascii.eqb_refl. by rewrite IH. }
    rewrite Hm, Hg. reflexivity.
Qed.

(** ** The table built by [ComputeWordPatternMatches] *)

Lemma table_mark_spec (t : table) (i p j : nat) (b : bool) :
  cell t i p j = Some b ->
  exists t', table_mark t (Z.of_nat i) (Z.of_nat p) (Z.of_nat j) = Done t' /\
    (forall n, table_shape n t -> table_shape n t') /\
    forall g q a, cell t' g q a
                  = if decide (g = i /\ q = p /\ a = j) then Some true
                    else cell t g q a.
Proof.
  unfold cell, table_mark. intros H.
  destruct (t !! i) as [rows|] eqn:Hrows; [|done].
  destruct (rows !! p) as [row|] eqn:Hrow; [|done].
  pose proof (lookup_lt_Some _ _ _ Hrows) as Li.
  pose proof (lookup_lt_Some _ _ _ Hrow) as Lp.
  pose proof (lookup_lt_Some _ _ _ H) as Lj.
  rewrite (zget_nat _ _ _ Hrows). simpl.
  rewrite (zget_nat _ _ _ Hrow). simpl.
  rewrite zset_nat by done. simpl.
  rewrite zset_nat by done. simpl.
  rewrite zset_nat by done.
  eexists. split; [reflexivity |]. split.
  - intros n [Hlen Hall]. split; [by rewrite length_insert |].
    apply Forall_insert; [done |].
    destruct (Forall_lookup_1 _ _ _ _ Hall Hrows) as [Hl Hr].
    split; [by rewrite length_insert |].
    apply Forall_insert; [done |]. rewrite length_insert.
    apply (Forall_lookup_1 _ _ _ _ Hr Hrow).
  - intros g q a.
    destruct (decide (g = i)) as [->|Hg].
    + rewrite list_lookup_insert_eq by done. rewrite Hrows.
      destruct (decide (q = p)) as [->|Hq].
      * rewrite list_lookup_insert_eq by done. rewrite Hrow.
        destruct (decide (a = j)) as [->|Ha].
        -- rewrite list_lookup_insert_eq by done. by rewrite decide_True.
        -- rewrite list_lookup_insert_ne by done.
           rewrite decide_False; [done | by intros (? & ? & ?)].
      * rewrite list_lookup_insert_ne by done.
        rewrite decide_False; [done | by intros (? & ? & ?)].
    + rewrite list_lookup_insert_ne by done.
      rewrite decide_False; [done | by intros (? & ? & ?)].
Qed.

Section Table.
Variable words : list word.
Hypothesis words_wf : Forall wf_word words.

Lemma pat_range (g a : nat) (guess answer : word) :
  words !! g = Some guess -> words !! a = Some answer ->
  pat words g a = digits_value (feedback guess answer) /\ 0 <= pat words g a < 243.
Proof.
  intros Hg Ha. unfold pat. rewrite Hg, Ha. split; [done |].
  destruct (Forall_lookup_1 _ _ _ _ words_wf Hg) as [? _].
  destruct (Forall_lookup_1 _ _ _ _ words_wf Ha) as [? _].
  by apply feedback_range.
Qed.

Lemma table_body_step (i j : nat) (t : table) :
  (i < length words)%nat -> (j < length words)%nat ->
  filled words i j t ->
  exists t', table_body shift_table words (Z.of_nat i) (Z.of_nat j) (t, no_letters)
             = Done (t', no_letters)
             /\ filled words i (Datatypes.S j) t'.
Proof.
  intros Hi Hj [Hsh Hf]. unfold table_body.
  destruct (lookup_lt_is_Some_2 words i Hi) as [guess Hg].
  destruct (lookup_lt_is_Some_2 words j Hj) as [answer Ha].
  rewrite (zget_nat _ _ _ Hg), (zget_nat _ _ _ Ha). simpl.
  rewrite encode_step_wf by (eapply (Forall_lookup_1 wf_word words); eauto). simpl.
  destruct (pat_range i j guess answer Hg Ha) as [Hp Hr]. rewrite <- Hp.
  set (pn := Z.to_nat (pat words i j)).
  assert (Z.of_nat pn = pat words i j) as Hpn by lia.
  destruct (table_mark_spec t i pn j _ (Hf i pn j Hi ltac:(lia) Hj))
    as (t' & Hm & Hs & Hc).
  rewrite Hpn in Hm. rewrite Hm. simpl. exists t'. split; [done |].
  split; [by apply Hs |].
  intros g p a Hg' Hp' Ha'. rewrite Hc. destruct (decide _) as [(-> & -> & ->)|Hn].
  - f_equal. symmetry. apply bool_decide_eq_true. split; [lia | done].
  - rewrite (Hf g p a) by done. f_equal. apply bool_decide_ext.
    destruct (decide (g = i /\ a = j)) as [[-> ->]|Hne]; lia.
Qed.

Lemma table_inner (i : nat) (n : nat) : forall (j : nat) (t : table),
  (i < length words)%nat -> (j + n = length words)%nat ->
  filled words i j t ->
  exists t', for_count n (Z.of_nat j) (table_body shift_table words (Z.of_nat i))
               (t, no_letters)
             = Done (t', no_letters)
             /\ filled words (Datatypes.S i) 0 t'.
Proof.
  induction n as [|n IH]; intros j t Hi Hj Hf.
  - exists t. split; [done |]. destruct Hf as [Hsh Hf]. split; [done |].
    intros g p a Hg Hp Ha. rewrite (Hf g p a) by done.
    f_equal. apply bool_decide_ext. lia.
  - destruct (table_body_step i j t) as (t1 & H1 & Hf1); [lia | lia | done |].
    rewrite for_count_S, H1. simpl.
    replace (Z.of_nat j + 1) with (Z.of_nat (Datatypes.S j)) by lia.
    apply IH; [done | lia | done].
Qed.

Lemma table_outer (n : nat) : forall (i : nat) (t : table),
  (i + n = length words)%nat -> filled words i 0 t ->
  exists t',
    for_count n (Z.of_nat i)
      (fun i st => for_loop 0 (Z.of_nat (length words))
                              (table_body shift_table words i) st)
      (t, no_letters)
    = Done (t', no_letters)
    /\ filled words (length words) 0 t'.
Proof.
  induction n as [|n IH]; intros i t Hi Hf.
  - exists t. split; [done |]. by replace (length words) with i by lia.
  - destruct (table_inner i (length words) 0 t) as (t1 & H1 & Hf1); [lia | lia | done |].
    rewrite for_count_S. unfold for_loop at 1. rewrite Z.sub_0_r, Nat2Z.id.
    change 0 with (Z.of_nat 0) at 1. rewrite H1. simpl.
    replace (Z.of_nat i + 1) with (Z.of_nat (Datatypes.S i)) by lia.
    apply IH; [lia | done].
Qed.

Lemma filled_initial :
  filled words 0 0
    (replicate (length words)
       (replicate (Z.to_nat kNumPatterns) (replicate (length words) false))).
Proof.
  split.
  - split; [by rewrite length_replicate |].
    apply Forall_replicate. split; [by rewrite length_replicate |].
    apply Forall_replicate. by rewrite length_replicate.
  - intros g p a Hg Hp Ha. unfold cell.
    rewrite lookup_replicate_2 by done.
    rewrite lookup_replicate_2 by (unfold kNumPatterns; lia).
    rewrite lookup_replicate_2 by done.
    f_equal. symmetry. apply bool_decide_eq_false. lia.
Qed.

(** The table [ComputeWordPatternMatches] returns on a vocabulary of
    five-letter lowercase words. *)
Lemma ComputeWordPatternMatches_filled :
  exists t, ComputeWordPatternMatches words = Done t
            /\ filled words (length words) 0 t.
Proof.
  unfold ComputeWordPatternMatches. rewrite compute_shift_eq, bind_Done_l.
  cbv beta zeta.
  destruct (table_outer (length words) 0 _ eq_refl filled_initial) as (t & H & Hf).
  exists t. split; [|done].
  unfold for_loop at 1. rewrite Z.sub_0_r, Nat2Z.id.
  change 0 with (Z.of_nat 0) at 1.
  change (replicate 26 0) with no_letters. rewrite H. reflexivity.
Qed.

End Table.

Lemma table_at_cell (t : table) (g p a : nat) (b : bool) :
  table_at t (Z.of_nat g) (Z.of_nat p) (Z.of_nat a) = Done b <-> cell t g p a = Some b.
Proof.
  unfold table_at, cell, zget. rewrite !bool_decide_true by lia. rewrite !Nat2Z.id.
  destruct (t !! g) as [rows|]; simpl; [|done].
  destruct (rows !! p) as [row|]; simpl; [|done].
  destruct (row !! a); simpl; [|done]. split; congruence.
Qed.

(** C1.  On a vocabulary of five-letter lowercase words
    [ComputeWordPatternMatches] returns a table in which, for every guess
    [g], answer [a] and pattern [p] below 243, the entry [table[g][p][a]]
    is set exactly when the encoding step gives [p] for the pair; in
    particular the answer is a member of the row of its own pattern. *)
Theorem C1_table_is_preimage_of_encode (words : list word) :
  Forall wf_word words ->
  exists t, ComputeWordPatternMatches words = Done t /\
    forall (g a : Z) (guess answer : word),
      zget words g = Done guess -> zget words a = Done answer ->
      (forall p, 0 <= p < 243 ->
         exists b, table_at t g p a = Done b /\
                   (b = true <-> encode guess answer = Done p))
      /\ (exists p, encode guess answer = Done p /\ 0 <= p < 243 /\
                    table_at t g p a = Done true).
Proof.
  intros Hwf.
  destruct (ComputeWordPatternMatches_filled words Hwf) as (t & Ht & Hf).
  exists t. split; [done |]. intros g a guess answer Hg Ha.
  apply zget_Done in Hg as [Hg0 Hg], Ha as [Ha0 Ha].
  pose proof (lookup_lt_Some _ _ _ Hg) as Lg.
  pose proof (lookup_lt_Some _ _ _ Ha) as La.
  destruct (pat_range words Hwf _ _ _ _ Hg Ha) as [Hp Hr].
  assert (encode guess answer = Done (pat words (Z.to_nat g) (Z.to_nat a))) as He.
  { rewrite Hp. apply encode_wf; eapply (Forall_lookup_1 wf_word words); eauto. }
  assert (forall p, 0 <= p < 243 ->
            table_at t g p a
            = Done (bool_decide (pat words (Z.to_nat g) (Z.to_nat a) = p))) as Hcell.
  { intros p Hp'. rewrite <- (Z2Nat.id g), <- (Z2Nat.id p), <- (Z2Nat.id a) by lia.
    apply table_at_cell. destruct Hf as [_ Hf]. rewrite Hf by lia. f_equal. rewrite !Z2Nat.id by lia.
    apply bool_decide_ext. lia. }
  split.
  - intros p Hp'. eexists. split; [by apply Hcell |].
    rewrite He, bool_decide_eq_true. split; [by intros -> | by intros [= ->]].
  - eexists. split_and!; [done | lia | lia |].
    rewrite Hcell by lia. f_equal. by apply bool_decide_eq_true.
Qed.

Lemma C1_witness :
  exists t, ComputeWordPatternMatches [w "abcde"; w "fghij"] = Done t /\
    forall (g a : Z) (guess answer : word),
      zget [w "abcde"; w "fghij"] g = Done guess ->
      zget [w "abcde"; w "fghij"] a = Done answer ->
      (forall p, 0 <= p < 243 ->
         exists b, table_at t g p a = Done b /\
                   (b = true <-> encode guess answer = Done p))
      /\ (exists p, encode guess answer = Done p /\ 0 <= p < 243 /\
                    table_at t g p a = Done true).
Proof.
  apply (C1_table_is_preimage_of_encode [w "abcde"; w "fghij"]).
  repeat constructor; vm_compute; discriminate.
Defined.

(** ** Credits of a letter *)

Lemma unmatched_count (x : ascii) (ga : list (ascii * ascii)) :
  forall cnt : Z -> Z,
  unmatched ga cnt (letter_index x) + Z.of_nat (exact_count x ga)
  = cnt (letter_index x) + Z.of_nat (occurrences x ga.*2).
Proof.
  unfold occurrences.
  induction ga as [|[g a] ga IH]; intros cnt; simpl; [lia |].
  change (list_fmap (ascii * ascii)%type ascii snd ga) with (ga.*2).
  rewrite filter_cons. destruct (Ascii.eqb_spec g a) as [->|Hne].
  - specialize (IH cnt). destruct (decide (a = x)) as [Hx|Hx].
    + rewrite decide_True by tauto. simpl length. lia.
    + rewrite decide_False by tauto. lia.
  - specialize (IH (upd cnt (letter_index a) (cnt (letter_index a) + 1))).
    unfold upd in IH at 2.
    destruct (Z.eqb_spec (letter_index x) (letter_index a)) as [He|He].
    + apply letter_index_inj in He as ->.
      rewrite decide_False by (intros [? ?]; congruence).
      rewrite decide_True by done. simpl length. lia.
    + rewrite decide_False by (intros [? ?]; congruence).
      rewrite decide_False by congruence. lia.
Qed.

Lemma credit_list_bound (x : ascii) (ga : list (ascii * ascii)) :
  forall cnt : Z -> Z,
  0 <= cnt (letter_index x) ->
  Z.of_nat (credit_list x ga (marks ga cnt))
  <= Z.of_nat (exact_count x ga) + cnt (letter_index x).
Proof.
  induction ga as [|[g a] ga IH]; intros cnt Hc; simpl; [lia |].
  destruct (Ascii.eqb_spec g a) as [->|Hne].
  - specialize (IH cnt Hc). simpl. destruct (decide (a = x)) as [Hx|Hx].
    + rewrite decide_True by (split; [done | lia]).
      rewrite decide_True by tauto. lia.
    + rewrite decide_False by tauto. rewrite decide_False by tauto. lia.
  - rewrite (decide_False (P := g = x /\ a = x)) by (intros [? ?]; congruence).
    destruct (Z.gtb_spec (cnt (letter_index g)) 0) as [Hpos|Hnpos]; simpl.
    + destruct (decide (g = x)) as [->|Hgx].
      * specialize (IH (upd cnt (letter_index x) (cnt (letter_index x) - 1))).
        unfold upd in IH at 1 3. rewrite Z.eqb_refl in IH.
        case_decide; lia.
      * specialize (IH (upd cnt (letter_index g) (cnt (letter_index g) - 1))).
        unfold upd in IH at 1 3.
        destruct (Z.eqb_spec (letter_index x) (letter_index g)) as [He|He];
          [apply letter_index_inj in He; congruence |].
        rewrite decide_False by tauto. lia.
    + specialize (IH cnt Hc). rewrite decide_False by (intros [? ?]; lia). lia.
Qed.

Lemma unmatched_ge (ga : list (ascii * ascii)) : forall (cnt : Z -> Z) (k : Z),
  cnt k <= unmatched ga cnt k.
Proof.
  induction ga as [|[g a] ga IH]; intros cnt k; simpl; [lia |].
  destruct (Ascii.eqb g a); [apply IH |].
  etransitivity; [|apply IH]. unfold upd. destruct (k =? letter_index a) eqn:E; [|lia].
  apply Z.eqb_eq in E as ->. lia.
Qed.

Lemma credits_credit_list (x : ascii) (guess answer : word) (ms : list Z) :
  length guess = 5%nat -> length answer = 5%nat -> length ms = 5%nat ->
  Forall (fun d => 0 <= d <= 2) ms ->
  credits x guess (digits_value ms) = credit_list x (zip guess answer) ms.
Proof.
  intros Hg Ha Hm Hr. unfold credits.
  assert (forall n k : nat, (k + n = 5)%nat ->
            length (filter (fun c : nat => guess !! c = Some x /\
                              pattern_digit (digits_value ms) (Z.of_nat c) <> 0)
                           (seq k n))
            = credit_list x (drop k (zip guess answer)) (drop k ms)) as H.
  { induction n as [|n IH]; intros k Hk.
    - rewrite !drop_ge by (rewrite ?length_zip_with; lia). done.
    - destruct (lookup_lt_is_Some_2 guess k) as [g Hgk]; [lia |].
      destruct (lookup_lt_is_Some_2 answer k) as [a Hak]; [lia |].
      destruct (lookup_lt_is_Some_2 ms k) as [m Hmk]; [lia |].
      rewrite (drop_S (zip guess answer) (g, a) k)
        by (rewrite lookup_zip_with, Hgk; simpl; by rewrite Hak).
      rewrite (drop_S ms m k) by done.
      simpl seq. rewrite filter_cons. simpl credit_list.
      rewrite (pattern_digit_value ms k m Hr Hmk), Hgk.
      rewrite <- IH by lia.
      destruct (decide (g = x /\ m <> 0)) as [Hd|Hd].
      + rewrite decide_True by (destruct Hd; split; congruence). done.
      + rewrite decide_False by (intros [[= ?] ?]; tauto). done. }
  rewrite (H 5%nat 0%nat eq_refl). by rewrite !drop_0.
Qed.

(** The credits a letter gets never exceed its occurrences in the answer. *)
Lemma credits_le_occurrences (x : ascii) (guess answer : word) :
  length guess = 5%nat -> length answer = 5%nat ->
  (credits x guess (digits_value (feedback guess answer)) <= occurrences x answer)%nat.
Proof.
  intros Hg Ha. unfold feedback.
  rewrite (credits_credit_list x guess answer)
    by (rewrite ?marks_length, ?length_zip_with; try lia; apply marks_range).
  pose proof (unmatched_count x (zip guess answer) (fun _ => 0)) as H1.
  pose proof (unmatched_ge (zip guess answer) (fun _ => 0) (letter_index x)) as H2.
  pose proof (credit_list_bound x (zip guess answer)
                (unmatched (zip guess answer) (fun _ => 0)) H2) as H3.
  rewrite snd_zip in H1 by lia. lia.
Qed.

(** C2.  When the answer holds a letter once and the guess repeats it, the
    pattern the encoding step computes gives that letter at most one credit
    (a digit other than 0) over the five positions; the pattern is the one
    of the two passes: exact matches first, then present-elsewhere from left
    to right while the letter's counter is positive. *)
Theorem C2_repeated_letter_single_credit (guess answer : word) (x : ascii) :
  wf_word guess -> wf_word answer ->
  (2 <= occurrences x guess)%nat -> occurrences x answer = 1%nat ->
  exists p, encode_step shift_table no_letters guess answer = Done (p, no_letters)
            /\ p = digits_value (feedback guess answer)
            /\ (credits x guess p <= 1)%nat.
Proof.
  intros Hg Ha _ Hocc. exists (digits_value (feedback guess answer)).
  split; [by apply encode_step_wf |]. split; [done |].
  rewrite <- Hocc. apply credits_le_occurrences; [apply Hg | apply Ha].
Qed.

Lemma C2_witness :
  exists p, encode_step shift_table no_letters (w "speed") (w "abide")
            = Done (p, no_letters)
            /\ p = digits_value (feedback (w "speed") (w "abide"))
            /\ (credits "e" (w "speed") p <= 1)%nat.
Proof.
  apply (C2_repeated_letter_single_credit (w "speed") (w "abide") "e").
  - split; [reflexivity |]. repeat constructor; vm_compute; discriminate.
  - split; [reflexivity |]. repeat constructor; vm_compute; discriminate.
  - vm_compute. lia.
  - reflexivity.
Defined.

(** ** [ToPatternInt] *)

Lemma ToPatternInt_loop (pattern : word) (n : nat) :
  forall (c : nat) (result shift : Z),
  (c + n = length pattern)%nat ->
  for_count n (Z.of_nat c) (ToPatternInt_body pattern) (result, shift)
  = if forallb in_alphabet (drop c pattern)
    then Done (result + shift * digits_value (symbol_digit <$> drop c pattern),
               shift * 3 ^ Z.of_nat n)
    else Fault AssertFailed.
Proof.
  induction n as [|n IH]; intros c result shift Hc.
  - rewrite drop_ge by lia. simpl. unfold for_count. do 2 f_equal; lia.
  - destruct (lookup_lt_is_Some_2 pattern c) as [ch Hch]; [lia |].
    rewrite (drop_S pattern ch c Hch). rewrite for_count_S.
    unfold ToPatternInt_body at 1. rewrite (str_at_nat _ _ _ Hch). simpl bind.
    replace (Z.of_nat c + 1) with (Z.of_nat (Datatypes.S c)) by lia.
    simpl forallb. rewrite fmap_cons. simpl digits_value.
    unfold in_alphabet at 1, symbol_digit at 1.
    destruct (Ascii.eqb ch "g") eqn:Eg; simpl.
    { rewrite IH by lia. destruct (forallb _ _); [|done].
      rewrite Nat2Z.inj_succ, Z.pow_succ_r by lia. do 2 f_equal; lia. }
    destruct (Ascii.eqb ch "y") eqn:Ey; simpl.
    { rewrite IH by lia. destruct (forallb _ _); [|done].
      rewrite Nat2Z.inj_succ, Z.pow_succ_r by lia. do 2 f_equal; lia. }
    destruct (Ascii.eqb ch "_") eqn:Eu; simpl; [|done].
    rewrite IH by lia. destruct (forallb _ _); [|done].
    rewrite Nat2Z.inj_succ, Z.pow_succ_r by lia. do 2 f_equal; lia.
Qed.

Lemma ToPatternInt_spec (pattern : word) :
  ToPatternInt pattern
  = if (length pattern =? 5)%nat && forallb in_alphabet pattern
    then Done (digits_value (symbol_digit <$> pattern))
    else Fault AssertFailed.
Proof.
  unfold ToPatternInt, for_loop. rewrite Z.sub_0_r, Nat2Z.id.
  destruct (Nat.eqb_spec (length pattern) 5) as [H5|H5].
  - rewrite H5. simpl assert. rewrite bind_Done_l.
    change 0 with (Z.of_nat 0) at 1.
    rewrite ToPatternInt_loop by (rewrite H5; reflexivity).
    rewrite drop_0. simpl andb. destruct (forallb _ _); [|done].
    rewrite bind_Done_l. f_equal. lia.
  - destruct (Z.eqb_spec (Z.of_nat (length pattern)) 5); [lia | done].
Qed.

(** C8.  [ToPatternInt] on a string of five characters among [_], [y], [g]
    returns the sum over the positions [i] of [3^i] times the digit of the
    character (0, 1, 2); it is the number the encoding step computes for a
    pair of words whose feedback digits the string spells; on a string of
    another length or with another character, it stops on a failed
    assertion. *)
Theorem C8_ToPatternInt_decodes (pattern : word) :
  (length pattern = 5%nat /\ forallb in_alphabet pattern = true ->
     ToPatternInt pattern = Done (wsum 0 (symbol_digit <$> pattern)))
  /\ (forall guess answer : word,
        wf_word guess -> wf_word answer ->
        forallb in_alphabet pattern = true ->
        symbol_digit <$> pattern = feedback guess answer ->
        ToPatternInt pattern = encode guess answer)
  /\ (length pattern <> 5%nat \/ forallb in_alphabet pattern = false ->
        ToPatternInt pattern = Fault AssertFailed).
Proof.
  rewrite ToPatternInt_spec. split_and!.
  - intros [-> ->]. simpl. rewrite wsum_digits_value.
    change (3 ^ Z.of_nat 0) with 1. f_equal. lia.
  - intros guess answer Hg Ha Hal Hd. rewrite encode_wf by done. rewrite <- Hd.
    assert (length pattern = 5%nat) as ->.
    { rewrite <- (length_fmap symbol_digit), Hd. unfold feedback.
      rewrite marks_length, length_zip_with.
      destruct Hg as [-> _], Ha as [-> _]. reflexivity. }
    by rewrite Hal.
  - intros [H|H].
    + destruct (Nat.eqb_spec (length pattern) 5); [done | reflexivity].
    + rewrite H, andb_false_r. reflexivity.
Qed.

Lemma C8_witness :
  ToPatternInt (w "__g_g") = Done (wsum 0 (symbol_digit <$> w "__g_g"))
  /\ ToPatternInt (w "_yggg") = encode (w "abcde") (w "bxcde")
  /\ ToPatternInt (w "__g_x") = Fault AssertFailed
  /\ ToPatternInt (w "__g_") = Fault AssertFailed.
Proof.
  split_and!.
  - apply (C8_ToPatternInt_decodes (w "__g_g")). split; reflexivity.
  - apply (C8_ToPatternInt_decodes (w "_yggg")).
    + split; [reflexivity |]. repeat constructor; vm_compute; discriminate.
    + split; [reflexivity |]. repeat constructor; vm_compute; discriminate.
    + reflexivity.
    + reflexivity.
  - apply (C8_ToPatternInt_decodes (w "__g_x")). right. reflexivity.
  - apply (C8_ToPatternInt_decodes (w "__g_")). left. discriminate.
Defined.

(** ** The ranges of the workers *)

Lemma range_start_eq (num_words thread : Z) :
  0 <= num_words < 2 ^ 31 -> 0 <= thread <= 24 ->
  range_start num_words thread = num_words * thread / 24.
Proof.
  intros HV Ht. unfold range_start, size_t_mul, to_int, kNumThreads.
  assert (0 <= num_words * thread <= 24 * num_words) by nia.
  rewrite (Z.mod_small (num_words * thread)) by lia.
  assert (0 <= num_words * thread / 24 <= num_words).
  { split; [apply Z.div_pos; lia |]. apply Z.div_le_upper_bound; lia. }
  rewrite Z.mod_small by lia. lia.
Qed.

Lemma range_end_eq (num_words thread : Z) :
  0 <= num_words < 2 ^ 31 -> 0 <= thread < 24 ->
  range_end num_words thread = num_words * (thread + 1) / 24.
Proof.
  intros HV Ht. rewrite <- range_start_eq by lia. reflexivity.
Qed.

Lemma C6_counterexample : ~ ranges_ceil_sized 2315.
Proof.
  intros H. destruct (H 0) as [H0|[H0 _]]; [done | |]; vm_compute in H0; discriminate.
Qed.

(** C6, amended.  For a vocabulary of [V] words ([V] below [2^31]) the 24
    ranges [start, end) of [main] are contiguous and in order: the first
    starts at 0, each starts where the one before ends, the last ends at
    [V]; so every index of [0, V) lies in exactly one of them.  A range
    holds [floor(V / 24)] or [ceil(V / 24)] indices, never more than
    [ceil(V / 24)]. *)
Theorem C6_ranges_partition (num_words : Z) :
  0 <= num_words < 2 ^ 31 ->
  range_start num_words 0 = 0
  /\ range_end num_words (kNumThreads - 1) = num_words
  /\ (forall thread, 0 <= thread < kNumThreads - 1 ->
        range_start num_words (thread + 1) = range_end num_words thread)
  /\ (forall thread, 0 <= thread < kNumThreads ->
        num_words / kNumThreads <= range_size num_words thread
        <= ceil_range_size num_words)
  /\ (forall i, 0 <= i < num_words ->
        exists thread, 0 <= thread < kNumThreads /\
          range_start num_words thread <= i < range_end num_words thread /\
          forall thread', 0 <= thread' < kNumThreads ->
            range_start num_words thread' <= i < range_end num_words thread' ->
            thread' = thread).
Proof.
  intros HV. unfold range_size, ceil_range_size, kNumThreads. split_and!.
  - rewrite range_start_eq by lia. rewrite Z.mul_0_r. reflexivity.
  - rewrite range_end_eq by lia. change (24 - 1 + 1) with 24.
    apply Z.div_mul. lia.
  - intros t Ht. rewrite range_start_eq, range_end_eq by lia. reflexivity.
  - intros t Ht. rewrite range_start_eq, range_end_eq by lia.
    Z.div_mod_to_equations. nia.
  - intros i Hi. exists ((24 * (i + 1) - 1) / num_words).
    assert (0 <= (24 * (i + 1) - 1) / num_words < 24) as Ht.
    { split; [apply Z.div_pos; lia |]. apply Z.div_lt_upper_bound; lia. }
    split; [exact Ht |]. split.
    + rewrite range_start_eq, range_end_eq by lia.
      Z.div_mod_to_equations. nia.
    + intros t' Ht' Hin. rewrite range_start_eq, range_end_eq in Hin by lia.
      Z.div_mod_to_equations. nia.
Qed.

Lemma C6_witness :
  range_start 2315 0 = 0
  /\ range_end 2315 (kNumThreads - 1) = 2315
  /\ (forall thread, 0 <= thread < kNumThreads - 1 ->
        range_start 2315 (thread + 1) = range_end 2315 thread)
  /\ (forall thread, 0 <= thread < kNumThreads ->
        2315 / kNumThreads <= range_size 2315 thread <= ceil_range_size 2315)
  /\ (forall i, 0 <= i < 2315 ->
        exists thread, 0 <= thread < kNumThreads /\
          range_start 2315 thread <= i < range_end 2315 thread /\
          forall thread', 0 <= thread' < kNumThreads ->
            range_start 2315 thread' <= i < range_end 2315 thread' ->
            thread' = thread).
Proof. apply (C6_ranges_partition 2315). lia. Defined.

(** ** The partition loops *)

Lemma kept_cons (pattern : list bool) (word : Z) (ws : list Z) :
  kept pattern (word :: ws)
  = if keeps pattern word then word :: kept pattern ws else kept pattern ws.
Proof.
  unfold kept. rewrite filter_cons.
  destruct (keeps pattern word); [by rewrite decide_True | by rewrite decide_False].
Qed.

Section PartitionLoop.
Variable rd : Z -> list (list Z) -> outcome Z.
Variable dst : nat.
Variable pattern : list bool.
Variable ws : list Z.
Variable s0 : list (list Z).
Hypothesis dst_lt : (dst < length s0)%nat.
Hypothesis rd_ws : forall (i : nat) (b : list Z),
  (i < length ws)%nat ->
  rd (Z.of_nat i) (<[dst := b]> s0) = zget ws (Z.of_nat i).

Lemma partition_body_loop (m : nat) : forall (i k : nat) (b : list Z),
  (i + m <= length ws)%nat -> (k <= length b)%nat ->
  for_count m (Z.of_nat i) (partition_body rd (Z.of_nat dst) pattern)
    (Z.of_nat k, <[dst := b]> s0)
  = if decide (Forall (in_row pattern) (take m (drop i ws))
               /\ (k + length (kept pattern (take m (drop i ws))) <= length b)%nat)
    then Done (Z.of_nat (k + length (kept pattern (take m (drop i ws)))),
               <[dst := take k b ++ kept pattern (take m (drop i ws))
                        ++ drop (k + length (kept pattern (take m (drop i ws)))) b]> s0)
    else Fault OutOfBounds.
Proof.
  induction m as [|m IH]; intros i k b Hi Hk.
  - rewrite take_0. unfold kept. rewrite filter_nil. simpl length.
    rewrite decide_True by (split; [constructor | lia]).
    rewrite !Nat.add_0_r. simpl app. by rewrite take_drop.
  - rewrite for_count_S. unfold partition_body at 1. rewrite rd_ws by lia.
    destruct (lookup_lt_is_Some_2 ws i) as [word Hw]; [lia |].
    rewrite (zget_nat _ _ _ Hw), bind_Done_l.
    rewrite (drop_S ws word i Hw). rewrite firstn_cons, kept_cons.
    unfold keeps. destruct (decide (in_row pattern word)) as [Hin|Hin].
    2:{ rewrite (zget_out_of_range pattern word Hin). simpl.
        rewrite decide_False; [done |]. intros (HF & _).
        by inversion HF; subst. }
    destruct (zget_in_range pattern word Hin) as [val Hv]. rewrite Hv, bind_Done_l.
    replace (Z.of_nat i + 1) with (Z.of_nat (Datatypes.S i)) by lia.
    destruct val.
    + unfold zget at 1. rewrite bool_decide_true by lia.
      rewrite Nat2Z.id, list_lookup_insert_eq by done. rewrite bind_Done_l.
      destruct (decide (k < length b)%nat) as [Hkb|Hkb].
      * rewrite zset_nat by done. rewrite bind_Done_l.
        rewrite zset_nat by (by rewrite length_insert). rewrite bind_Done_l.
        rewrite list_insert_insert_eq.
        replace (Z.of_nat k + 1) with (Z.of_nat (Datatypes.S k)) by lia.
        rewrite bind_Done_l, IH by (rewrite ?length_insert; lia).
        rewrite length_insert. simpl length.
        destruct (decide (Forall (in_row pattern) (take m (drop (Datatypes.S i) ws)) /\ _))
          as [Hd|Hd].
        -- rewrite decide_True.
           2:{ destruct Hd as (? & ?). split; [by constructor | lia]. }
           f_equal. f_equal; [f_equal; lia |]. f_equal.
           rewrite (take_S_r _ _ word)
             by (rewrite list_lookup_insert_eq; [done | lia]).
           rewrite take_insert_ge by lia.
           rewrite drop_insert_lt by lia.
           rewrite <- app_assoc. simpl. do 4 f_equal. lia.
        -- rewrite decide_False; [done |]. intros (HF & ?). apply Hd.
           inversion HF; subst. split; [done | lia].
      * rewrite decide_False by (intros (_ & ?); simpl in *; lia).
        unfold zset. rewrite bool_decide_false by lia. reflexivity.
    + rewrite bind_Done_l, IH by lia.
      destruct (decide (Forall (in_row pattern) (take m (drop (Datatypes.S i) ws)) /\ _))
        as [Hd|Hd].
      * rewrite decide_True; [done |].
        destruct Hd as (? & ?). split; [by constructor | lia].
      * rewrite decide_False; [done |]. intros (HF & ?). apply Hd.
        inversion HF; subst. split; [done | lia].
Qed.

Lemma partition_body_result (n : Z) (buf : list Z) :
  s0 !! dst = Some buf ->
  n <= Z.of_nat (length ws)
  \/ (forall b : list Z,
        rd (Z.of_nat (length ws)) (<[dst := b]> s0) = Fault OutOfBounds) ->
  for_loop 0 n (partition_body rd (Z.of_nat dst) pattern) (0, s0)
  = partition_result pattern ws n dst buf s0.
Proof.
  intros Hbuf Hover. unfold for_loop, partition_result. rewrite Z.sub_0_r.
  destruct (decide (n <= Z.of_nat (length ws))) as [Hn|Hn].
  - pose proof (partition_body_loop (Z.to_nat n) 0 0 buf ltac:(lia) ltac:(lia)) as H.
    rewrite list_insert_id in H by done. change (Z.of_nat 0) with 0 in H.
    rewrite H. rewrite drop_0, take_0. simpl.
    destruct (decide (Forall (in_row pattern) (take (Z.to_nat n) ws) /\ _)) as [Hd|Hd].
    + rewrite decide_True; [done |]. destruct Hd as (? & ?). by split_and!.
    + rewrite decide_False; [done |]. intros (? & ? & ?). by apply Hd.
  - destruct Hover as [?|Hover]; [lia |].
    rewrite decide_False by lia.
    replace (Z.to_nat n) with (length ws + (Z.to_nat n - length ws))%nat by lia.
    rewrite for_count_app.
    pose proof (partition_body_loop (length ws) 0 0 buf ltac:(lia) ltac:(lia)) as H.
    rewrite list_insert_id in H by done. change (Z.of_nat 0) with 0 in H.
    rewrite H. destruct (decide _) as [Hd|Hd]; [|done]. rewrite bind_Done_l.
    destruct (Z.to_nat n - length ws)%nat as [|m] eqn:Hm; [lia |].
    rewrite for_count_S. unfold partition_body at 1. rewrite !Z.add_0_l.
    rewrite Hover. reflexivity.
Qed.

End PartitionLoop.

Lemma for_count_ext {S : Type} (body1 body2 : Z -> S -> outcome S) (n : nat) :
  (forall i s, body1 i s = body2 i s) ->
  forall (i : Z) (s : S), for_count n i body1 s = for_count n i body2 s.
Proof.
  intros Hext. induction n as [|n IH]; intros i s; [done |].
  rewrite !for_count_S, Hext. destruct (body2 i s); simpl; [apply IH | done].
Qed.

(** The loop of [Recurse] over the working set. *)
Lemma partition_words_left_spec (pattern : list bool) (num_guesses n : Z)
    (s : list (list Z)) (prev buf : list Z) :
  zget s (num_guesses - 1) = Done prev -> zget s num_guesses = Done buf ->
  partition_words_left pattern num_guesses n s
  = partition_result pattern prev n (Z.to_nat num_guesses) buf s.
Proof.
  intros [Hp0 Hprev]%zget_Done [Hb0 Hbuf]%zget_Done.
  unfold partition_words_left, for_loop.
  rewrite (for_count_ext _
             (partition_body (fun i s => let* words_left := zget s (num_guesses - 1) in
                                         zget words_left i)
                             (Z.of_nat (Z.to_nat num_guesses)) pattern)).
  2:{ intros i [k s']. unfold partition_body. rewrite Z2Nat.id by lia.
      destruct (zget s' (num_guesses - 1)); reflexivity. }
  apply (partition_body_result _ (Z.to_nat num_guesses) pattern prev s).
  - by apply lookup_lt_Some in Hbuf.
  - intros i b Hi. unfold zget at 1. rewrite bool_decide_true by lia.
    rewrite list_lookup_insert_ne by lia. rewrite Hprev. reflexivity.
  - done.
  - right. intros b. unfold zget at 1. rewrite bool_decide_true by lia.
    rewrite list_lookup_insert_ne by lia. rewrite Hprev. simpl.
    apply zget_out_of_range. lia.
Qed.

(** The loop of [Thread] over the whole vocabulary. *)
Lemma partition_all_spec (pattern : list bool) (num_words : Z)
    (s : list (list Z)) (buf : list Z) :
  zget s 0 = Done buf ->
  partition_all pattern num_words s
  = partition_result pattern (seqZ 0 num_words) num_words 0 buf s.
Proof.
  intros [_ Hbuf]%zget_Done. simpl in Hbuf.
  unfold partition_all, for_loop.
  rewrite (for_count_ext _ (partition_body (fun i _ => Done i) (Z.of_nat 0) pattern)).
  2:{ intros i [k s']. reflexivity. }
  apply (partition_body_result _ 0 pattern (seqZ 0 num_words) s).
  - by apply lookup_lt_Some in Hbuf.
  - intros i b Hi. rewrite length_seqZ in Hi. symmetry. apply zget_nat.
    rewrite lookup_seqZ. split; lia.
  - done.
  - left. rewrite length_seqZ. lia.
Qed.

(** ** [TrimWordPatternMatches] *)

Lemma num_matches_fold (pattern : list bool) : forall n : Z,
  n <= fold_left (fun n (val : bool) => if val then n + 1 else n) pattern n
  /\ (n < fold_left (fun n (val : bool) => if val then n + 1 else n) pattern n
      <-> true ∈ pattern).
Proof.
  induction pattern as [|val pattern IH]; intros n; simpl.
  - split; [lia |]. split; [lia | by intros ?%elem_of_nil].
  - destruct val.
    + destruct (IH (n + 1)) as [H1 H2]. split; [lia |].
      split; [intros _; by left | lia].
    + destruct (IH n) as [H1 H2]. split; [done |]. rewrite H2.
      split; [by right | by intros [?|?]%elem_of_cons].
Qed.

Lemma num_matches_pos (pattern : list bool) :
  (num_matches pattern >? 0) = bool_decide (true ∈ pattern).
Proof.
  destruct (num_matches_fold pattern 0) as [_ H]. unfold num_matches.
  destruct (Z.gtb_spec (fold_left (fun n (val : bool) => if val then n + 1 else n)
                                  pattern 0) 0) as [Hp|Hp].
  - symmetry. apply bool_decide_eq_true. apply H. lia.
  - symmetry. apply bool_decide_eq_false. rewrite <- H. lia.
Qed.

Lemma trim_rows_filter (rows : list (list bool)) :
  trim_rows rows = filter (fun pattern => true ∈ pattern) rows.
Proof.
  unfold trim_rows.
  assert (forall kept : list (list bool),
            fold_left (fun kept pattern =>
                         if num_matches pattern >? 0 then kept ++ [pattern] else kept)
                      rows kept
            = kept ++ filter (fun pattern => true ∈ pattern) rows) as H.
  { induction rows as [|row rows IH]; intros kept; simpl.
    - by rewrite filter_nil, app_nil_r.
    - rewrite IH, filter_cons, num_matches_pos.
      destruct (decide (true ∈ row)) as [Hr|Hr].
      + rewrite bool_decide_true by done. by rewrite <- app_assoc.
      + by rewrite bool_decide_false. }
  by rewrite H.
Qed.

Lemma trim_lookup (t : table) (g : Z) :
  zget (TrimWordPatternMatches t) g
  = let* rows := zget t g in Done (trim_rows rows).
Proof.
  unfold TrimWordPatternMatches, zget. case_bool_decide; [|done].
  rewrite list_lookup_fmap. destruct (t !! Z.to_nat g); reflexivity.
Qed.

Lemma keeps_true (pattern : list bool) (word : Z) :
  keeps pattern word = true <-> 0 <= word /\ pattern !! Z.to_nat word = Some true.
Proof.
  unfold keeps. destruct (zget pattern word) as [[|]|] eqn:E.
  - apply zget_Done in E. tauto.
  - apply zget_Done in E as [? E]. split; [done |]. intros [_ ?]. congruence.
  - split; [done |]. intros [? H]. assert (zget pattern word = Done true) as E'
      by (by apply zget_Done). congruence.
Qed.

(** ** Terminal cases of [Recurse] *)

(** C3.  [Recurse] returns no value when [num_guesses] equals
    [max_num_guesses], whatever the number of words left; otherwise, with
    one word left, it returns 1.  The first test has priority: with one
    word left and the budget used up the result is no value. *)
Theorem C3_Recurse_terminal_cases `{ops : FloatOps}
    (num_guesses max_num_guesses num_words_left : Z)
    (all_words_left : list (list Z)) (word_pattern_matches : table) :
  (num_guesses = max_num_guesses ->
     Recurse num_guesses max_num_guesses all_words_left num_words_left
             word_pattern_matches
     = Done (None, all_words_left))
  /\ (num_guesses <> max_num_guesses -> num_words_left = 1 ->
        Recurse num_guesses max_num_guesses all_words_left num_words_left
                word_pattern_matches
        = Done (Some (of_int 1), all_words_left))
  /\ (num_guesses = max_num_guesses ->
        Recurse num_guesses max_num_guesses all_words_left 1 word_pattern_matches
        = Done (None, all_words_left)).
Proof.
  unfold Recurse. split_and!.
  - intros ->. destruct (length all_words_left); simpl; by rewrite Z.eqb_refl.
  - intros Hne ->. apply Z.eqb_neq in Hne.
    destruct (length all_words_left); simpl; by rewrite Hne.
  - intros ->. destruct (length all_words_left); simpl; by rewrite Z.eqb_refl.
Qed.

Lemma C3_witness :
  (@Recurse binary32 6 6 [[0; 1]; [0; 0]] 2 [] = Done (None, [[0; 1]; [0; 0]]))
  /\ (@Recurse binary32 1 6 [[7]; [0]] 1 []
      = Done (Some (S754_finite false 8388608 (-23)), [[7]; [0]]))
  /\ (@Recurse binary32 6 6 [[7]; [0]] 1 [] = Done (None, [[7]; [0]])).
Proof.
  split_and!.
  - apply (@C3_Recurse_terminal_cases binary32 6 6 2 [[0; 1]; [0; 0]] []). reflexivity.
  - apply (@C3_Recurse_terminal_cases binary32 1 6 1 [[7]; [0]] []); [lia | reflexivity].
  - apply (@C3_Recurse_terminal_cases binary32 6 6 0 [[7]; [0]] []). reflexivity.
Defined.

(** ** Rows of the table *)

Section Rows.
Variable words : list word.
Variable t : table.
Hypothesis words_wf : Forall wf_word words.
Hypothesis t_filled : filled words (length words) 0 t.

Lemma table_row (g : Z) (rows : list (list bool)) (row : list bool) :
  zget t g = Done rows -> row ∈ rows ->
  exists p : nat, (p < 243)%nat /\ rows !! p = Some row /\ length row = length words
    /\ forall a : nat, (a < length words)%nat ->
         row !! a = Some (bool_decide (pat words (Z.to_nat g) a = Z.of_nat p)).
Proof.
  intros [Hg0 Hg]%zget_Done [p Hp]%list_elem_of_lookup.
  destruct t_filled as [[Hlen Hall] Hf].
  destruct (Forall_lookup_1 _ _ _ _ Hall Hg) as [Hl Hr].
  pose proof (lookup_lt_Some _ _ _ Hp) as Lp.
  pose proof (lookup_lt_Some _ _ _ Hg) as Lg.
  exists p. split_and!; [lia | done | apply (Forall_lookup_1 _ _ _ _ Hr Hp) |].
  intros a Ha. specialize (Hf (Z.to_nat g) p a ltac:(lia) ltac:(lia) Ha).
  unfold cell in Hf. rewrite Hg, Hp in Hf. rewrite Hf. f_equal.
  apply bool_decide_ext. lia.
Qed.

Lemma row_keeps (g : Z) (rows : list (list bool)) (row : list bool) (a : Z) :
  zget t g = Done rows -> row ∈ rows -> keeps row a = true ->
  0 <= a < Z.of_nat (length words)
  /\ exists p : nat, rows !! p = Some row /\ pat words (Z.to_nat g) (Z.to_nat a) = Z.of_nat p.
Proof.
  intros Hg Hrow [Ha0 Ha]%keeps_true.
  destruct (table_row g rows row Hg Hrow) as (p & Hp & Hrp & Hlen & Hcells).
  pose proof (lookup_lt_Some _ _ _ Ha) as La. rewrite Hlen in La.
  split; [lia |]. exists p. split; [done |].
  rewrite (Hcells (Z.to_nat a) La) in Ha.
  injection Ha as Ha. by apply bool_decide_eq_true in Ha.
Qed.

Lemma pat_self (g : nat) : (g < length words)%nat -> pat words g g = 242.
Proof.
  intros Hg. destruct (lookup_lt_is_Some_2 words g Hg) as [wd Hwd].
  unfold pat. rewrite Hwd.
  destruct (Forall_lookup_1 _ _ _ _ words_wf Hwd) as [Hl _].
  by apply feedback_all_exact.
Qed.

Lemma pat_all_exact (g a : nat) :
  NoDup words -> (g < length words)%nat -> (a < length words)%nat ->
  pat words g a = 242 -> a = g.
Proof.
  intros Hnd Hg Ha H.
  destruct (lookup_lt_is_Some_2 words g Hg) as [wg Hwg].
  destruct (lookup_lt_is_Some_2 words a Ha) as [wa Hwa].
  unfold pat in H. rewrite Hwg, Hwa in H.
  destruct (Forall_lookup_1 _ _ _ _ words_wf Hwg) as [Hlg _].
  destruct (Forall_lookup_1 _ _ _ _ words_wf Hwa) as [Hla _].
  apply feedback_all_exact in H; [|done..]. subst wa.
  eapply NoDup_lookup; eauto.
Qed.

(** A row that keeps its own guess keeps nothing else. *)
Lemma row_keeps_self (g : Z) (rows : list (list bool)) (row : list bool) :
  NoDup words -> zget t g = Done rows -> row ∈ rows ->
  keeps row g = true -> forall a, keeps row a = true -> a = g.
Proof.
  intros Hnd Hg Hrow Hself a Ha.
  destruct (row_keeps g rows row g Hg Hrow Hself) as (Hgr & p & Hp & Hpat).
  destruct (row_keeps g rows row a Hg Hrow Ha) as (Har & p' & Hp' & Hpat').
  destruct (table_row g rows row Hg Hrow) as (q & Hq & Hrq & Hlen & Hcells).
  pose proof (Hcells (Z.to_nat g) ltac:(lia)) as Cg.
  pose proof (Hcells (Z.to_nat a) ltac:(lia)) as Ca.
  apply keeps_true in Hself as [_ Hself], Ha as [_ Ha].
  rewrite Hself in Cg. rewrite Ha in Ca.
  injection Cg as Cg. injection Ca as Ca.
  symmetry in Cg, Ca. apply bool_decide_eq_true in Cg, Ca.
  rewrite pat_self in Cg by lia.
  assert (Z.to_nat a = Z.to_nat g) by (apply pat_all_exact; [done | lia | lia | lia]).
  lia.
Qed.

(** Each word has the row of its all-exact pattern, which keeps it. *)
Lemma row_of_self (g : Z) :
  0 <= g < Z.of_nat (length words) ->
  exists rows row, zget t g = Done rows /\ row ∈ rows /\ keeps row g = true.
Proof.
  intros Hg. destruct t_filled as [[Hlen Hall] Hf].
  specialize (Hf (Z.to_nat g) 242%nat (Z.to_nat g) ltac:(lia) ltac:(lia) ltac:(lia)).
  unfold cell in Hf.
  destruct (t !! Z.to_nat g) as [rows|] eqn:Hrows; [|done].
  destruct (rows !! 242%nat) as [row|] eqn:Hrow; [|done].
  exists rows, row. split_and!.
  - apply zget_Done. split; [lia | done].
  - eapply list_elem_of_lookup_2; eauto.
  - apply keeps_true. split; [lia |]. rewrite Hf. f_equal.
    apply bool_decide_eq_true. split; [lia |]. rewrite pat_self by lia. reflexivity.
Qed.

End Rows.

Lemma Compute_filled (words : list word) (t : table) :
  Forall wf_word words -> ComputeWordPatternMatches words = Done t ->
  filled words (length words) 0 t.
Proof.
  intros Hwf Ht. destruct (ComputeWordPatternMatches_filled words Hwf) as (t' & Ht' & Hf).
  congruence.
Qed.

Lemma trimmed_row (t : table) (g : Z) (rows : list (list bool)) (row : list bool) :
  zget (TrimWordPatternMatches t) g = Done rows -> row ∈ rows ->
  exists rows0, zget t g = Done rows0 /\ row ∈ rows0 /\
                exists a, keeps row a = true.
Proof.
  rewrite trim_lookup. intros (rows0 & Hr & [= <-])%bind_Done.
  rewrite trim_rows_filter. intros [Htrue Hin]%list_elem_of_filter.
  exists rows0. split_and!; [done | done |].
  apply list_elem_of_lookup in Htrue as [a Ha]. exists (Z.of_nat a).
  apply keeps_true. rewrite Nat2Z.id. split; [lia | done].
Qed.

(** ** The subset a partition writes *)

Lemma partition_result_Done (pattern : list bool) (ws : list Z) (n : Z)
    (dst : nat) (buf : list Z) (s s1 : list (list Z)) (k : Z) :
  s !! dst = Some buf ->
  partition_result pattern ws n dst buf s = Done (k, s1) ->
  k = Z.of_nat (length (kept pattern (take (Z.to_nat n) ws)))
  /\ (length (kept pattern (take (Z.to_nat n) ws)) <= length buf)%nat
  /\ s1 = <[dst := kept pattern (take (Z.to_nat n) ws)
                   ++ drop (length (kept pattern (take (Z.to_nat n) ws))) buf]> s
  /\ exists nwl, s1 !! dst = Some nwl
                 /\ take (Z.to_nat k) nwl = kept pattern (take (Z.to_nat n) ws)
                 /\ length nwl = length buf.
Proof.
  intros Hbuf. unfold partition_result.
  destruct (decide _) as [(Hn & HF & Hlen)|]; [|done]. intros [= <- <-].
  split_and!; [done | done | done |]. eexists. split_and!.
  - apply list_lookup_insert_eq. by apply lookup_lt_Some in Hbuf.
  - rewrite Nat2Z.id. by rewrite take_app_length.
  - rewrite length_app, length_drop. lia.
Qed.

Lemma kept_keeps (pattern : list bool) (ws : list Z) (a : Z) :
  a ∈ kept pattern ws <-> keeps pattern a = true /\ a ∈ ws.
Proof. unfold kept. by rewrite list_elem_of_filter. Qed.



Lemma two_words_wf : Forall wf_word two_words.
Proof. repeat constructor; vm_compute; discriminate. Qed.

Lemma two_words_NoDup : NoDup two_words.
Proof.
  apply NoDup_cons. split; [|apply NoDup_singleton].
  intros H%list_elem_of_singleton. discriminate.
Qed.

Lemma two_words_table_eq : ComputeWordPatternMatches two_words = Done two_words_table.
Proof. vm_compute. reflexivity. Qed.


(** ** Loops and invariants *)

Lemma for_count_inv {S : Type} (P : S -> Prop) (body : Z -> S -> outcome S) (n : nat) :
  (forall i s s', P s -> body i s = Done s' -> P s') ->
  forall (i : Z) (s s' : S), P s -> for_count n i body s = Done s' -> P s'.
Proof.
  intros Hbody. induction n as [|n IH]; intros i s s' Hs H.
  - by injection H as <-.
  - rewrite for_count_S in H. apply bind_Done in H as (s1 & H1 & H2).
    eapply IH; [|exact H2]. eapply Hbody; eauto.
Qed.

Lemma for_count_ext_inv {S : Type} (P : S -> Prop)
    (body1 body2 : Z -> S -> outcome S) (n : nat) :
  (forall i s, P s -> body1 i s = body2 i s) ->
  (forall i s s', P s -> body2 i s = Done s' -> P s') ->
  forall (i : Z) (s : S), P s -> for_count n i body1 s = for_count n i body2 s.
Proof.
  intros Hext Hinv. induction n as [|n IH]; intros i s Hs; [done |].
  rewrite !for_count_S, Hext by done.
  destruct (body2 i s) as [s1|] eqn:E; simpl; [|done].
  apply IH. eapply Hinv; eauto.
Qed.

Lemma foreach_break_inv {A S : Type} (P : S -> Prop)
    (body : A -> S -> outcome (ctl S)) (l : list A) :
  (forall a s r, P s -> body a s = Done r -> P (ctl_state r)) ->
  forall (s : S) (r : ctl S), P s -> foreach_break l body s = Done r -> P (ctl_state r).
Proof.
  intros Hbody. induction l as [|a l IH]; intros s r Hs H; simpl in H.
  - by injection H as <-.
  - apply bind_Done in H as (r1 & H1 & H2). pose proof (Hbody a s r1 Hs H1) as Hr1.
    destruct r1 as [s1|s1]; simpl in *.
    + by eapply IH.
    + by injection H2 as <-.
Qed.

Lemma foreach_break_ext {A S : Type} (body1 body2 : A -> S -> outcome (ctl S))
    (l : list A) :
  (forall a s, body1 a s = body2 a s) ->
  forall s : S, foreach_break l body1 s = foreach_break l body2 s.
Proof.
  intros Hext. induction l as [|a l IH]; intros s; simpl; [done |].
  rewrite Hext. destruct (body2 a s) as [[s1|s1]|]; simpl; [apply IH | done | done].
Qed.

(** ** Buffers a call leaves alone *)

Lemma same_below_refl (ng : Z) (s : list (list Z)) : same_below ng s s.
Proof. by split_and!. Qed.

Lemma same_below_trans (ng : Z) (s1 s2 s3 : list (list Z)) :
  same_below ng s1 s2 -> same_below ng s2 s3 -> same_below ng s1 s3.
Proof.
  intros (L1 & H1 & S1) (L2 & H2 & S2). split_and!; [congruence | | congruence].
  intros j Hj. rewrite H2, H1 by done. reflexivity.
Qed.

Lemma same_below_weaken (ng ng' : Z) (s s' : list (list Z)) :
  ng <= ng' -> same_below ng' s s' -> same_below ng s s'.
Proof.
  intros Hle (L & H & S). split_and!; [done | | done]. intros j Hj. apply H. lia.
Qed.

(** Writing one entry of the buffer [ng] and storing it back. *)
Lemma write_same_below (s s' : list (list Z)) (ng k word : Z) (b b' : list Z) :
  zget s ng = Done b -> zset b k word = Done b' -> zset s ng b' = Done s' ->
  same_below ng s s'.
Proof.
  intros [H0 Hb]%zget_Done [_ ->]%zset_Done [Hr ->]%zset_Done. split_and!.
  - by rewrite length_insert.
  - intros j Hj. apply list_lookup_insert_ne. lia.
  - unfold shape. rewrite list_fmap_insert, length_insert.
    apply list_insert_id. by rewrite list_lookup_fmap, Hb.
Qed.

Lemma partition_words_left_frame (pattern : list bool) (ng n k : Z)
    (s s' : list (list Z)) :
  partition_words_left pattern ng n s = Done (k, s') -> same_below ng s s'.
Proof.
  unfold partition_words_left, for_loop. intros H.
  apply (for_count_inv (fun st => same_below ng s (snd st))) in H;
    [done | | apply same_below_refl].
  clear. intros i [k s1] [k' s2] Hs Hb. simpl in *.
  apply bind_Done in Hb as (wl & _ & Hb). apply bind_Done in Hb as (wd & _ & Hb).
  apply bind_Done in Hb as ([|] & _ & Hb).
  - apply bind_Done in Hb as (nwl & Hg & Hb). apply bind_Done in Hb as (nwl' & Hw & Hb).
    apply bind_Done in Hb as (s3 & Hz & Hb). injection Hb as _ <-.
    eapply same_below_trans; [exact Hs |]. by eapply write_same_below.
  - by injection Hb as _ <-.
Qed.

Lemma partition_all_frame (pattern : list bool) (n k : Z) (s s' : list (list Z)) :
  partition_all pattern n s = Done (k, s') -> same_below 0 s s'.
Proof.
  unfold partition_all, for_loop. intros H.
  apply (for_count_inv (fun st => same_below 0 s (snd st))) in H;
    [done | | apply same_below_refl].
  clear. intros i [k s1] [k' s2] Hs Hb. simpl in *.
  apply bind_Done in Hb as ([|] & _ & Hb).
  - apply bind_Done in Hb as (nwl & Hg & Hb). apply bind_Done in Hb as (nwl' & Hw & Hb).
    apply bind_Done in Hb as (s3 & Hz & Hb). injection Hb as _ <-.
    eapply same_below_trans; [exact Hs |]. by eapply write_same_below.
  - by injection Hb as _ <-.
Qed.

Section Frames.
Context `{ops : FloatOps}.

Lemma Recurse_branch_frame recurse (ng n next_word : Z) (pattern : list bool)
    (st : F * bool * list (list Z)) (r : ctl (F * bool * list (list Z))) :
  frames (ng + 1) recurse ->
  Recurse_branch recurse ng n next_word pattern st = Done r ->
  same_below ng (snd st) (snd (ctl_state r)).
Proof.
  intros Hrec. destruct st as [[result valid] s]. unfold Recurse_branch. intros H.
  apply bind_Done in H as ([k s1] & Hp & H). apply partition_words_left_frame in Hp.
  destruct (k >? 0).
  - apply bind_Done in H as (nwl & _ & H). apply bind_Done in H as (first & _ & H).
    destruct (first =? next_word).
    + by injection H as <-.
    + apply bind_Done in H as ([nr s2] & Hr & H). apply Hrec in Hr.
      apply (same_below_weaken ng) in Hr; [|lia].
      destruct nr; injection H as <-; simpl; by eapply same_below_trans.
  - by injection H as <-.
Qed.

Lemma Recurse_value_frame recurse (ng n next : Z) (wpm : table)
    (s s' : list (list Z)) (v : option F) :
  frames (ng + 1) recurse ->
  Recurse_value recurse ng n wpm next s = Done (v, s') -> same_below ng s s'.
Proof.
  intros Hrec. unfold Recurse_value. intros H.
  apply bind_Done in H as (wl & _ & H). apply bind_Done in H as (nw & _ & H).
  apply bind_Done in H as (rows & _ & H). apply bind_Done in H as (r & Hl & H).
  apply (foreach_break_inv (fun st => same_below ng s (snd st))) in Hl.
  - destruct (ctl_state r) as [[result valid] s1]. simpl in Hl.
    destruct valid; by injection H as _ <-.
  - intros a st r' Hst Hb. eapply same_below_trans; [exact Hst |].
    by eapply Recurse_branch_frame.
  - apply same_below_refl.
Qed.

Lemma Recurse_candidate_frame recurse (ng n next : Z) (wpm : table)
    (st st' : option F * list (list Z)) :
  frames (ng + 1) recurse ->
  Recurse_candidate recurse ng n wpm next st = Done st' ->
  same_below ng (snd st) (snd st').
Proof.
  intros Hrec. destruct st as [m s]. unfold Recurse_candidate. intros H.
  apply bind_Done in H as ([v s1] & Hv & H). apply Recurse_value_frame in Hv; [|done].
  destruct v; by injection H as <-.
Qed.

Lemma Recurse_fuel_frame (fuel : nat) (max : Z) (wpm : table) :
  forall ng : Z, frames ng (fun n s => Recurse_fuel fuel ng max wpm n s).
Proof.
  induction fuel as [|fuel IH]; intros ng n s r s' H; simpl in H.
  - destruct (ng =? max); [injection H as _ <-; apply same_below_refl |].
    destruct (n =? 1); [injection H as _ <-; apply same_below_refl |].
    apply bind_Done in H as (? & _ & H). by apply bind_Done in H as (? & _ & H).
  - destruct (ng =? max); [injection H as _ <-; apply same_below_refl |].
    destruct (n =? 1); [injection H as _ <-; apply same_below_refl |].
    apply bind_Done in H as (? & _ & H). apply bind_Done in H as (? & _ & H).
    unfold for_loop in H.
    apply (for_count_inv (fun st => same_below ng s (snd st))) in H;
      [done | | apply same_below_refl].
    intros i st st' Hst Hb. eapply same_below_trans; [exact Hst |].
    eapply Recurse_candidate_frame; [|exact Hb]. apply IH.
Qed.

End Frames.

(** ** Rows without a member *)

Lemma kept_empty_row (row : list bool) (ws : list Z) :
  true ∉ row -> kept row ws = [].
Proof.
  intros Hrow. unfold kept. induction ws as [|x ws IH]; [done |].
  rewrite filter_cons, IH. rewrite decide_False; [done |].
  intros [_ Hk]%keeps_true. apply Hrow. eapply list_elem_of_lookup_2; eauto.
Qed.

Lemma partition_reads (row : list bool) (ng n : Z) (s : list (list Z))
    (prev buf : list Z) :
  zget s (ng - 1) = Done prev -> zget s ng = Done buf ->
  ~ reads_ok (length row) prev n ->
  partition_words_left row ng n s = Fault OutOfBounds.
Proof.
  intros Hprev Hbuf Hbad. rewrite (partition_words_left_spec _ _ _ _ _ _ Hprev Hbuf).
  unfold partition_result. rewrite decide_False; [done |].
  intros (? & ? & _). apply Hbad. by split.
Qed.

Lemma partition_empty_row (row : list bool) (ng n : Z) (s : list (list Z))
    (prev buf : list Z) :
  zget s (ng - 1) = Done prev -> zget s ng = Done buf ->
  true ∉ row -> reads_ok (length row) prev n ->
  partition_words_left row ng n s = Done (0, s).
Proof.
  intros Hprev Hbuf Hrow [Hn HF]. rewrite (partition_words_left_spec _ _ _ _ _ _ Hprev Hbuf).
  unfold partition_result. rewrite kept_empty_row by done. simpl length.
  rewrite decide_True by (split_and!; [done | done | lia]).
  rewrite drop_0. simpl app. apply zget_Done in Hbuf as [_ Hbuf].
  by rewrite list_insert_id.
Qed.

Section Trimmed.
Context `{ops : FloatOps}.
Variable recurse : Z -> list (list Z) -> outcome (option F * list (list Z)).
Variables ng n next_word : Z.
Variable len : nat.
Variable prev : list Z.
Hypothesis recurse_frames : frames (ng + 1) recurse.

Lemma buffers_at_same_below (s s' : list (list Z)) :
  buffers_at ng prev s -> same_below ng s s' -> buffers_at ng prev s'.
Proof.
  intros [[H0 Hp]%zget_Done (buf & Hb)] (Hlen & Hsame & _). split.
  - apply zget_Done. split; [done |]. rewrite <- Hp. apply Hsame. lia.
  - apply zget_in_range. apply zget_Done_range in Hb. lia.
Qed.

Lemma empty_row_branch (row : list bool) (st : F * bool * list (list Z)) :
  buffers_at ng prev (snd st) -> length row = len -> true ∉ row -> reads_ok len prev n ->
  Recurse_branch recurse ng n next_word row st = Done (Next st).
Proof.
  intros [Hp (buf & Hb)] Hl Hrow Hok. destruct st as [[result valid] s].
  unfold Recurse_branch. simpl in *.
  rewrite (partition_empty_row row ng n s prev buf) by (rewrite ?Hl; done).
  reflexivity.
Qed.

Lemma bad_reads_branch (row : list bool) (st : F * bool * list (list Z)) :
  buffers_at ng prev (snd st) -> length row = len -> ~ reads_ok len prev n ->
  Recurse_branch recurse ng n next_word row st = Fault OutOfBounds.
Proof.
  intros [Hp (buf & Hb)] Hl Hbad. destruct st as [[result valid] s].
  unfold Recurse_branch. simpl in *.
  rewrite (partition_reads row ng n s prev buf) by (rewrite ?Hl; done).
  reflexivity.
Qed.

Lemma trim_rows_loop_ok (rows : list (list bool)) :
  Forall (fun row => length row = len) rows -> reads_ok len prev n ->
  forall st, buffers_at ng prev (snd st) ->
    foreach_break (trim_rows rows) (Recurse_branch recurse ng n next_word) st
    = foreach_break rows (Recurse_branch recurse ng n next_word) st.
Proof.
  intros Hlen Hok. rewrite trim_rows_filter.
  induction Hlen as [|row rows Hl _ IH]; intros st Hst; [done |].
  rewrite filter_cons. destruct (decide (true ∈ row)) as [Hrow|Hrow].
  - simpl. destruct (Recurse_branch recurse ng n next_word row st) as [[st1|st1]|] eqn:E;
      simpl; [|done..].
    apply IH. eapply buffers_at_same_below; [exact Hst |].
    apply (Recurse_branch_frame _ _ _ _ _ _ _ recurse_frames E).
  - simpl. rewrite empty_row_branch by done. simpl. by apply IH.
Qed.

Lemma trim_rows_loop (rows : list (list bool)) (st : F * bool * list (list Z)) :
  Forall (fun row => length row = len) rows ->
  (rows = [] \/ exists row, row ∈ rows /\ true ∈ row) ->
  buffers_at ng prev (snd st) ->
  foreach_break (trim_rows rows) (Recurse_branch recurse ng n next_word) st
  = foreach_break rows (Recurse_branch recurse ng n next_word) st.
Proof.
  intros Hlen Hne Hst.
  destruct (decide (reads_ok len prev n)) as [Hok|Hbad];
    [by apply trim_rows_loop_ok |].
  destruct Hne as [->|(row & Hin & Htrue)]; [done |].
  rewrite trim_rows_filter.
  assert (row ∈ filter (fun pattern => true ∈ pattern) rows) as Hin'
    by (by apply list_elem_of_filter).
  destruct (filter (fun pattern => true ∈ pattern) rows) as [|r1 rest1] eqn:E1;
    [by apply elem_of_nil in Hin' |].
  destruct rows as [|r2 rest2]; [by apply elem_of_nil in Hin |].
  assert (r1 ∈ r2 :: rest2) as Hr1.
  { assert (r1 ∈ filter (fun pattern => true ∈ pattern) (r2 :: rest2)) as H
      by (rewrite E1; by left).
    by apply list_elem_of_filter in H as [_ ?]. }
  simpl. rewrite !bad_reads_branch; try done.
  - by inversion Hlen.
  - by apply (proj1 (Forall_forall _ _) Hlen).
Qed.

End Trimmed.

(** ** The search over the trimmed table *)

Section TrimmedSearch.
Context `{ops : FloatOps}.

Lemma Recurse_branch_ext
    (r1 r2 : Z -> list (list Z) -> outcome (option F * list (list Z)))
    (ng n next_word : Z) (row : list bool) (st : F * bool * list (list Z)) :
  (forall k s, r1 k s = r2 k s) ->
  Recurse_branch r1 ng n next_word row st = Recurse_branch r2 ng n next_word row st.
Proof.
  intros Hext. destruct st as [[result valid] s]. unfold Recurse_branch.
  destruct (partition_words_left row ng n s) as [[k s1]|]; simpl; [|done].
  destruct (k >? 0); [|done].
  destruct (zget s1 ng) as [nwl|]; simpl; [|done].
  destruct (zget nwl 0) as [first|]; simpl; [|done].
  destruct (first =? next_word); [done |]. by rewrite Hext.
Qed.

Lemma Recurse_value_ext
    (r1 r2 : Z -> list (list Z) -> outcome (option F * list (list Z)))
    (ng n next : Z) (wpm : table) (s : list (list Z)) :
  (forall k s, r1 k s = r2 k s) ->
  Recurse_value r1 ng n wpm next s = Recurse_value r2 ng n wpm next s.
Proof.
  intros Hext. unfold Recurse_value.
  destruct (zget s (ng - 1)) as [wl|]; simpl; [|done].
  destruct (zget wl next) as [nw|]; simpl; [|done].
  destruct (zget wpm nw) as [rows|]; simpl; [|done].
  rewrite (foreach_break_ext (Recurse_branch r1 ng n nw) (Recurse_branch r2 ng n nw));
    [done |].
  intros row st. by apply Recurse_branch_ext.
Qed.

Variable words : list word.
Variable t : table.
Hypothesis words_wf : Forall wf_word words.
Hypothesis t_filled : filled words (length words) 0 t.

Lemma table_rows (g : Z) (rows : list (list bool)) :
  zget t g = Done rows ->
  Forall (fun row => length row = length words) rows
  /\ exists row, row ∈ rows /\ true ∈ row.
Proof.
  intros Hg. split.
  - apply Forall_forall. intros row Hrow.
    by destruct (table_row words t t_filled g rows row Hg Hrow) as (_ & _ & _ & ? & _).
  - pose proof (zget_Done_range _ _ _ Hg) as Hr.
    destruct t_filled as [[Hlen _] _]. rewrite Hlen in Hr.
    destruct (row_of_self words t words_wf t_filled g Hr) as (rows' & row & Hg' & Hin & Hk).
    assert (rows' = rows) as -> by congruence.
    exists row. split; [done |]. apply keeps_true in Hk as [_ Hk].
    eapply list_elem_of_lookup_2; eauto.
Qed.

Lemma Recurse_value_trim recurse (ng n next : Z) (s : list (list Z)) :
  frames (ng + 1) recurse ->
  (exists buf, zget s ng = Done buf) ->
  Recurse_value recurse ng n (TrimWordPatternMatches t) next s
  = Recurse_value recurse ng n t next s.
Proof.
  intros Hfr Hbuf. unfold Recurse_value.
  destruct (zget s (ng - 1)) as [prev|] eqn:Hprev; simpl; [|done].
  destruct (zget prev next) as [nw|]; simpl; [|done].
  rewrite trim_lookup. destruct (zget t nw) as [rows|] eqn:Hrows; simpl; [|done].
  destruct (table_rows nw rows Hrows) as [Hlen Hne].
  rewrite (trim_rows_loop recurse ng n nw (length words) prev Hfr rows); try done.
  by right.
Qed.

Lemma Recurse_fuel_trim (max : Z) (fuel : nat) : forall (ng n : Z) (s : list (list Z)),
  Recurse_fuel fuel ng max (TrimWordPatternMatches t) n s
  = Recurse_fuel fuel ng max t n s.
Proof.
  induction fuel as [|fuel IH]; intros ng n s; [reflexivity |]. simpl.
  destruct (ng =? max); [done |]. destruct (n =? 1); [done |].
  destruct (zget s (ng - 1)) as [prev|] eqn:Hprev; simpl; [|done].
  destruct (zget s ng) as [buf|] eqn:Hbuf; simpl; [|done].
  unfold for_loop.
  apply (for_count_ext_inv (fun st => length (snd st) = length s)); [| |done].
  - intros i [m s1] Hlen. simpl in Hlen. unfold Recurse_candidate.
    rewrite (Recurse_value_ext _ (Recurse_fuel fuel (ng + 1) max t)) by apply IH.
    rewrite Recurse_value_trim; [done | apply Recurse_fuel_frame |].
    apply zget_in_range. apply zget_Done_range in Hbuf. lia.
  - intros i st st' Hlen Hb.
    apply Recurse_candidate_frame in Hb as [Hl _]; [congruence |].
    apply Recurse_fuel_frame.
Qed.

End TrimmedSearch.

(** C5.  For a vocabulary of five-letter lowercase words, [Recurse] over the
    trimmed table returns what it returns over the table of
    [ComputeWordPatternMatches], result and buffers, from every state.
    Trimming keeps, in order, exactly the rows with a member; a row without
    one adds nothing to [result] and leaves [valid] and the buffers as they
    were. *)
Theorem C5_trimmed_search_same_result `{ops : FloatOps}
    (words : list word) (t : table) :
  Forall wf_word words ->
  ComputeWordPatternMatches words = Done t ->
  (forall (num_guesses max_num_guesses num_words_left : Z)
          (all_words_left : list (list Z)),
     Recurse num_guesses max_num_guesses all_words_left num_words_left
             (TrimWordPatternMatches t)
     = Recurse num_guesses max_num_guesses all_words_left num_words_left t)
  /\ (forall (g : Z) (rows : list (list bool)),
        zget t g = Done rows ->
        zget (TrimWordPatternMatches t) g
        = Done (filter (fun row => true ∈ row) rows))
  /\ (forall recurse (num_guesses num_words_left next_word : Z)
             (g : Z) (rows : list (list bool)) (row : list bool)
             (result : F) (valid : bool) (s : list (list Z)) (prev buf : list Z),
        zget t g = Done rows -> row ∈ rows -> true ∉ row ->
        zget s (num_guesses - 1) = Done prev -> zget s num_guesses = Done buf ->
        reads_ok (length words) prev num_words_left ->
        Recurse_branch recurse num_guesses num_words_left next_word row
                       (result, valid, s)
        = Done (Next (result, valid, s))).
Proof.
  intros Hwf Ht. pose proof (Compute_filled words t Hwf Ht) as Hf. split_and!.
  - intros ng max n s. unfold Recurse. by apply (Recurse_fuel_trim words t).
  - intros g rows Hg. by rewrite trim_lookup, Hg, bind_Done_l, trim_rows_filter.
  - intros recurse ng n nw g rows row result valid s prev buf Hg Hrow Hno Hp Hb Hok.
    destruct (table_row words t Hf g rows row Hg Hrow) as (_ & _ & _ & Hl & _).
    apply (empty_row_branch recurse ng n nw (length words) prev); try done.
    split; [done | by exists buf].
Qed.

(** ** [Recurse] never runs out of fuel *)

Lemma zget_fault {A : Type} (l : list A) (i : Z) (f : fault) :
  zget l i = Fault f -> f = OutOfBounds.
Proof.
  unfold zget. destruct (bool_decide _); [destruct (l !! _) |]; congruence.
Qed.

Lemma zset_fault {A : Type} (l : list A) (i : Z) (a : A) (f : fault) :
  zset l i a = Fault f -> f = OutOfBounds.
Proof. unfold zset. destruct (bool_decide _); congruence. Qed.

Lemma bind_Fault {A B : Type} (m : outcome A) (k : A -> outcome B) (f : fault) :
  bind m k = Fault f -> m = Fault f \/ exists a, m = Done a /\ k a = Fault f.
Proof.
  destruct m as [a|f']; simpl; intros H.
  - right. exists a. by split.
  - left. by injection H as ->.
Qed.

Lemma for_count_Fault {S : Type} (P : S -> Prop) (body : Z -> S -> outcome S)
    (f : fault) (n : nat) :
  (forall i s s', P s -> body i s = Done s' -> P s') ->
  forall (i : Z) (s : S), P s -> for_count n i body s = Fault f ->
  exists i' s', P s' /\ body i' s' = Fault f.
Proof.
  intros Hinv. induction n as [|n IH]; intros i s Hs H; [done |].
  rewrite for_count_S in H. apply bind_Fault in H as [H|(s1 & H1 & H2)]; [eauto |].
  eapply IH; [|exact H2]. eauto.
Qed.

Lemma foreach_break_Fault {A S : Type} (P : S -> Prop)
    (body : A -> S -> outcome (ctl S)) (f : fault) (l : list A) :
  (forall a s r, P s -> body a s = Done r -> P (ctl_state r)) ->
  forall s : S, P s -> foreach_break l body s = Fault f ->
  exists a s', P s' /\ body a s' = Fault f.
Proof.
  intros Hinv. induction l as [|a l IH]; intros s Hs H; [done |]. simpl in H.
  apply bind_Fault in H as [H|(r & H1 & H2)]; [eauto |].
  destruct r as [s1|s1]; [|done]. eapply IH; [|exact H2].
  apply (Hinv a s (Next s1)); done.
Qed.

Lemma partition_words_left_fault (pattern : list bool) (ng n : Z)
    (s : list (list Z)) (f : fault) :
  partition_words_left pattern ng n s = Fault f -> f = OutOfBounds.
Proof.
  unfold partition_words_left, for_loop. intros H.
  apply (for_count_Fault (fun _ => True)) in H as (i & [k s1] & _ & H); [|done..].
  apply bind_Fault in H as [H|(wl & _ & H)]; [by eapply zget_fault |].
  apply bind_Fault in H as [H|(wd & _ & H)]; [by eapply zget_fault |].
  apply bind_Fault in H as [H|([|] & _ & H)]; [by eapply zget_fault | | done].
  apply bind_Fault in H as [H|(nwl & _ & H)]; [by eapply zget_fault |].
  apply bind_Fault in H as [H|(nwl' & _ & H)]; [by eapply zset_fault |].
  apply bind_Fault in H as [H|(s2 & _ & H)]; [by eapply zset_fault | done].
Qed.

Section Fuel.
Context `{ops : FloatOps}.

Lemma Recurse_value_out_of_fuel recurse (ng n next : Z) (wpm : table)
    (s : list (list Z)) :
  frames (ng + 1) recurse ->
  Recurse_value recurse ng n wpm next s = Fault FuelExhausted ->
  exists k s1, length s1 = length s /\ recurse k s1 = Fault FuelExhausted.
Proof.
  intros Hfr. unfold Recurse_value. intros H.
  apply bind_Fault in H as [H|(wl & _ & H)]; [by apply zget_fault in H |].
  apply bind_Fault in H as [H|(nw & _ & H)]; [by apply zget_fault in H |].
  apply bind_Fault in H as [H|(rows & _ & H)]; [by apply zget_fault in H |].
  apply bind_Fault in H as [H|(r & _ & H)].
  2:{ destruct (ctl_state r) as [[? []] ?]; done. }
  apply (foreach_break_Fault (fun st => length (snd st) = length s)) in H
    as (row & [[result valid] s0] & Hlen & H); [| |done].
  2:{ intros row st r Hst Hb.
      apply Recurse_branch_frame in Hb as [Hl _]; [congruence | done]. }
  simpl in Hlen. unfold Recurse_branch in H.
  apply bind_Fault in H as [H|([k s1] & Hp & H)];
    [by apply partition_words_left_fault in H |].
  apply partition_words_left_frame in Hp as [Hl1 _].
  destruct (k >? 0); [|done].
  apply bind_Fault in H as [H|(nwl & _ & H)]; [by apply zget_fault in H |].
  apply bind_Fault in H as [H|(first & _ & H)]; [by apply zget_fault in H |].
  destruct (first =? nw); [done |].
  apply bind_Fault in H as [H|([[r|] s2] & _ & H)]; [|done..].
  exists k, s1. split; [congruence | done].
Qed.

Lemma Recurse_fuel_enough (max : Z) (wpm : table) (fuel : nat) :
  forall (ng n : Z) (s : list (list Z)),
  Z.of_nat (length s) <= Z.of_nat fuel + ng ->
  Recurse_fuel fuel ng max wpm n s <> Fault FuelExhausted.
Proof.
  induction fuel as [|fuel IH]; intros ng n s Hlen H; simpl in H.
  - destruct (ng =? max); [done |]. destruct (n =? 1); [done |].
    apply bind_Fault in H as [H|(? & _ & H)]; [by apply zget_fault in H |].
    apply bind_Fault in H as [H|(? & Hb & _)]; [by apply zget_fault in H |].
    apply zget_Done_range in Hb. lia.
  - destruct (ng =? max); [done |]. destruct (n =? 1); [done |].
    apply bind_Fault in H as [H|(? & _ & H)]; [by apply zget_fault in H |].
    apply bind_Fault in H as [H|(? & _ & H)]; [by apply zget_fault in H |].
    unfold for_loop in H.
    apply (for_count_Fault (fun st => length (snd st) = length s)) in H
      as (i & [m s0] & Hl0 & H); [| |done].
    2:{ intros i st st' Hst Hb.
        apply Recurse_candidate_frame in Hb as [Hl _]; [congruence |].
        apply Recurse_fuel_frame. }
    simpl in Hl0. unfold Recurse_candidate in H.
    apply bind_Fault in H as [H|([[v|] s1] & _ & H)]; [|done..].
    apply Recurse_value_out_of_fuel in H as (k & s1 & Hl1 & H);
      [|apply Recurse_fuel_frame].
    apply (IH (ng + 1) k s1); [lia | done].
Qed.

(** The fuel [Recurse] starts with is never used up. *)
Lemma Recurse_not_out_of_fuel (ng max n : Z) (s : list (list Z)) (wpm : table) :
  Recurse ng max s n wpm <> Fault FuelExhausted.
Proof.
  unfold Recurse. destruct (decide (0 <= ng)) as [Hng|Hng].
  - apply Recurse_fuel_enough. lia.
  - intros H. destruct (length s); simpl in H;
      (destruct (ng =? max); [done |]); (destruct (n =? 1); [done |]);
      rewrite (zget_out_of_range s (ng - 1)) in H by lia; done.
Qed.

End Fuel.

(** ** Discarded candidates and the minimum *)

Lemma foreach_break_app {A S : Type} (l1 l2 : list A)
    (body : A -> S -> outcome (ctl S)) (s : S) :
  foreach_break (l1 ++ l2) body s
  = let* r := foreach_break l1 body s in
    match r with
    | Next s' => foreach_break l2 body s'
    | Break s' => Done (Break s')
    end.
Proof.
  revert s. induction l1 as [|a l1 IH]; intros s; simpl; [done |].
  destruct (body a s) as [[s1|s1]|]; simpl; [apply IH | done | done].
Qed.

Section Minimum.
Context `{ops : FloatOps} `{ord : !FloatOrder}.

Lemma flt_asym (x y : F) : flt x y = true -> flt y x = false.
Proof.
  intros H. destruct (flt y x) eqn:E; [|done].
  pose proof (flt_trans x y x H E) as Hxx. by rewrite flt_irrefl in Hxx.
Qed.

Lemma candidates_loop recurse (ng n : Z) (wpm : table) (count : nat) :
  forall (next : Z) (m : option F) (s : list (list Z)),
  for_count count next (Recurse_candidate recurse ng n wpm) (m, s)
  = let* (values, s') := Recurse_values recurse ng n wpm count next s in
    Done (fold_left track values m, s').
Proof.
  induction count as [|count IH]; intros next m s; [done |].
  rewrite for_count_S. simpl Recurse_values. unfold Recurse_candidate at 1.
  destruct (Recurse_value recurse ng n wpm next s) as [[v s1]|]; simpl; [|done].
  assert (forall m', for_count count (next + 1) (Recurse_candidate recurse ng n wpm) (m', s1)
            = let* (values, s') := Recurse_values recurse ng n wpm count (next + 1) s1 in
              Done (fold_left track values m', s')) as IH' by (intros; apply IH).
  destruct v as [r|]; simpl; rewrite IH';
    destruct (Recurse_values recurse ng n wpm count (next + 1) s1) as [[vs s2]|];
    reflexivity.
Qed.

Lemma track_None (values : list (option F)) : forall m : option F,
  fold_left track values m = None <-> m = None /\ Forall (fun v => v = None) values.
Proof.
  induction values as [|v values IH]; intros m; simpl.
  - split; [by intros -> | by intros [-> _]].
  - rewrite IH. destruct v as [r|]; simpl.
    + split.
      * intros [H _]. unfold min_update in H. destruct m; [destruct (flt r f) |]; done.
      * intros [_ H]. by inversion H.
    + split; intros [? H]; (split; [done |]); [by constructor | by inversion H].
Qed.

Lemma track_Some (values : list (option F)) : forall (m : option F) (v : F),
  fold_left track values m = Some v ->
  (m = Some v \/ Some v ∈ values)
  /\ (forall a, m = Some a -> a = v \/ flt v a = true)
  /\ (forall v', Some v' ∈ values -> flt v' v = false).
Proof.
  induction values as [|v0 values IH]; intros m v H; simpl in H.
  - subst m. split_and!; [by left | intros a [= ->]; by left |].
    intros v' Hin. by apply elem_of_nil in Hin.
  - destruct (IH _ _ H) as (H1 & H2 & H3). clear IH H.
    destruct v0 as [r|]; simpl in *.
    2:{ split_and!; [| done |].
        - destruct H1; [by left | right; by right].
        - intros v' [?|?]%elem_of_cons; [done | auto]. }
    unfold min_update in *. destruct m as [a|].
    + destruct (flt r a) eqn:Era.
      * split_and!.
        -- destruct H1 as [[= ->]|?]; right; [by left | by right].
        -- intros a' [= <-]. right.
           destruct (H2 r eq_refl) as [->|Hvr]; [done |]. by eapply flt_trans.
        -- intros v' [[= ->]|?]%elem_of_cons; [|auto].
           destruct (H2 r eq_refl) as [->|Hvr];
             [apply flt_irrefl | by apply flt_asym].
      * split_and!.
        -- destruct H1 as [?|?]; [by left | right; by right].
        -- done.
        -- intros v' [[= ->]|?]%elem_of_cons; [|auto].
           destruct (H2 a eq_refl) as [->|Hva]; [done |].
           destruct (flt r v) eqn:E; [|done].
           by rewrite (flt_trans r v a E Hva) in Era.
    + split_and!.
      * destruct H1 as [[= ->]|?]; right; [by left | by right].
      * done.
      * intros v' [[= ->]|?]%elem_of_cons; [|auto].
        destruct (H2 r eq_refl) as [->|Hvr];
          [apply flt_irrefl | by apply flt_asym].
Qed.

End Minimum.

(** ** The comparison of [binary32] *)

Lemma lex_compare_spec (a b : Z * Z * Z) :
  CompareSpec (a = b) (lex_lt a b) (lex_lt b a) (lex_compare a b).
Proof.
  destruct a as [[a1 a2] a3], b as [[b1 b2] b3]. unfold lex_compare, lex_lt.
  destruct (Z.compare_spec a1 b1); [|constructor; lia..].
  destruct (Z.compare_spec a2 b2); [|constructor; lia..].
  destruct (Z.compare_spec a3 b3); constructor; [congruence | lia | lia].
Qed.

Lemma lex_lt_irrefl (a : Z * Z * Z) : ~ lex_lt a a.
Proof. destruct a as [[a1 a2] a3]. unfold lex_lt. lia. Qed.

Lemma lex_lt_trans (a b c : Z * Z * Z) : lex_lt a b -> lex_lt b c -> lex_lt a c.
Proof.
  destruct a as [[a1 a2] a3], b as [[b1 b2] b3], c as [[c1 c2] c3].
  unfold lex_lt. lia.
Qed.

Lemma lex_compare_Lt (a b : Z * Z * Z) : lex_compare a b = Lt <-> lex_lt a b.
Proof.
  destruct (lex_compare_spec a b) as [->|H|H]; split; try done.
  - intros H. by apply lex_lt_irrefl in H.
  - intros H'. destruct (lex_lt_irrefl a). by eapply lex_lt_trans.
Qed.

Lemma lex_compare_Gt (a b : Z * Z * Z) : lex_compare a b = Gt <-> lex_lt b a.
Proof.
  destruct (lex_compare_spec a b) as [->|H|H]; split; try done.
  - intros H. by apply lex_lt_irrefl in H.
  - intros H'. destruct (lex_lt_irrefl a). by eapply lex_lt_trans.
Qed.

Lemma lex_compare_Eq (a b : Z * Z * Z) : lex_compare a b = Eq <-> a = b.
Proof.
  destruct (lex_compare_spec a b) as [->|H|H]; split; try done.
  - intros ->. by apply lex_lt_irrefl in H.
  - intros ->. by apply lex_lt_irrefl in H.
Qed.

Lemma lex_compare_sym (a b : Z * Z * Z) : lex_compare b a = CompOpp (lex_compare a b).
Proof.
  destruct (lex_compare_spec a b) as [->|H|H]; simpl.
  - by apply lex_compare_Eq.
  - by apply lex_compare_Gt.
  - by apply lex_compare_Lt.
Qed.

Lemma lex_compare_trans (a b c : Z * Z * Z) (r : comparison) :
  lex_compare a b = r -> lex_compare b c = r -> lex_compare a c = r.
Proof.
  destruct r; intros H1 H2.
  - apply lex_compare_Eq in H1, H2. apply lex_compare_Eq. congruence.
  - apply lex_compare_Lt in H1, H2. apply lex_compare_Lt. by eapply lex_lt_trans.
  - apply lex_compare_Gt in H1, H2. apply lex_compare_Gt. by eapply lex_lt_trans.
Qed.

Lemma SFcompare_key (x y : spec_float) :
  SFcompare x y
  = match float_key x, float_key y with
    | Some a, Some b => Some (lex_compare a b)
    | _, _ => None
    end.
Proof.
  destruct x as [[|]|[|]| |[|] m1 e1], y as [[|]|[|]| |[|] m2 e2];
    try reflexivity; simpl.
  rewrite Z.compare_opp. rewrite (Z.compare_antisym e1 e2).
  destruct (e1 ?= e2); reflexivity.
Qed.

#[global] Instance binary32_compare : @FloatCompare binary32.
Proof.
  split; simpl; intros x y.
  - intros c. rewrite !SFcompare_key.
    destruct (float_key x), (float_key y); try done.
    intros [= <-]. by rewrite lex_compare_sym.
  - intros z c. rewrite !SFcompare_key.
    destruct (float_key x), (float_key y), (float_key z); try done.
    intros [= H1] [= H2]. f_equal. by eapply lex_compare_trans.
  - intros z c. rewrite !SFcompare_key.
    destruct (float_key x), (float_key y), (float_key z); try done.
    intros [= H1] [= H2]. apply lex_compare_Eq in H1 as ->. by f_equal.
  - intros z c. rewrite !SFcompare_key.
    destruct (float_key x), (float_key y), (float_key z); try done.
    intros [= H1] [= H2]. apply lex_compare_Eq in H2 as ->. by f_equal.
  - rewrite !SFcompare_key. destruct (float_key x), (float_key y); done.
Qed.

(** ** Consequences of the laws of the comparison *)

Section CompareLaws.
Context `{ops : FloatOps} `{cmp : !FloatCompare}.

Lemma fcompare_not_Lt_refl (x : F) : fcompare x x <> Some Lt.
Proof. intros H. pose proof (fcompare_sym x x Lt H). simpl in *. congruence. Qed.

#[global] Instance FloatCompare_order : FloatOrder.
Proof.
  split.
  - intros x. unfold flt. pose proof (fcompare_not_Lt_refl x).
    destruct (fcompare x x) as [[| |]|]; done.
  - intros x y z. unfold flt.
    destruct (fcompare x y) as [[| |]|] eqn:E1; try done.
    destruct (fcompare y z) as [[| |]|] eqn:E2; try done.
    by rewrite (fcompare_trans x y z Lt E1 E2).
Qed.

End CompareLaws.

(** C4.  A candidate one of whose branches gets no value from the recursive
    call is dropped: the rows after that branch play no part (the value of
    the candidate is [None] and the buffers are those the failed call left,
    whatever rows follow), and [min_expected], in [Recurse], or the shared
    record, in [Thread], stays as it was.  What [Recurse] returns is the
    minimum over the candidates that were not dropped: [None] exactly when
    all were, otherwise the value of one of them that no other is below. *)
Theorem C4_failed_branch_discards_candidate `{ops : FloatOps} `{ord : !FloatOrder} :
  (forall recurse (num_guesses num_words_left next next_word k first : Z)
          (word_pattern_matches : table) (s st1 s1 s2 : list (list Z))
          (words_left nwl : list Z) (pre post : list (list bool)) (row : list bool)
          (result1 : F),
     zget s (num_guesses - 1) = Done words_left ->
     zget words_left next = Done next_word ->
     zget word_pattern_matches next_word = Done (pre ++ row :: post) ->
     foreach_break pre (Recurse_branch recurse num_guesses num_words_left next_word)
                   (of_int 0, true, s)
     = Done (Next (result1, true, st1)) ->
     partition_words_left row num_guesses num_words_left st1 = Done (k, s1) ->
     k > 0 -> zget s1 num_guesses = Done nwl -> zget nwl 0 = Done first ->
     first <> next_word ->
     recurse k s1 = Done (None, s2) ->
     Recurse_value recurse num_guesses num_words_left word_pattern_matches next s
     = Done (None, s2)
     /\ forall min_expected,
          Recurse_candidate recurse num_guesses num_words_left word_pattern_matches
                            next (min_expected, s)
          = Done (min_expected, s2))
  /\ (forall (max_num_guesses first_word k first : Z) (words : list word)
             (word_pattern_matches : table) (s st1 s1 s2 : list (list Z))
             (nwl : list Z) (pre post : list (list bool)) (row : list bool)
             (result1 : F) (sh : shared),
        zget word_pattern_matches first_word = Done (pre ++ row :: post) ->
        foreach_break pre (Thread_branch max_num_guesses (Z.of_nat (length words))
                                         word_pattern_matches first_word)
                      (of_int 0, true, s)
        = Done (Next (result1, true, st1)) ->
        partition_all row (Z.of_nat (length words)) st1 = Done (k, s1) ->
        zget s1 0 = Done nwl -> zget nwl 0 = Done first -> first <> first_word ->
        Recurse 1 max_num_guesses s1 k word_pattern_matches = Done (None, s2) ->
        Thread_candidate max_num_guesses words word_pattern_matches first_word s
        = Done (None, s2)
        /\ Thread_step max_num_guesses words word_pattern_matches first_word (s, sh)
           = Done (s2, sh))
  /\ (forall (num_guesses max_num_guesses num_words_left : Z)
             (all_words_left : list (list Z)) (word_pattern_matches : table),
        num_guesses <> max_num_guesses -> num_words_left <> 1 ->
        Recurse num_guesses max_num_guesses all_words_left num_words_left
                word_pattern_matches
        = let* _ := zget all_words_left (num_guesses - 1) in
          let* _ := zget all_words_left num_guesses in
          let* (values, s') :=
            Recurse_values
              (Recurse_fuel (length all_words_left - 1) (num_guesses + 1)
                            max_num_guesses word_pattern_matches)
              num_guesses num_words_left word_pattern_matches
              (Z.to_nat num_words_left) 0 all_words_left in
          Done (least values, s'))
  /\ (forall values : list (option F),
        (least values = None <-> Forall (fun v => v = None) values)
        /\ forall v, least values = Some v ->
             Some v ∈ values /\ forall v', Some v' ∈ values -> flt v' v = false).
Proof.
  split_and!.
  - intros recurse ng n next nw k first wpm s st1 s1 s2 wl nwl pre post row result1
           Hwl Hnw Hrows Hpre Hpart Hk Hnwl Hfirst Hne Hrec.
    assert (Recurse_value recurse ng n wpm next s = Done (None, s2)) as Hv.
    { unfold Recurse_value. rewrite Hwl, bind_Done_l, Hnw, bind_Done_l, Hrows, bind_Done_l.
      rewrite foreach_break_app, Hpre, bind_Done_l. simpl foreach_break.
      unfold Recurse_branch at 1. rewrite Hpart, bind_Done_l.
      destruct (Z.gtb_spec k 0); [|lia].
      rewrite Hnwl, bind_Done_l, Hfirst, bind_Done_l.
      destruct (Z.eqb_spec first nw); [done |].
      rewrite Hrec. reflexivity. }
    split; [done |]. intros m. unfold Recurse_candidate. by rewrite Hv.
  - intros max fw k first words wpm s st1 s1 s2 nwl pre post row result1 sh
           Hrows Hpre Hpart Hnwl Hfirst Hne Hrec.
    assert (Thread_candidate max words wpm fw s = Done (None, s2)) as Hv.
    { unfold Thread_candidate. rewrite Hrows, bind_Done_l.
      rewrite foreach_break_app, Hpre, bind_Done_l. simpl foreach_break.
      unfold Thread_branch at 1. rewrite Hpart, bind_Done_l.
      rewrite Hnwl, bind_Done_l, Hfirst, bind_Done_l.
      destruct (Z.eqb_spec first fw); [done |].
      rewrite Hrec. reflexivity. }
    split; [done |]. unfold Thread_step. by rewrite Hv.
  - intros ng max n s wpm Hng Hn. unfold Recurse.
    apply Z.eqb_neq in Hng, Hn.
    destruct (length s) as [|fuel] eqn:Hlen; simpl Recurse_fuel; rewrite Hng, Hn.
    + apply length_zero_iff_nil in Hlen. subst s.
      rewrite (zget_out_of_range [] (ng - 1)) by (simpl; lia). reflexivity.
    + destruct (zget s (ng - 1)); simpl; [|done].
      destruct (zget s ng); simpl; [|done].
      unfold for_loop. rewrite Z.sub_0_r, candidates_loop, Nat.sub_0_r.
      reflexivity.
  - intros values. unfold least. split.
    + rewrite track_None. split; [by intros [_ ?] | by split].
    + intros v H. destruct (track_Some values None v H) as ([?|?] & _ & ?); done.
Qed.

Lemma C4_witness :
  @Recurse_value binary32
     (@Recurse_fuel binary32 0 2 2 (TrimWordPatternMatches two_words_table))
     1 2 (TrimWordPatternMatches two_words_table) 0 [[0; 1]; [0; 0]]
  = Done (None, [[0; 1]; [1; 0]])
  /\ forall min_expected,
       @Recurse_candidate binary32
          (@Recurse_fuel binary32 0 2 2 (TrimWordPatternMatches two_words_table))
          1 2 (TrimWordPatternMatches two_words_table) 0
          (min_expected, [[0; 1]; [0; 0]])
       = Done (min_expected, [[0; 1]; [1; 0]]).
Proof.
  apply (proj1 (@C4_failed_branch_discards_candidate binary32 _)
           (@Recurse_fuel binary32 0 2 2 (TrimWordPatternMatches two_words_table))
           1 2 0 0 1 1 (TrimWordPatternMatches two_words_table)
           [[0; 1]; [0; 0]] [[0; 1]; [0; 0]] [[0; 1]; [1; 0]] [[0; 1]; [1; 0]]
           [0; 1] [1; 0] [] [[true; false]] [false; true]
           (@of_int binary32 0));
    try (vm_compute; reflexivity); lia.
Defined.

Lemma C5_witness :
  (forall (num_guesses max_num_guesses num_words_left : Z)
          (all_words_left : list (list Z)),
     @Recurse binary32 num_guesses max_num_guesses all_words_left num_words_left
              (TrimWordPatternMatches two_words_table)
     = @Recurse binary32 num_guesses max_num_guesses all_words_left num_words_left
                two_words_table)
  /\ @Recurse binary32 1 6 [[0; 1]; [0; 0]; [0; 0]] 2 two_words_table
     = Done (Some (S754_finite false 12582912 (-23)), [[0; 1]; [1; 0]; [0; 0]]).
Proof.
  split.
  - apply (@C5_trimmed_search_same_result binary32 two_words two_words_table
             two_words_wf two_words_table_eq).
  - vm_compute. reflexivity.
Defined.

(** ** The shared best record *)

Section Record.
Context `{ops : FloatOps} `{cmp : !FloatCompare}.

Lemma flt_true (x y : F) : flt x y = true <-> fcompare x y = Some Lt.
Proof. unfold flt. destruct (fcompare x y) as [[| |]|]; split; congruence. Qed.

Lemma feq_true (x y : F) : feq x y = true <-> fcompare x y = Some Eq.
Proof. unfold feq. destruct (fcompare x y) as [[| |]|]; split; congruence. Qed.

Lemma report_record (sh : shared) (r : F) (i : Z) (wd : list ascii) :
  min_expected (report sh r i wd) = (if better sh r i then Some r else min_expected sh)
  /\ best_word (report sh r i wd) = (if better sh r i then i else best_word sh).
Proof. unfold report. destruct (better sh r i); done. Qed.

Lemma better_spec (sh : shared) (r : F) (i : Z) :
  better sh r i = true <->
  min_expected sh = None
  \/ exists m, min_expected sh = Some m
               /\ (flt r m = true \/ (feq r m = true /\ i < best_word sh)).
Proof.
  unfold better. destruct (min_expected sh) as [m|].
  - rewrite orb_true_iff, andb_true_iff, Z.ltb_lt. split.
    + intros H. right. by exists m.
    + intros [?|(m' & [= <-] & H)]; done.
  - split; [by left | done].
Qed.

Lemma no_worse_refl (e : event) : ordered (event_value e) -> no_worse e e.
Proof. intros H. right. split; [exact H | lia]. Qed.

Lemma better_no_worse (r m : F) (i b : Z) (e e0 e' : event) :
  event_value e = r -> event_index e = i ->
  event_value e0 = m -> event_index e0 = b ->
  flt r m = true \/ (feq r m = true /\ i < b) ->
  no_worse e0 e' -> no_worse e e'.
Proof.
  intros <- <- <- <-. unfold no_worse. rewrite !flt_true, !feq_true.
  intros [H1|[H1 Hi]] [H2|[H2 Hi']].
  - left. by eapply fcompare_trans.
  - left. by eapply fcompare_Eq_r.
  - left. by eapply fcompare_Eq_l.
  - right. split; [by eapply fcompare_trans | lia].
Qed.

Lemma not_better_no_worse (r m : F) (i b : Z) (e e0 : event) :
  event_value e = r -> event_index e = i ->
  event_value e0 = m -> event_index e0 = b ->
  ordered r -> ordered m ->
  ~ (flt r m = true \/ (feq r m = true /\ i < b)) ->
  no_worse e0 e.
Proof.
  intros <- <- <- <-. unfold no_worse, ordered.
  rewrite !flt_true, !feq_true. intros Hr Hm Hn.
  pose proof (fcompare_total _ _ Hr Hm) as Ht.
  destruct (fcompare (event_value e) (event_value e0)) as [[| |]|] eqn:E; [| | |done].
  - right. split; [apply (fcompare_sym _ _ _ E) |].
    destruct (decide (event_index e < event_index e0)); [|lia].
    exfalso. apply Hn. by right.
  - exfalso. apply Hn. by left.
  - left. apply (fcompare_sym _ _ _ E).
Qed.

Lemma record_inv_step (sh : shared) (seen : list event) (e : event) :
  record_inv sh seen -> Forall (fun e => ordered (event_value e)) (seen ++ [e]) ->
  record_inv (report_event sh e) (seen ++ [e]).
Proof.
  intros Hinv [Hseen He]%Forall_app. apply Forall_inv in He.
  unfold record_inv, report_event in *.
  destruct (report_record sh (event_value e) (event_index e) e.2) as [-> Hb].
  rewrite Hb. clear Hb.
  destruct (min_expected sh) as [m|] eqn:Hm.
  - destruct Hinv as (e0 & Hin0 & Hv0 & Hi0 & Hmin).
    destruct (better sh (event_value e) (event_index e)) eqn:Eb.
    + apply better_spec in Eb as [?|(m' & Hm' & Hbetter)]; [congruence |].
      assert (m' = m) as -> by congruence.
      exists e. split_and!; [apply elem_of_app; right; by left | done | done |].
      intros e' [Hin|Hin%list_elem_of_singleton]%elem_of_app;
        [|subst e'; by apply no_worse_refl].
      eapply (better_no_worse _ m _ (best_word sh) e e0); eauto.
    + exists e0. split_and!; [apply elem_of_app; by left | done | done |].
      intros e' [Hin|Hin%list_elem_of_singleton]%elem_of_app; [auto |].
      subst e'. eapply (not_better_no_worse _ m _ (best_word sh) e e0); eauto.
      * rewrite <- Hv0. by apply (proj1 (Forall_forall _ _) Hseen).
      * intros H. assert (better sh (event_value e) (event_index e) = true) as Eb'
          by (apply better_spec; right; by exists m).
        congruence.
  - subst seen. unfold better. rewrite Hm.
    exists e. split_and!; [by left | done | done |].
    intros e' Hin%list_elem_of_singleton. subst e'. by apply no_worse_refl.
Qed.

Lemma reduce_inv (evs : list event) : forall (sh : shared) (seen : list event),
  record_inv sh seen -> Forall (fun e => ordered (event_value e)) (seen ++ evs) ->
  record_inv (reduce sh evs) (seen ++ evs).
Proof.
  induction evs as [|e evs IH]; intros sh seen Hinv Hord; simpl.
  - by rewrite app_nil_r.
  - replace (seen ++ e :: evs) with ((seen ++ [e]) ++ evs) in *
      by (by rewrite <- app_assoc).
    apply IH; [|done]. apply record_inv_step; [done |].
    by apply Forall_app in Hord as [? _].
Qed.

Lemma no_worse_antisym (e1 e2 : event) :
  no_worse e1 e2 -> no_worse e2 e1 -> event_index e1 = event_index e2.
Proof.
  unfold no_worse. rewrite !flt_true, !feq_true.
  intros [H1|[H1 Hi1]] [H2|[H2 Hi2]]; [| | |lia].
  - pose proof (fcompare_sym _ _ _ H1). simpl in *. congruence.
  - pose proof (fcompare_sym _ _ _ H1). simpl in *. congruence.
  - pose proof (fcompare_sym _ _ _ H2). simpl in *. congruence.
Qed.

Lemma NoDup_index_inj (evs : list event) (e1 e2 : event) :
  NoDup (event_index <$> evs) -> e1 ∈ evs -> e2 ∈ evs ->
  event_index e1 = event_index e2 -> e1 = e2.
Proof.
  induction evs as [|e evs IH]; intros Hnd H1 H2 Hi; [by apply elem_of_nil in H1 |].
  rewrite fmap_cons in Hnd. apply NoDup_cons in Hnd as [Hnot Hnd].
  apply elem_of_cons in H1 as [->|H1], H2 as [->|H2]; [done | | | by apply IH].
  - exfalso. apply Hnot. rewrite Hi. by apply list_elem_of_fmap_2.
  - exfalso. apply Hnot. rewrite <- Hi. by apply list_elem_of_fmap_2.
Qed.

Lemma thread_loop (max : Z) (words : list word) (wpm : table) (count : nat) :
  forall (first_word : Z) (s : list (list Z)) (sh : shared),
  for_count count first_word (Thread_step max words wpm) (s, sh)
  = let* (evs, s') := Thread_events max words wpm count first_word s in
    Done (s', reduce sh evs).
Proof.
  induction count as [|count IH]; intros fw s sh; [done |].
  rewrite for_count_S. simpl Thread_events. unfold Thread_step at 1.
  destruct (Thread_candidate max words wpm fw s) as [[[r|] s1]|]; simpl; [| |done].
  - destruct (zget words fw) as [wd|]; simpl; [|done].
    rewrite IH.
    destruct (Thread_events max words wpm count (fw + 1) s1) as [[evs s2]|]; done.
  - rewrite IH.
    destruct (Thread_events max words wpm count (fw + 1) s1) as [[evs s2]|]; done.
Qed.

End Record.



(** ** The buffers of a worker *)

Section ThreadFrames.
Context `{ops : FloatOps}.

Lemma Recurse_frame (ng max n : Z) (s s' : list (list Z)) (wpm : table)
    (r : option F) :
  Recurse ng max s n wpm = Done (r, s') -> same_below ng s s'.
Proof. unfold Recurse. apply Recurse_fuel_frame. Qed.

Lemma Thread_branch_frame (max num_words first_word : Z) (wpm : table)
    (pattern : list bool) (st : F * bool * list (list Z))
    (r : ctl (F * bool * list (list Z))) :
  Thread_branch max num_words wpm first_word pattern st = Done r ->
  same_below 0 (snd st) (snd (ctl_state r)).
Proof.
  destruct st as [[result valid] s]. unfold Thread_branch. intros H.
  apply bind_Done in H as ([k s1] & Hp & H). apply partition_all_frame in Hp.
  apply bind_Done in H as (nwl & _ & H). apply bind_Done in H as (first & _ & H).
  destruct (first =? first_word).
  - by injection H as <-.
  - apply bind_Done in H as ([nr s2] & Hr & H). apply Recurse_frame in Hr.
    apply (same_below_weaken 0) in Hr; [|lia].
    destruct nr; injection H as <-; simpl; by eapply same_below_trans.
Qed.

Lemma Thread_candidate_frame (max first_word : Z) (words : list word) (wpm : table)
    (s s' : list (list Z)) (v : option F) :
  Thread_candidate max words wpm first_word s = Done (v, s') -> same_below 0 s s'.
Proof.
  unfold Thread_candidate. intros H.
  apply bind_Done in H as (rows & _ & H). apply bind_Done in H as (r & Hl & H).
  apply (foreach_break_inv (fun st => same_below 0 s (snd st))) in Hl.
  - destruct (ctl_state r) as [[result valid] s1]. simpl in Hl.
    destruct valid; by injection H as _ <-.
  - intros a st r' Hst Hb. eapply same_below_trans; [exact Hst |].
    by eapply Thread_branch_frame.
  - apply same_below_refl.
Qed.

Lemma Thread_step_frame (max first_word : Z) (words : list word) (wpm : table)
    (st st' : list (list Z) * shared) :
  Thread_step max words wpm first_word st = Done st' ->
  same_below 0 (fst st) (fst st').
Proof.
  destruct st as [s sh]. unfold Thread_step. intros H.
  apply bind_Done in H as ([v s1] & Hv & H). apply Thread_candidate_frame in Hv.
  destruct v as [r|].
  - apply bind_Done in H as (wd & _ & H). by injection H as <-.
  - by injection H as <-.
Qed.

End ThreadFrames.

Lemma allocated_buffer (max : Z) (num_words : nat) (s0 s : list (list Z))
    (buf0 : list Z) :
  new_scratch max num_words = Done s0 -> zget s0 0 = Done buf0 ->
  shape s = shape s0 ->
  exists buf, zget s 0 = Done buf /\ length buf = num_words.
Proof.
  unfold new_scratch. destruct (max <? 0); [done |]. intros [= <-] Hb Hs.
  apply zget_Done in Hb as [_ Hb]. change (Z.to_nat 0) with 0%nat in Hb.
  apply lookup_replicate in Hb as [-> Hmax].
  assert (shape s !! 0%nat = Some num_words) as H.
  { rewrite Hs. unfold shape. rewrite list_lookup_fmap, lookup_replicate_2 by done.
    simpl. by rewrite length_replicate. }
  unfold shape in H. rewrite list_lookup_fmap in H.
  destruct (s !! 0%nat) as [buf|] eqn:E; [|done]. injection H as H.
  exists buf. split; [|done]. apply zget_Done. split; [lia | done].
Qed.

(** ** The first read of [Thread] *)

(** C10.  In [Thread] the buffers keep the sizes they were allocated with.
    For a row kept in the trimmed table of a first guess, the partition of
    the whole vocabulary into buffer 0 writes at least one word
    ([new_num_words_left >= 1]); so [next_words_left[0]], read next, is the
    first word the current row keeps, whatever the buffer held before. *)
Theorem C10_first_read_is_fresh `{ops : FloatOps} (words : list word) (t : table)
    (max_num_guesses first_word : Z) (rows : list (list bool)) (pattern : list bool)
    (s0 s : list (list Z)) (buf0 : list Z) :
  Forall wf_word words ->
  ComputeWordPatternMatches words = Done t ->
  zget (TrimWordPatternMatches t) first_word = Done rows -> pattern ∈ rows ->
  new_scratch max_num_guesses (length words) = Done s0 ->
  zget s0 0 = Done buf0 ->
  shape s = shape s0 ->
  (exists (new_num_words_left first : Z) (s1 : list (list Z))
          (next_words_left : list Z),
     partition_all pattern (Z.of_nat (length words)) s = Done (new_num_words_left, s1)
     /\ new_num_words_left >= 1
     /\ zget s1 0 = Done next_words_left
     /\ zget next_words_left 0 = Done first
     /\ head (kept pattern (seqZ 0 (Z.of_nat (length words)))) = Some first
     /\ keeps pattern first = true)
  /\ (forall (result : F) (valid : bool) (wpm : table)
             (r : ctl (F * bool * list (list Z))),
        Thread_branch max_num_guesses (Z.of_nat (length words)) wpm first_word
                      pattern (result, valid, s) = Done r ->
        shape (snd (ctl_state r)) = shape s0)
  /\ (forall (wpm : table) (sh sh' : shared) (s' : list (list Z)),
        Thread_step max_num_guesses words wpm first_word (s, sh) = Done (s', sh') ->
        shape s' = shape s0).
Proof.
  intros Hwf Ht Hrows Hpat Hnew Hb0 Hshape. split_and!.
  - destruct (allocated_buffer _ _ _ _ _ Hnew Hb0 Hshape) as (buf & Hbuf & Hlen).
    pose proof (Compute_filled words t Hwf Ht) as Hf.
    destruct (trimmed_row t first_word rows pattern Hrows Hpat)
      as (rows0 & Hr0 & Hp0 & a & Ha).
    destruct (row_keeps words t Hf first_word rows0 pattern a Hr0 Hp0 Ha) as (Har & _).
    destruct (table_row words t Hf first_word rows0 pattern Hr0 Hp0)
      as (_ & _ & _ & Hl & _).
    assert (a ∈ kept pattern (seqZ 0 (Z.of_nat (length words)))) as Hin.
    { apply kept_keeps. split; [done |]. apply elem_of_seqZ. lia. }
    destruct (kept pattern (seqZ 0 (Z.of_nat (length words)))) as [|first rest] eqn:Hkept;
      [by apply elem_of_nil in Hin |].
    assert (length (first :: rest) <= length words)%nat as Hle.
    { rewrite <- Hkept. unfold kept.
      etransitivity; [apply length_filter |]. rewrite length_seqZ. lia. }
    exists (Z.of_nat (length (first :: rest))), first.
    exists (<[0%nat := (first :: rest) ++ drop (length (first :: rest)) buf]> s).
    exists ((first :: rest) ++ drop (length (first :: rest)) buf).
    rewrite (partition_all_spec _ _ _ _ Hbuf). unfold partition_result.
    rewrite (take_ge (seqZ 0 (Z.of_nat (length words))))
      by (rewrite length_seqZ; lia).
    rewrite Hkept. apply zget_Done in Hbuf as [_ Hbuf].
    change (Z.to_nat 0) with 0%nat in Hbuf.
    rewrite decide_True.
    2:{ split_and!; [rewrite length_seqZ; lia | | lia].
        apply Forall_forall. intros x Hx%elem_of_seqZ. unfold in_row. lia. }
    split_and!; [done | simpl; lia | | done | done |].
    + apply zget_Done. split; [lia |]. apply list_lookup_insert_eq.
      by apply lookup_lt_Some in Hbuf.
    + apply (kept_keeps pattern (seqZ 0 (Z.of_nat (length words)))).
      rewrite Hkept. by left.
  - intros result valid wpm r Hr.
    apply Thread_branch_frame in Hr as (_ & _ & Hs). simpl in Hs. congruence.
  - intros wpm sh sh' s' Hstep.
    apply Thread_step_frame in Hstep as (_ & _ & Hs). simpl in Hs. congruence.
Qed.

Lemma C10_witness :
  (exists (new_num_words_left first : Z) (s1 : list (list Z))
          (next_words_left : list Z),
     partition_all [false; true] (Z.of_nat (length two_words)) [[7; 7]; [0; 0]]
     = Done (new_num_words_left, s1)
     /\ new_num_words_left >= 1
     /\ zget s1 0 = Done next_words_left
     /\ zget next_words_left 0 = Done first
     /\ head (kept [false; true] (seqZ 0 (Z.of_nat (length two_words)))) = Some first
     /\ keeps [false; true] first = true)
  /\ (forall (result : @F binary32) (valid : bool) (wpm : table)
             (r : ctl (@F binary32 * bool * list (list Z))),
        @Thread_branch binary32 2 (Z.of_nat (length two_words)) wpm 0
                       [false; true] (result, valid, [[7; 7]; [0; 0]]) = Done r ->
        shape (snd (ctl_state r)) = shape [[0; 0]; [0; 0]])
  /\ (forall (wpm : table) (sh sh' : @shared binary32) (s' : list (list Z)),
        @Thread_step binary32 2 two_words wpm 0 ([[7; 7]; [0; 0]], sh) = Done (s', sh') ->
        shape s' = shape [[0; 0]; [0; 0]]).
Proof.
  apply (@C10_first_read_is_fresh binary32 two_words two_words_table 2 0
           [[false; true]; [true; false]] [false; true]
           [[0; 0]; [0; 0]] [[7; 7]; [0; 0]] [0; 0]).
  - exact two_words_wf.
  - exact two_words_table_eq.
  - vm_compute. reflexivity.
  - apply list_elem_of_here.
  - reflexivity.
  - reflexivity.
  - reflexivity.
Defined.

(** ** Schedules of the workers *)

Lemma concat_all_nil {A : Type} (ls : list (list A)) :
  Forall (fun l => l = []) ls -> concat ls = [].
Proof. induction 1 as [|l ls -> _ IH]; [done | by simpl]. Qed.

Lemma interleaving_Permutation {A : Type} (ls : list (list A)) (r : list A) :
  interleaving ls r -> r ≡ₚ concat ls.
Proof.
  induction 1 as [ls Hnil|ls1 ls2 x l r _ IH].
  - by rewrite concat_all_nil.
  - rewrite concat_app in *. simpl in *. rewrite IH.
    by rewrite Permutation_middle.
Qed.

(** ** The final record *)

Section FinalRecord.
Context `{ops : FloatOps} `{cmp : !FloatCompare}.

(** Whatever the order of the reports, the record ends as their minimum. *)
Lemma reduce_minimum (evs l : list event) (sh0 : shared) :
  min_expected sh0 = None ->
  Forall (fun e => ordered (event_value e)) evs ->
  l ≡ₚ evs -> evs <> [] ->
  exists e, e ∈ evs
            /\ min_expected (reduce sh0 l) = Some (event_value e)
            /\ best_word (reduce sh0 l) = event_index e
            /\ forall e', e' ∈ evs -> no_worse e e'.
Proof.
  intros Hnone Hord Hl Hne.
  assert (record_inv sh0 []) as H0 by (unfold record_inv; by rewrite Hnone).
  apply (reduce_inv l) in H0; [|simpl; by rewrite Hl]. simpl in H0.
  unfold record_inv in H0. destruct (min_expected (reduce sh0 l)) as [m|] eqn:Hm.
  - destruct H0 as (e & Hin & Hv & Hi & Hall). exists e.
    split_and!; [by rewrite <- Hl | by rewrite Hv | done |].
    intros e' He'. apply Hall. by rewrite Hl.
  - subst l. symmetry in Hl. by apply Permutation_nil_r in Hl.
Qed.

Lemma minimum_unique (evs : list event) (e1 e2 : event) :
  NoDup (event_index <$> evs) -> e1 ∈ evs -> e2 ∈ evs ->
  (forall e', e' ∈ evs -> no_worse e1 e') ->
  (forall e', e' ∈ evs -> no_worse e2 e') ->
  e1 = e2.
Proof.
  intros Hnd H1 H2 Hall1 Hall2. apply (NoDup_index_inj evs); [done..|].
  apply no_worse_antisym; auto.
Qed.

End FinalRecord.

(** C7.  In the critical section of [Thread] the shared record
    [(min_expected, best_word)] is replaced by the candidate exactly when
    there is no best yet, or the candidate's value is strictly lower, or it
    is equal with a strictly lower index; otherwise the record is kept.
    The effect of a worker on the shared state is that of its reports taken
    in turn.  Hence, in whatever order the critical sections of the workers
    follow one another (values that are not NaN, one report per index), the
    final record is the minimum of (value, index) in lexicographic order over
    all reports, the same for every order. *)
Theorem C7_best_record_is_lexicographic_minimum
    `{ops : FloatOps} `{cmp : !FloatCompare} :
  (forall (sh : shared) (result : F) (first_word : Z) (wd : list ascii),
     (better sh result first_word = true <->
        min_expected sh = None
        \/ exists m, min_expected sh = Some m
                     /\ (flt result m = true
                         \/ (feq result m = true /\ first_word < best_word sh)))
     /\ (better sh result first_word = true ->
           min_expected (report sh result first_word wd) = Some result
           /\ best_word (report sh result first_word wd) = first_word)
     /\ (better sh result first_word = false ->
           min_expected (report sh result first_word wd) = min_expected sh
           /\ best_word (report sh result first_word wd) = best_word sh))
  /\ (forall (max_num_guesses : Z) (words : list word) (word_pattern_matches : table)
             (start end_ : Z) (s : list (list Z)) (sh : shared),
        for_loop start end_
          (Thread_step max_num_guesses words word_pattern_matches) (s, sh)
        = let* (evs, s') :=
            Thread_events max_num_guesses words word_pattern_matches
                          (Z.to_nat (end_ - start)) start s in
          Done (s', reduce sh evs))
  /\ (forall (per_worker : list (list event)) (schedule : list event) (sh0 : shared),
        min_expected sh0 = None ->
        Forall (fun e => ordered (event_value e)) (concat per_worker) ->
        NoDup (event_index <$> concat per_worker) ->
        concat per_worker <> [] ->
        interleaving per_worker schedule ->
        (exists e, e ∈ concat per_worker
                   /\ min_expected (reduce sh0 schedule) = Some (event_value e)
                   /\ best_word (reduce sh0 schedule) = event_index e
                   /\ forall e', e' ∈ concat per_worker -> no_worse e e')
        /\ forall schedule', interleaving per_worker schedule' ->
             min_expected (reduce sh0 schedule') = min_expected (reduce sh0 schedule)
             /\ best_word (reduce sh0 schedule') = best_word (reduce sh0 schedule)).
Proof.
  split_and!.
  - intros sh r i wd. destruct (report_record sh r i wd) as [Hm Hb].
    split_and!; [apply better_spec | |]; intros E; rewrite Hm, Hb, E; done.
  - intros max words wpm start end_ s sh. unfold for_loop. apply thread_loop.
  - intros per_worker schedule sh0 Hnone Hord Hnd Hne Hsched.
    apply interleaving_Permutation in Hsched.
    destruct (reduce_minimum _ _ sh0 Hnone Hord Hsched Hne)
      as (e1 & Hin1 & Hm1 & Hb1 & Hall1).
    split; [by exists e1 |]. intros schedule' Hsched'.
    apply interleaving_Permutation in Hsched'.
    destruct (reduce_minimum _ _ sh0 Hnone Hord Hsched' Hne)
      as (e2 & Hin2 & Hm2 & Hb2 & Hall2).
    assert (e2 = e1) as -> by (by eapply minimum_unique).
    split; congruence.
Qed.

Lemma C7_witness :
  let one_half := S754_finite false 12582912 (-23) in
  let sh0 : @shared binary32 := @Build_shared binary32 [] None 7 in
  let per_worker : list (list (@event binary32)) :=
    [[(one_half, 0, w "abcde")]; [(one_half, 1, w "fghij")]] in
  let schedule : list (@event binary32) :=
    [(one_half, 1, w "fghij"); (one_half, 0, w "abcde")] in
  (exists e, e ∈ concat per_worker
             /\ min_expected (reduce sh0 schedule) = Some (event_value e)
             /\ best_word (reduce sh0 schedule) = event_index e
             /\ forall e', e' ∈ concat per_worker -> no_worse e e')
  /\ forall schedule', interleaving per_worker schedule' ->
       min_expected (reduce sh0 schedule') = min_expected (reduce sh0 schedule)
       /\ best_word (reduce sh0 schedule') = best_word (reduce sh0 schedule).
Proof.
  intros one_half sh0 per_worker schedule.
  apply (proj2 (proj2 (@C7_best_record_is_lexicographic_minimum binary32 _))
           per_worker schedule sh0).
  - reflexivity.
  - repeat constructor.
  - apply NoDup_cons. split; [|apply NoDup_singleton].
    intros H%list_elem_of_singleton. discriminate.
  - discriminate.
  - apply (interleaving_cons [[(one_half, 0, w "abcde")]] [] (one_half, 1, w "fghij") []).
    apply (interleaving_cons [] [[]] (one_half, 0, w "abcde") []).
    apply interleaving_nil. repeat constructor.
Defined.

(** ** Working sets list no word twice *)

Lemma kept_NoDup (pattern : list bool) (ws : list Z) :
  NoDup ws -> NoDup (kept pattern ws).
Proof. unfold kept. apply NoDup_filter. Qed.

Lemma partition_words_left_NoDup (pattern : list bool) (ng n k : Z)
    (s s1 : list (list Z)) (prev buf nwl : list Z) :
  zget s (ng - 1) = Done prev -> zget s ng = Done buf ->
  partition_words_left pattern ng n s = Done (k, s1) ->
  zget s1 ng = Done nwl ->
  NoDup (take (Z.to_nat n) prev) -> NoDup (take (Z.to_nat k) nwl).
Proof.
  intros Hprev Hbuf Hpart Hnwl Hnd.
  rewrite (partition_words_left_spec _ _ _ _ _ _ Hprev Hbuf) in Hpart.
  apply zget_Done in Hbuf as [_ Hbuf].
  apply partition_result_Done in Hpart as (_ & _ & _ & nwl' & Hn1 & Htake & _); [|done].
  apply zget_Done in Hnwl as [_ Hnwl]. rewrite Hn1 in Hnwl. injection Hnwl as ->.
  rewrite Htake. by apply kept_NoDup.
Qed.

Lemma partition_all_NoDup (pattern : list bool) (num_words k : Z)
    (s s1 : list (list Z)) (buf nwl : list Z) :
  zget s 0 = Done buf ->
  partition_all pattern num_words s = Done (k, s1) ->
  zget s1 0 = Done nwl -> NoDup (take (Z.to_nat k) nwl).
Proof.
  intros Hbuf Hpart Hnwl. rewrite (partition_all_spec _ _ _ _ Hbuf) in Hpart.
  apply zget_Done in Hbuf as [_ Hbuf]. change (Z.to_nat 0) with 0%nat in Hbuf.
  apply partition_result_Done in Hpart as (_ & _ & _ & nwl' & Hn1 & Htake & _); [|done].
  apply zget_Done in Hnwl as [_ Hnwl]. change (Z.to_nat 0) with 0%nat in Hnwl.
  rewrite Hn1 in Hnwl. injection Hnwl as ->.
  rewrite Htake. apply kept_NoDup.
  rewrite take_ge by (rewrite length_seqZ; lia). apply NoDup_seqZ.
Qed.

(** ** The engine on small vocabularies *)

(** One word: it is played, with expected value 1. *)
Lemma one_word_vocabulary :
  (let* t := ComputeWordPatternMatches [w "abcde"] in
   @Thread binary32 0 1 kMaxNumGuesses [w "abcde"] (TrimWordPatternMatches t) no_best)
  = Done (@Build_shared binary32
            [(S754_finite false 8388608 (-23), w "abcde")]
            (Some (S754_finite false 8388608 (-23))) 0).
Proof. lazymatch goal with |- _ = ?r => vm_cast_no_check (eq_refl r) end. Qed.

(** Two unrelated words: either first guess has expected value 1.5, the
    lower index is kept. *)
Lemma two_word_vocabulary :
  @Thread binary32 0 2 kMaxNumGuesses two_words
          (TrimWordPatternMatches two_words_table) no_best
  = Done (@Build_shared binary32
            [(S754_finite false 12582912 (-23), w "abcde");
             (S754_finite false 12582912 (-23), w "fghij")]
            (Some (S754_finite false 12582912 (-23))) 0).
Proof. lazymatch goal with |- _ = ?r => vm_cast_no_check (eq_refl r) end. Qed.

(** [Thread] has no test for an empty subset: on the table that was not
    trimmed it calls [Recurse] with no word left and drops every first
    guess. *)
Lemma Thread_needs_trimmed_table :
  @Thread binary32 0 2 kMaxNumGuesses two_words two_words_table no_best
  = Done no_best.
Proof. lazymatch goal with |- _ = ?r => vm_cast_no_check (eq_refl r) end. Qed.

(** ** Loops that return *)

Lemma for_count_total {S : Type} (P : S -> Prop) (body : Z -> S -> outcome S) (n : nat) :
  forall (i : Z) (s : S),
  (forall j s, i <= j < i + Z.of_nat n -> P s -> exists s', body j s = Done s' /\ P s') ->
  P s -> exists s', for_count n i body s = Done s' /\ P s'.
Proof.
  induction n as [|n IH]; intros i s Hbody Hs.
  - exists s. by split.
  - rewrite for_count_S. destruct (Hbody i s ltac:(lia) Hs) as (s1 & -> & Hs1).
    rewrite bind_Done_l. apply IH; [|done]. intros j s2 Hj. apply Hbody. lia.
Qed.

Lemma foreach_break_total {A S : Type} (P : S -> Prop)
    (body : A -> S -> outcome (ctl S)) (l : list A) :
  forall s : S,
  (forall a s, a ∈ l -> P s -> exists r, body a s = Done r /\ P (ctl_state r)) ->
  P s -> exists r, foreach_break l body s = Done r /\ P (ctl_state r).
Proof.
  induction l as [|a l IH]; intros s Hbody Hs; simpl.
  - exists (Next s). by split.
  - destruct (Hbody a s ltac:(by left) Hs) as (r & -> & Hr). rewrite bind_Done_l.
    destruct r as [s1|s1]; simpl in *.
    + apply IH; [|done]. intros b s2 Hb. apply Hbody. by right.
    + exists (Break s1). by split.
Qed.

(** ** The search stays inside its vectors *)

Lemma kept_length (pattern : list bool) (ws : list Z) :
  (length (kept pattern ws) <= length ws)%nat.
Proof. unfold kept. apply length_filter. Qed.

Lemma kept_Forall (P : Z -> Prop) (pattern : list bool) (ws : list Z) :
  Forall P ws -> Forall P (kept pattern ws).
Proof.
  intros H. apply Forall_forall. intros a [_ Ha]%kept_keeps.
  by apply (proj1 (Forall_forall _ _) H).
Qed.

Lemma shape_Forall (V : nat) (s s' : list (list Z)) :
  shape s' = shape s ->
  Forall (fun b : list Z => length b = V) s -> Forall (fun b : list Z => length b = V) s'.
Proof.
  intros Hshape Hall. apply Forall_lookup. intros i b Hb.
  assert (shape s' !! i = Some (length b)) as H
    by (unfold shape; by rewrite list_lookup_fmap, Hb).
  rewrite Hshape in H. unfold shape in H. rewrite list_lookup_fmap in H.
  destruct (s !! i) as [b0|] eqn:E; [|done]. injection H as <-.
  apply (Forall_lookup_1 _ _ _ _ Hall E).
Qed.

Lemma scratch_fits_same_below (V : nat) (max ng n : Z) (s s' : list (list Z)) :
  scratch_fits V max ng n s -> same_below ng s s' -> scratch_fits V max ng n s'.
Proof.
  intros (Hlen & Hall & prev & Hprev & Hok) (Hl & Hsame & Hshape). split_and!.
  - lia.
  - by eapply shape_Forall.
  - exists prev. split; [|done]. apply zget_Done in Hprev as [H0 Hprev].
    apply zget_Done. split; [done |]. rewrite <- Hprev. apply Hsame. lia.
Qed.

(** The partition of the working set returns, and the buffer it wrote
    holds the subset at its front. *)
Lemma partition_words_left_fits (V : nat) (max ng n : Z) (s : list (list Z))
    (pattern : list bool) :
  1 <= ng < max -> length pattern = V -> scratch_fits V max ng n s ->
  exists k s1, partition_words_left pattern ng n s = Done (k, s1)
    /\ same_below ng s s1
    /\ scratch_fits V max (ng + 1) k s1
    /\ (k > 0 -> exists nwl first, zget s1 ng = Done nwl /\ zget nwl 0 = Done first).
Proof.
  intros Hng Hpat Hfit. pose proof Hfit as (Hlen & Hall & prev & Hprev & Hn & Hin).
  destruct (zget_in_range s ng ltac:(lia)) as [buf Hbuf].
  assert (length prev = V /\ length buf = V) as [Lp Lb].
  { apply zget_Done in Hprev as [_ Hprev], Hbuf as [_ Hbuf].
    split; [apply (Forall_lookup_1 _ _ _ _ Hall Hprev)
           | apply (Forall_lookup_1 _ _ _ _ Hall Hbuf)]. }
  pose proof (partition_words_left_spec pattern ng n s prev buf Hprev Hbuf) as Hspec.
  pose proof (kept_length pattern (take (Z.to_nat n) prev)) as Hk.
  rewrite length_take in Hk.
  unfold partition_result in Hspec. rewrite decide_True in Hspec.
  2:{ split_and!; [done | | lia].
      eapply Forall_impl; [exact Hin |]. intros w Hw. unfold in_row. by rewrite Hpat. }
  eexists _, _. split; [exact Hspec |].
  pose proof (partition_words_left_frame _ _ _ _ _ _ Hspec) as Hframe.
  apply zget_Done in Hbuf as [_ Hbuf]. pose proof (lookup_lt_Some _ _ _ Hbuf) as Hlt.
  assert (zget (<[Z.to_nat ng := kept pattern (take (Z.to_nat n) prev)
                     ++ drop (length (kept pattern (take (Z.to_nat n) prev))) buf]> s) ng
          = Done (kept pattern (take (Z.to_nat n) prev)
                  ++ drop (length (kept pattern (take (Z.to_nat n) prev))) buf)) as Hnew.
  { apply zget_Done. split; [lia |]. by apply list_lookup_insert_eq. }
  split_and!; [done | | ].
  - destruct Hframe as (Hl & _ & Hshape). split_and!.
    + lia.
    + by eapply shape_Forall.
    + eexists. replace (ng + 1 - 1) with ng by lia. split; [exact Hnew |]. split.
      * rewrite length_app, length_drop. lia.
      * rewrite Nat2Z.id, take_app_length. by apply kept_Forall.
  - intros Hpos.
    destruct (kept pattern (take (Z.to_nat n) prev)) as [|first rest] eqn:E;
      [simpl in Hpos; lia |].
    eexists _, first. split; [exact Hnew | reflexivity].
Qed.

Section Safety.
Context `{ops : FloatOps}.
Variable V : nat.
Variable max : Z.
Variable wpm : table.
Hypothesis wpm_fits : table_fits V wpm.

Lemma Recurse_branch_safe recurse (ng n next_word : Z) (pattern : list bool)
    (st : F * bool * list (list Z)) :
  1 <= ng < max -> length pattern = V -> scratch_fits V max ng n (snd st) ->
  (forall k s1, scratch_fits V max (ng + 1) k s1 -> exists r s2, recurse k s1 = Done (r, s2)) ->
  exists r, Recurse_branch recurse ng n next_word pattern st = Done r.
Proof.
  intros Hng Hpat Hfit Hrec. destruct st as [[result valid] s]. simpl in Hfit.
  unfold Recurse_branch.
  destruct (partition_words_left_fits V max ng n s pattern Hng Hpat Hfit)
    as (k & s1 & -> & _ & Hfit1 & Hfirst).
  rewrite bind_Done_l. destruct (Z.gtb_spec k 0) as [Hk|Hk]; [|eauto].
  destruct (Hfirst ltac:(lia)) as (nwl & first & -> & Hf). rewrite bind_Done_l, Hf, bind_Done_l.
  destruct (first =? next_word); [eauto |].
  destruct (Hrec k s1 Hfit1) as (r & s2 & ->). rewrite bind_Done_l.
  destruct r; eauto.
Qed.

Lemma Recurse_value_safe recurse (ng n next : Z) (s : list (list Z)) :
  1 <= ng < max -> 0 <= next < n -> scratch_fits V max ng n s ->
  frames (ng + 1) recurse ->
  (forall k s1, scratch_fits V max (ng + 1) k s1 -> exists r s2, recurse k s1 = Done (r, s2)) ->
  exists v s', Recurse_value recurse ng n wpm next s = Done (v, s').
Proof.
  intros Hng Hnext Hfit Hfr Hrec. pose proof Hfit as (Hlen & Hall & prev & Hprev & Hn & Hin).
  unfold Recurse_value. rewrite Hprev, bind_Done_l.
  destruct (zget_in_range prev next ltac:(lia)) as [next_word Hw]. rewrite Hw, bind_Done_l.
  assert (0 <= next_word < Z.of_nat V) as Hrange.
  { apply zget_Done in Hw as [_ Hw].
    apply (Forall_lookup_1 _ _ (Z.to_nat next) _ Hin).
    rewrite lookup_take_lt by lia. done. }
  destruct wpm_fits as [Lw Hrows].
  destruct (zget_in_range wpm next_word ltac:(lia)) as [rows Hr]. rewrite Hr, bind_Done_l.
  apply zget_Done in Hr as [_ Hr]. pose proof (Forall_lookup_1 _ _ _ _ Hrows Hr) as Hrl.
  destruct (foreach_break_total (fun st => same_below ng s (snd st))
              (Recurse_branch recurse ng n next_word) rows (of_int 0, true, s))
    as (r & -> & _).
  - intros row st Hrow Hst.
    destruct (Recurse_branch_safe recurse ng n next_word row st) as [r Hb]; try done.
    + by apply (proj1 (Forall_forall _ _) Hrl).
    + by eapply scratch_fits_same_below.
    + exists r. split; [done |]. eapply same_below_trans; [exact Hst |].
      by eapply Recurse_branch_frame.
  - apply same_below_refl.
  - rewrite bind_Done_l. destruct (ctl_state r) as [[result []] s']; eauto.
Qed.

Lemma Recurse_fuel_safe (fuel : nat) : forall (ng n : Z) (s : list (list Z)),
  1 <= ng <= max -> scratch_fits V max ng n s ->
  Z.of_nat (length s) <= Z.of_nat fuel + ng ->
  exists r s', Recurse_fuel fuel ng max wpm n s = Done (r, s').
Proof.
  induction fuel as [|fuel IH]; intros ng n s Hng Hfit Hfuel;
    pose proof Hfit as (Hlen & Hall & prev & Hprev & Hn & Hin); simpl.
  - destruct (Z.eqb_spec ng max); [eauto |]. destruct (n =? 1); [eauto |]. lia.
  - destruct (Z.eqb_spec ng max); [eauto |]. destruct (n =? 1); [eauto |].
    rewrite Hprev, bind_Done_l.
    destruct (zget_in_range s ng ltac:(lia)) as [buf ->]. rewrite bind_Done_l.
    unfold for_loop.
    destruct (for_count_total (fun st => same_below ng s (snd st))
                (Recurse_candidate (Recurse_fuel fuel (ng + 1) max wpm) ng n wpm)
                (Z.to_nat (n - 0)) 0 (None, s)) as ([m s'] & -> & _);
      [| apply same_below_refl | eauto].
    intros next [m s1] Hnext Hs1. simpl in Hs1.
    assert (exists st', Recurse_candidate (Recurse_fuel fuel (ng + 1) max wpm) ng n wpm
                          next (m, s1) = Done st') as [st' Hst'].
    { unfold Recurse_candidate.
      destruct (Recurse_value_safe (Recurse_fuel fuel (ng + 1) max wpm) ng n next s1)
        as (v & s2 & ->); [lia | lia | by eapply scratch_fits_same_below
                          | apply Recurse_fuel_frame | |].
      - intros k s3 Hfit3. apply IH; [lia | done |].
        destruct Hfit3 as (Hl3 & _). lia.
      - rewrite bind_Done_l. destruct v; eauto. }
    exists st'. split; [done |]. eapply same_below_trans; [exact Hs1 |].
    eapply (Recurse_candidate_frame _ _ _ _ _ (m, s1)); [|exact Hst'].
    apply Recurse_fuel_frame.
Qed.

End Safety.

(** The partition of the whole vocabulary returns. *)
Lemma partition_all_fits (V : nat) (max : Z) (s : list (list Z)) (pattern : list bool) :
  1 <= max -> length pattern = V ->
  Z.of_nat (length s) = max -> Forall (fun b : list Z => length b = V) s ->
  exists k s1, partition_all pattern (Z.of_nat V) s = Done (k, s1)
    /\ scratch_fits V max 1 k s1
    /\ ((0 < V)%nat -> exists nwl first, zget s1 0 = Done nwl /\ zget nwl 0 = Done first).
Proof.
  intros Hmax Hpat Hlen Hall.
  destruct (zget_in_range s 0 ltac:(lia)) as [buf Hbuf].
  assert (length buf = V) as Lb.
  { apply zget_Done in Hbuf as [_ Hbuf]. apply (Forall_lookup_1 _ _ _ _ Hall Hbuf). }
  pose proof (partition_all_spec pattern (Z.of_nat V) s buf Hbuf) as Hspec.
  pose proof (kept_length pattern (take (Z.to_nat (Z.of_nat V)) (seqZ 0 (Z.of_nat V)))) as Hk.
  rewrite length_take, length_seqZ in Hk.
  assert (Forall (fun word => 0 <= word < Z.of_nat V)
                 (take (Z.to_nat (Z.of_nat V)) (seqZ 0 (Z.of_nat V)))) as Hin.
  { rewrite take_ge by (rewrite length_seqZ; lia).
    apply Forall_forall. intros x Hx%elem_of_seqZ. lia. }
  unfold partition_result in Hspec. rewrite decide_True in Hspec.
  2:{ split_and!; [rewrite length_seqZ; lia | | lia].
      eapply Forall_impl; [exact Hin |]. intros w Hw. unfold in_row. by rewrite Hpat. }
  eexists _, _. split; [exact Hspec |].
  pose proof (partition_all_frame _ _ _ _ _ Hspec) as (Hl & _ & Hshape).
  apply zget_Done in Hbuf as [_ Hbuf]. pose proof (lookup_lt_Some _ _ _ Hbuf) as Hlt.
  change (Z.to_nat 0) with 0%nat in *.
  set (ks := kept pattern (take (Z.to_nat (Z.of_nat V)) (seqZ 0 (Z.of_nat V)))) in *.
  assert (zget (<[0%nat := ks ++ drop (length ks) buf]> s) 0
          = Done (ks ++ drop (length ks) buf)) as Hnew.
  { apply zget_Done. split; [lia |]. by apply list_lookup_insert_eq. }
  split.
  - split_and!; [lia | by eapply shape_Forall |].
    eexists. split; [exact Hnew |]. split.
    + rewrite length_app, length_drop. lia.
    + rewrite Nat2Z.id, take_app_length. by apply kept_Forall.
  - intros HV. eexists. 
    destruct (zget_in_range (ks ++ drop (length ks) buf) 0) as [first Hf].
    { rewrite length_app, length_drop. lia. }
    exists first. by split.
Qed.

Section ThreadSafety.
Context `{ops : FloatOps}.
Variable words : list word.
Variable max : Z.
Variable wpm : table.
Hypothesis wpm_fits : table_fits (length words) wpm.
Hypothesis max_pos : 1 <= max.

Lemma Recurse_safe (ng n : Z) (s : list (list Z)) :
  1 <= ng <= max -> scratch_fits (length words) max ng n s ->
  exists r s', Recurse ng max s n wpm = Done (r, s').
Proof.
  intros Hng Hfit. unfold Recurse.
  apply (Recurse_fuel_safe (length words) max wpm wpm_fits); [done | done | lia].
Qed.

Lemma Thread_branch_safe (first_word : Z) (pattern : list bool)
    (st : F * bool * list (list Z)) :
  (0 < length words)%nat -> length pattern = length words ->
  Z.of_nat (length (snd st)) = max ->
  Forall (fun b : list Z => length b = length words) (snd st) ->
  exists r, Thread_branch max (Z.of_nat (length words)) wpm first_word pattern st = Done r.
Proof.
  intros HV Hpat Hlen Hall. destruct st as [[result valid] s]. simpl in *.
  unfold Thread_branch.
  destruct (partition_all_fits (length words) max s pattern max_pos Hpat Hlen Hall)
    as (k & s1 & -> & Hfit1 & Hfirst).
  rewrite bind_Done_l.
  destruct (Hfirst HV) as (nwl & first & -> & Hf). rewrite bind_Done_l, Hf, bind_Done_l.
  destruct (first =? first_word); [eauto |].
  destruct (Recurse_safe 1 k s1 ltac:(lia) Hfit1) as (r & s2 & ->). rewrite bind_Done_l.
  destruct r; eauto.
Qed.

Lemma Thread_candidate_safe (first_word : Z) (s : list (list Z)) :
  0 <= first_word < Z.of_nat (length words) ->
  Z.of_nat (length s) = max ->
  Forall (fun b : list Z => length b = length words) s ->
  exists v s', Thread_candidate max words wpm first_word s = Done (v, s').
Proof.
  intros Hfw Hlen Hall. unfold Thread_candidate.
  destruct wpm_fits as [Lw Hrows].
  destruct (zget_in_range wpm first_word ltac:(lia)) as [rows Hr]. rewrite Hr, bind_Done_l.
  apply zget_Done in Hr as [_ Hr]. pose proof (Forall_lookup_1 _ _ _ _ Hrows Hr) as Hrl.
  destruct (foreach_break_total (fun st => same_below 0 s (snd st))
              (Thread_branch max (Z.of_nat (length words)) wpm first_word)
              rows (of_int 0, true, s))
    as (r & -> & _).
  - intros row st Hrow Hst. pose proof Hst as [Hl [_ Hshape]].
    destruct (Thread_branch_safe first_word row st) as [r Hb]; try done.
    + lia.
    + by apply (proj1 (Forall_forall _ _) Hrl).
    + lia.
    + by eapply shape_Forall.
    + exists r. split; [done |]. eapply same_below_trans; [exact Hst |].
      by eapply Thread_branch_frame.
  - apply same_below_refl.
  - rewrite bind_Done_l. destruct (ctl_state r) as [[result []] s']; eauto.
Qed.

Lemma Thread_step_safe (first_word : Z) (st : list (list Z) * shared) :
  0 <= first_word < Z.of_nat (length words) ->
  Z.of_nat (length (fst st)) = max ->
  Forall (fun b : list Z => length b = length words) (fst st) ->
  exists st', Thread_step max words wpm first_word st = Done st'.
Proof.
  intros Hfw Hlen Hall. destruct st as [s sh]. unfold Thread_step.
  destruct (Thread_candidate_safe first_word s Hfw Hlen Hall) as (v & s' & ->).
  rewrite bind_Done_l. destruct v as [result|]; [|eauto].
  destruct (zget_in_range words first_word Hfw) as [wd ->]. rewrite bind_Done_l. eauto.
Qed.

Lemma Thread_safe (start end_ : Z) (sh : shared) :
  0 <= start -> end_ <= Z.of_nat (length words) ->
  exists sh', Thread start end_ max words wpm sh = Done sh'.
Proof.
  intros Hstart Hend. unfold Thread, new_scratch.
  destruct (Z.ltb_spec max 0); [lia |]. rewrite bind_Done_l.
  destruct (zget_in_range (replicate (Z.to_nat max) (replicate (length words) 0)) 0)
    as [buf ->]; [rewrite length_replicate; lia |].
  rewrite bind_Done_l. unfold for_loop.
  destruct (for_count_total
              (fun st : list (list Z) * shared =>
                 Z.of_nat (length (fst st)) = max
                 /\ Forall (fun b : list Z => length b = length words) (fst st))
              (Thread_step max words wpm) (Z.to_nat (end_ - start)) start
              (replicate (Z.to_nat max) (replicate (length words) 0), sh))
    as ([s' sh'] & -> & _); [| |eauto].
  - intros fw st Hfw [Hlen Hall].
    destruct (Thread_step_safe fw st ltac:(lia) Hlen Hall) as [st' Hst'].
    exists st'. split; [done |].
    apply Thread_step_frame in Hst' as (Hl & _ & Hshape).
    split; [lia | by eapply shape_Forall].
  - simpl. rewrite length_replicate. split; [lia |].
    apply Forall_replicate. apply length_replicate.
Qed.

End ThreadSafety.

(** ** Tables that fit *)

Lemma filled_fits (words : list word) (t : table) :
  filled words (length words) 0 t -> table_fits (length words) t.
Proof.
  intros [[Hlen Hall] _]. split; [done |].
  eapply Forall_impl; [exact Hall |]. by intros rows [_ ?].
Qed.

Lemma trim_fits (V : nat) (t : table) :
  table_fits V t -> table_fits V (TrimWordPatternMatches t).
Proof.
  intros [Hlen Hall]. unfold TrimWordPatternMatches. split; [by rewrite length_map |].
  apply Forall_fmap. eapply Forall_impl; [exact Hall |]. intros rows Hrows. simpl.
  rewrite trim_rows_filter. apply Forall_forall. intros row [_ Hin]%list_elem_of_filter.
  by apply (proj1 (Forall_forall _ _) Hrows).
Qed.

(** ** The events of a worker *)

Section WorkerEvents.
Context `{ops : FloatOps}.

Lemma Thread_events_spec (max : Z) (words : list word) (wpm : table) (count : nat) :
  forall (first_word : Z) (s s' : list (list Z)) (evs : list event),
  Thread_events max words wpm count first_word s = Done (evs, s') ->
  Forall (fun e => first_word <= event_index e < first_word + Z.of_nat count
                   /\ zget words (event_index e) = Done e.2) evs
  /\ StronglySorted Z.lt (event_index <$> evs).
Proof.
  induction count as [|count IH]; intros fw s s' evs H; simpl in H.
  - injection H as <- _. split; constructor.
  - apply bind_Done in H as ([v s1] & _ & H).
    apply bind_Done in H as (mine & Hmine & H).
    apply bind_Done in H as ([evs' s2] & Hrest & H). injection H as <- _.
    destruct (IH _ _ _ _ Hrest) as [Hall Hsorted].
    assert (Forall (fun e => fw + 1 <= event_index e < fw + Z.of_nat (Datatypes.S count)
                             /\ zget words (event_index e) = Done e.2) evs') as Hall'.
    { eapply Forall_impl; [exact Hall |]. intros e [? ?]. split; [lia | done]. }
    destruct v as [r|].
    + apply bind_Done in Hmine as (wd & Hwd & [= <-]). simpl. split.
      * constructor; [split; [unfold event_index; simpl; lia | exact Hwd] |].
        eapply Forall_impl; [exact Hall' |]. intros e [? ?]. split; [lia | done].
      * constructor; [done |]. apply Forall_fmap.
        eapply Forall_impl; [exact Hall' |]. intros e [? ?]. unfold event_index at 1. simpl. lia.
    + injection Hmine as <-. simpl. split; [|done].
      eapply Forall_impl; [exact Hall' |]. intros e [? ?]. split; [lia | done].
Qed.

Lemma reduce_app (sh : shared) (evs1 evs2 : list event) :
  reduce sh (evs1 ++ evs2) = reduce (reduce sh evs1) evs2.
Proof. unfold reduce. apply fold_left_app. Qed.

Lemma reduce_fout (evs : list event) : forall sh : shared,
  fout (reduce sh evs) = fout sh ++ ((fun e : event => (event_value e, e.2)) <$> evs).
Proof.
  induction evs as [|e evs IH]; intros sh; simpl; [by rewrite app_nil_r |].
  rewrite IH. unfold report_event, report.
  destruct (better sh (event_value e) (event_index e)); simpl; by rewrite <- app_assoc.
Qed.

(** [Thread] is the sequence of its critical sections. *)
Lemma Thread_reduce (start end_ max : Z) (words : list word) (wpm : table) (sh : shared) :
  Thread start end_ max words wpm sh
  = let* all_words_left := new_scratch max (length words) in
    let* _ := zget all_words_left 0 in
    let* (evs, _) :=
      Thread_events max words wpm (Z.to_nat (end_ - start)) start all_words_left in
    Done (reduce sh evs).
Proof.
  unfold Thread. destruct (new_scratch max (length words)) as [s|]; [|done].
  rewrite !bind_Done_l. destruct (zget s 0); [|done]. rewrite !bind_Done_l.
  unfold for_loop. rewrite thread_loop.
  destruct (Thread_events max words wpm (Z.to_nat (end_ - start)) start s) as [[evs s']|];
    done.
Qed.

Lemma worker_reduce (su : setup) (thread : Z) (sh : shared) :
  worker su thread sh = let* evs := worker_events su thread in Done (reduce sh evs).
Proof.
  unfold worker, worker_events. rewrite Thread_reduce.
  destruct (new_scratch _ _) as [s|]; [|done]. rewrite !bind_Done_l.
  destruct (zget s 0); [|done]. rewrite !bind_Done_l.
  destruct (Thread_events _ _ _ _ _ s) as [[evs s']|]; done.
Qed.

(** After a first report the record does not depend on what [best_word]
    held before. *)
Lemma reduce_garbage (evs : list event) (log : list (F * list ascii)) (b b' : Z) :
  evs <> [] ->
  reduce {| fout := log; min_expected := None; best_word := b |} evs
  = reduce {| fout := log; min_expected := None; best_word := b' |} evs.
Proof. destruct evs as [|e evs]; [done |]. intros _. reflexivity. Qed.

Lemma reduce_best (evs : list event) : forall (sh : shared) (seen : list event),
  best_inv sh seen -> best_inv (reduce sh evs) (seen ++ evs).
Proof.
  induction evs as [|e evs IH]; intros sh seen Hinv; simpl.
  - by rewrite app_nil_r.
  - replace (seen ++ e :: evs) with ((seen ++ [e]) ++ evs) by (by rewrite <- app_assoc).
    apply IH. unfold best_inv, report_event in *.
    destruct (report_record sh (event_value e) (event_index e) e.2) as [-> ->].
    destruct (better sh (event_value e) (event_index e)) eqn:Eb.
    + exists e. split; [apply elem_of_app; right; by left | done].
    + unfold better in Eb. destruct (min_expected sh) as [m|]; [|done].
      destruct Hinv as (e0 & Hin & Hb). exists e0.
      split; [apply elem_of_app; by left | done].
Qed.

End WorkerEvents.

(** ** The search returns *)

(** X1.  [Recurse] stays inside its vectors.  On a table with one list of
    rows per word and one entry per word in each row, called at a depth
    between 1 and [max_num_guesses] with buffers of the size of the
    vocabulary, the buffer of the caller holding [num_words_left] word
    indices at its front, [Recurse] returns: no access is out of bounds and
    the recursion ends.  The buffers below [num_guesses], the caller's
    among them, are as they were, and no buffer has changed its size. *)
Theorem Recurse_stays_in_bounds `{ops : FloatOps} (V : nat) (wpm : table)
    (num_guesses max_num_guesses num_words_left : Z)
    (all_words_left : list (list Z)) :
  table_fits V wpm ->
  1 <= num_guesses <= max_num_guesses ->
  scratch_fits V max_num_guesses num_guesses num_words_left all_words_left ->
  exists (result : option F) (s' : list (list Z)),
    Recurse num_guesses max_num_guesses all_words_left num_words_left wpm
    = Done (result, s')
    /\ same_below num_guesses all_words_left s'.
Proof.
  intros Hfits Hng Hs. unfold Recurse.
  destruct (Recurse_fuel_safe V max_num_guesses wpm Hfits (length all_words_left)
              num_guesses num_words_left all_words_left Hng Hs ltac:(lia))
    as (result & s' & H).
  exists result, s'. split; [done |]. by apply Recurse_fuel_frame in H.
Qed.

Lemma Recurse_stays_in_bounds_witness :
  exists (result : option (@F binary32)) (s' : list (list Z)),
    @Recurse binary32 1 2 [[0; 1]; [0; 0]] 2 (TrimWordPatternMatches two_words_table)
    = Done (result, s')
    /\ same_below 1 [[0; 1]; [0; 0]] s'.
Proof.
  apply (@Recurse_stays_in_bounds binary32 2).
  - vm_compute. split; [reflexivity | repeat constructor].
  - lia.
  - split_and!; [reflexivity | repeat constructor |].
    exists [0; 1]. split; [reflexivity |]. split; [simpl; lia |].
    repeat constructor; simpl; lia.
Defined.

(** X2.  [Thread] stays inside its vectors.  With at least one guess
    allowed, a range of first guesses inside the vocabulary and a table
    with one list of rows per word and one entry per word in each row,
    [Thread] returns: no access is out of bounds, at any depth of the
    search. *)
Theorem Thread_stays_in_bounds `{ops : FloatOps} (words : list word) (wpm : table)
    (start end_ max_num_guesses : Z) (sh : shared) :
  table_fits (length words) wpm ->
  1 <= max_num_guesses ->
  0 <= start -> end_ <= Z.of_nat (length words) ->
  exists sh', Thread start end_ max_num_guesses words wpm sh = Done sh'.
Proof. intros Hfits Hmax Hstart Hend. by apply Thread_safe. Qed.

Lemma Thread_stays_in_bounds_witness :
  exists sh', @Thread binary32 0 2 6 two_words two_words_table no_best = Done sh'.
Proof.
  apply (@Thread_stays_in_bounds binary32 two_words two_words_table 0 2 6 no_best).
  - vm_compute. split; [reflexivity | repeat constructor].
  - lia.
  - lia.
  - simpl. lia.
Defined.

(** X3.  What [Thread] leaves in the shared state.  The lines it wrote
    follow those that were there, one per first guess it kept, in
    increasing order of the index; each first guess lies in the range
    [start, end) and its line carries the word of that index.  The record
    [min_expected], [best_word] is the one its critical sections give
    in that order. *)
Theorem Thread_appends_in_order `{ops : FloatOps} (words : list word) (wpm : table)
    (start end_ max_num_guesses : Z) (sh sh' : shared) :
  Thread start end_ max_num_guesses words wpm sh = Done sh' ->
  exists evs : list event,
    sh' = reduce sh evs
    /\ fout sh' = fout sh ++ ((fun e : event => (event_value e, e.2)) <$> evs)
    /\ Forall (fun e => start <= event_index e < end_
                        /\ zget words (event_index e) = Done e.2) evs
    /\ StronglySorted Z.lt (event_index <$> evs).
Proof.
  rewrite Thread_reduce. intros H.
  apply bind_Done in H as (s & _ & H). apply bind_Done in H as (buf & _ & H).
  apply bind_Done in H as ([evs s'] & Hev & H). injection H as <-.
  exists evs. destruct (Thread_events_spec _ _ _ _ _ _ _ _ Hev) as [Hall Hsorted].
  split_and!; [done | apply reduce_fout | | done].
  eapply Forall_impl; [exact Hall |]. intros e [Hr Hw]. split; [|done].
  destruct (decide (start <= end_)); [lia |].
  replace (Z.to_nat (end_ - start)) with 0%nat in Hr by lia. lia.
Qed.

Lemma Thread_appends_in_order_witness :
  exists evs : list (@event binary32),
    @Build_shared binary32
       [(S754_finite false 12582912 (-23), w "abcde");
        (S754_finite false 12582912 (-23), w "fghij")]
       (Some (S754_finite false 12582912 (-23))) 0
    = reduce no_best evs
    /\ fout (@Build_shared binary32
               [(S754_finite false 12582912 (-23), w "abcde");
                (S754_finite false 12582912 (-23), w "fghij")]
               (Some (S754_finite false 12582912 (-23))) 0)
       = fout no_best ++ ((fun e : @event binary32 => (event_value e, e.2)) <$> evs)
    /\ Forall (fun e => 0 <= event_index e < 2
                        /\ zget two_words (event_index e) = Done e.2) evs
    /\ StronglySorted Z.lt (event_index <$> evs).
Proof.
  apply (@Thread_appends_in_order binary32 two_words
           (TrimWordPatternMatches two_words_table) 0 2 kMaxNumGuesses no_best).
  exact two_word_vocabulary.
Defined.

(** ** [ReadWords] *)

Lemma skip_space_blank (sep rest : list ascii) :
  blank sep -> skip_space (sep ++ rest) = skip_space rest.
Proof. induction 1 as [|ch sep Hch _ IH]; simpl; [done | by rewrite Hch]. Qed.

Lemma skip_space_token (wd rest : list ascii) :
  token wd -> skip_space (wd ++ rest) = wd ++ rest.
Proof.
  intros [Hne Hall]. destruct wd as [|ch wd]; [done |].
  apply Forall_inv in Hall. simpl. by rewrite Hall.
Qed.

Lemma take_word_token (wd rest : list ascii) :
  Forall (fun ch => isspace ch = false) wd ->
  match rest with [] => True | ch :: _ => isspace ch = true end ->
  take_word (wd ++ rest) = (wd, rest).
Proof.
  intros Hall Hrest. induction Hall as [|ch wd Hch _ IH]; simpl.
  - destruct rest as [|ch rest]; [done |]. simpl. by rewrite Hrest.
  - by rewrite Hch, IH.
Qed.

Lemma extract_word_laid_out (lead wd sep rest : list ascii) :
  blank lead -> token wd -> blank sep -> (rest <> [] -> sep <> []) ->
  (sep = [] -> rest = []) ->
  extract_word {| unread := lead ++ wd ++ sep ++ rest; good := true |}
  = (Some wd, {| unread := sep ++ rest;
                 good := match sep ++ rest with [] => false | _ => true end |}).
Proof.
  intros Hlead Htok Hsep Hne Hlast. unfold extract_word. simpl good. simpl unread.
  rewrite skip_space_blank, skip_space_token by done.
  destruct Htok as [Hwd Hall].
  destruct (wd ++ sep ++ rest) as [|ch cs] eqn:E.
  { destruct wd; [done | discriminate]. }
  rewrite <- E. rewrite take_word_token; [done | done |].
  destruct sep as [|c sep]; [by rewrite Hlast | simpl; by apply Forall_inv in Hsep].
Qed.

Lemma extract_word_end (lead : list ascii) (ok : bool) :
  blank lead -> (extract_word {| unread := lead; good := ok |}).1 = None.
Proof.
  intros Hlead. unfold extract_word. simpl good. simpl unread.
  destruct ok; [|done].
  rewrite <- (app_nil_r lead), skip_space_blank by done. done.
Qed.

Lemma ReadWords_loop_laid_out (items : list (word * list ascii)) :
  forall (fuel : nat) (acc : list word) (lead : list ascii) (ok : bool),
  blank lead -> separated items -> (items <> [] -> ok = true) ->
  (length items < fuel)%nat ->
  ReadWords_loop fuel {| unread := lead ++ laid_out items; good := ok |} acc
  = Done (acc ++ items.*1).
Proof.
  induction items as [|[wd sep] items IH]; intros fuel acc lead ok Hlead Hsep Hok Hfuel;
    (destruct fuel as [|fuel]; [simpl in Hfuel; lia |]).
  - change (laid_out []) with (@nil ascii). rewrite !app_nil_r.
    pose proof (extract_word_end lead ok Hlead) as He. cbn [ReadWords_loop].
    destruct (extract_word {| unread := lead; good := ok |}) as [o fin']. simpl in He.
    by subst o.
  - destruct Hsep as (Htok & Hblank & Hlast & Hrest). rewrite Hok by done.
    unfold laid_out. simpl concat. fold (laid_out items).
    cbn [ReadWords_loop]. rewrite <- app_assoc.
    assert (laid_out items <> [] -> items <> []) as Hl by (by destruct items).
    assert (items <> [] -> laid_out items <> []) as Hl'.
    { destruct items as [|[w1 s1] items]; [done |]. intros _.
      destruct Hrest as ([Hne _] & _). unfold laid_out. simpl. by destruct w1. }
    rewrite extract_word_laid_out; try done.
    + rewrite fmap_cons. simpl fst.
      replace (acc ++ wd :: items.*1) with ((acc ++ [wd]) ++ items.*1)
        by (by rewrite <- app_assoc).
      apply IH; [done | done | | simpl in Hfuel; lia].
      intros Hne. specialize (Hlast Hne). destruct sep; [done | reflexivity].
    + intros ?. apply Hlast. auto.
    + intros ->. destruct items as [|it items]; [done |]. by specialize (Hlast ltac:(done)).
Qed.

Lemma skip_space_spec (cs : list ascii) :
  exists lead, blank lead /\ cs = lead ++ skip_space cs
    /\ match skip_space cs with [] => True | ch :: _ => isspace ch = false end.
Proof.
  induction cs as [|ch cs (lead & Hl & Hcs & Hhd)]; simpl.
  - exists []. split_and!; [constructor | done | done].
  - destruct (isspace ch) eqn:E.
    + exists (ch :: lead). split_and!; [by constructor | by rewrite Hcs at 1 | done].
    + exists []. split_and!; [constructor | done | done].
Qed.

Lemma take_word_spec (cs : list ascii) :
  exists wd rest, take_word cs = (wd, rest) /\ cs = wd ++ rest
    /\ Forall (fun ch => isspace ch = false) wd
    /\ match rest with [] => True | ch :: _ => isspace ch = true end.
Proof.
  induction cs as [|ch cs (wd & rest & Htw & Hcs & Hwd & Hrest)]; simpl.
  - exists [], []. by split_and!.
  - destruct (isspace ch) eqn:E.
    + exists [], (ch :: cs). by split_and!.
    + rewrite Htw. exists (ch :: wd), rest. split_and!; [done | by rewrite Hcs | by constructor | done].
Qed.

(** Every file is laid out as words and separators, after some leading
    whitespace. *)
Lemma file_layout (n : nat) : forall cs : list ascii, (length cs <= n)%nat ->
  exists lead items, blank lead /\ separated items /\ cs = lead ++ laid_out items.
Proof.
  induction n as [|n IH]; intros cs Hn.
  - destruct cs; [|simpl in Hn; lia]. exists [], []. split_and!; [constructor | done | done].
  - destruct (skip_space_spec cs) as (lead & Hlead & Hcs & Hhd).
    destruct (skip_space cs) as [|ch cs1] eqn:E.
    { exists lead, []. split_and!; [done | done |]. by rewrite Hcs. }
    destruct (take_word_spec (ch :: cs1)) as (wd & rest & Htw & Hsplit & Hwd & Hrest).
    assert (wd <> []) as Hne.
    { intros ->. simpl in Hsplit. subst rest. congruence. }
    assert (length rest <= n)%nat as Hlen.
    { apply (f_equal length) in Hcs, Hsplit. rewrite length_app in Hcs, Hsplit.
      simpl in Hsplit. destruct wd; [done |]. simpl in *. lia. }
    destruct (IH rest Hlen) as (sep & items & Hsep & Hitems & Hr).
    exists lead, ((wd, sep) :: items). split_and!; [done | | ].
    + simpl. split_and!; [done | done | | done].
      intros Hi ->. simpl in Hr. destruct items as [|[w1 s1] items]; [done |].
      destruct Hitems as ([Hw1 Hall1] & _). unfold laid_out in Hr. simpl in Hr.
      destruct w1 as [|c w1]; [done |]. simpl in Hr. subst rest.
      apply Forall_inv in Hall1. congruence.
    + rewrite Hcs, Hsplit, Hr. unfold laid_out. simpl. by rewrite <- !app_assoc.
Qed.

Lemma laid_out_length (items : list (word * list ascii)) :
  separated items -> (length items <= length (laid_out items))%nat.
Proof.
  induction items as [|[wd sep] items IH]; [simpl; lia |].
  intros ([Hne _] & _ & _ & Hrest). unfold laid_out. simpl concat. fold (laid_out items).
  rewrite !length_app. specialize (IH Hrest). destruct wd; [done |]. simpl. lia.
Qed.

Lemma laid_out_filter (items : list (word * list ascii)) :
  separated items ->
  filter (fun ch => isspace ch = false) (laid_out items) = concat items.*1.
Proof.
  induction items as [|[wd sep] items IH]; [done |].
  intros ([_ Hwd] & Hsep & _ & Hrest). unfold laid_out. simpl concat. fold (laid_out items).
  rewrite !filter_app, IH by done. f_equal.
  assert (filter (fun ch => isspace ch = false) sep = []) as ->.
  { clear -Hsep. induction Hsep as [|ch sep Hch _ IH]; [done |].
    rewrite filter_cons, decide_False by congruence. done. }
  rewrite app_nil_r.
  clear -Hwd. induction Hwd as [|ch wd Hch _ IH]; [done |].
  rewrite filter_cons, decide_True by done. by rewrite IH.
Qed.

(** ** The guesses given on the command line *)

Lemma find_index_spec (words : list word) (guess : word) :
  0 <= find_index words guess <= Z.of_nat (length words)
  /\ (find_index words guess = Z.of_nat (length words) <-> guess ∉ words)
  /\ (guess ∈ words -> words !! Z.to_nat (find_index words guess) = Some guess).
Proof.
  induction words as [|wd words (IH1 & IH2 & IH3)]; simpl.
  - split; [lia |]. split; [| by intros ?%elem_of_nil].
    split; [intros _; by intros ?%elem_of_nil | done].
  - destruct (decide (wd = guess)) as [->|Hne].
    + split; [lia |]. split; [| done].
      split; [lia |]. intros H. exfalso. apply H. by left.
    + split; [lia |]. split.
      * rewrite not_elem_of_cons. split; [intros H; split; [congruence | apply IH2; lia] |].
        intros [_ H]. apply IH2 in H. lia.
      * intros [->|Hin]%elem_of_cons; [done |].
        replace (Z.to_nat (1 + find_index words guess))
          with (Datatypes.S (Z.to_nat (find_index words guess))) by lia.
        simpl. by apply IH3.
Qed.

Lemma prune_loop (Q : word -> Prop) `{!forall wd, Decision (Q wd)}
    (words : list word) (matches : list bool) (n : nat) :
  (forall (a : nat) (wd : word), words !! a = Some wd ->
     matches !! a = Some (bool_decide (Q wd))) ->
  forall (i : nat) (acc : list word), (i + n = length words)%nat ->
  for_count n (Z.of_nat i) (fun i new_words =>
    let* m := zget matches i in
    if (m : bool) then
      let* wd := zget words i in
      Done (new_words ++ [wd])
    else Done new_words) acc
  = Done (acc ++ filter Q (drop i words)).
Proof.
  intros Hm. induction n as [|n IH]; intros i acc Hi.
  - rewrite drop_ge by lia. by rewrite filter_nil, app_nil_r.
  - rewrite for_count_S.
    destruct (lookup_lt_is_Some_2 words i ltac:(lia)) as [wd Hwd].
    rewrite (zget_nat _ _ _ (Hm i wd Hwd)), bind_Done_l.
    rewrite (drop_S _ _ _ Hwd), filter_cons.
    replace (Z.of_nat i + 1) with (Z.of_nat (Datatypes.S i)) by lia.
    destruct (decide (Q wd)) as [Hq|Hq].
    + rewrite bool_decide_true by done. cbv iota.
      rewrite (zget_nat _ _ _ Hwd), !bind_Done_l, IH by lia.
      by rewrite <- app_assoc.
    + rewrite bool_decide_false by done. cbv iota. rewrite bind_Done_l, IH by lia. done.
Qed.

Lemma prune_spec (Q : word -> Prop) `{!forall wd, Decision (Q wd)}
    (words : list word) (matches : list bool) :
  (forall (a : nat) (wd : word), words !! a = Some wd ->
     matches !! a = Some (bool_decide (Q wd))) ->
  prune words matches = Done (filter Q words).
Proof.
  intros Hm. unfold prune, for_loop. rewrite Z.sub_0_r, Nat2Z.id.
  change 0 with (Z.of_nat 0). by rewrite (prune_loop Q words matches _ Hm 0 []).
Qed.

Lemma filter_none {A : Type} (P : A -> Prop) `{!forall x, Decision (P x)} (l : list A) :
  (forall x, x ∈ l -> ~ P x) -> filter P l = [].
Proof.
  intros Hnot. destruct (filter P l) as [|x rest] eqn:E; [done |].
  assert (x ∈ filter P l) as [Hx Hin]%list_elem_of_filter by (rewrite E; by left).
  by destruct (Hnot x Hin).
Qed.

Lemma consistent_wf (guess pattern : word) (words : list word) :
  Forall wf_word words -> Forall wf_word (consistent guess pattern words).
Proof.
  intros H. apply Forall_forall. intros wd [_ Hin]%list_elem_of_filter.
  by apply (proj1 (Forall_forall _ _) H).
Qed.

Lemma ToPatternInt_range (pattern : word) (p : Z) :
  ToPatternInt pattern = Done p -> 0 <= p < 243.
Proof.
  rewrite ToPatternInt_spec. destruct (Nat.eqb_spec (length pattern) 5) as [H5|]; [|done].
  simpl. destruct (forallb in_alphabet pattern); [|done]. intros [= <-].
  pose proof (digits_value_range (symbol_digit <$> pattern)) as H.
  rewrite length_fmap, H5 in H. apply H.
  apply Forall_fmap, Forall_forall. intros ch _. unfold symbol_digit. simpl.
  destruct (Ascii.eqb ch "g"); [lia |]. destruct (Ascii.eqb ch "y"); lia.
Qed.

Lemma ToPatternInt_fault (pattern : word) (f : fault) :
  ToPatternInt pattern = Fault f -> f = AssertFailed.
Proof.
  rewrite ToPatternInt_spec. destruct (_ && _); [done | congruence].
Qed.

(** One guess applied to a vocabulary of five-letter words with its table. *)
Lemma apply_guess_spec (argv : list word) (guess_i max : Z) (words : list word)
    (all : table) (guess pattern : word) :
  Forall wf_word words -> ComputeWordPatternMatches words = Done all ->
  zget argv (1 + guess_i * 2) = Done guess ->
  zget argv (1 + guess_i * 2 + 1) = Done pattern ->
  apply_guess argv guess_i (words, all, max)
  = if decide (guess ∈ words /\ consistent guess pattern words <> []) then
      let* all' := ComputeWordPatternMatches (consistent guess pattern words) in
      Done (consistent guess pattern words, all', max - 1)
    else Fault AssertFailed.
Proof.
  intros Hwf Hall Hg Hp. unfold apply_guess. rewrite Hg, Hp, !bind_Done_l.
  cbv zeta.
  destruct (find_index_spec words guess) as (Hr & Hnot & Hfound).
  destruct (decide (guess ∈ words)) as [Hin|Hin].
  2:{ rewrite (proj2 Hnot Hin), Z.eqb_refl. simpl.
      rewrite decide_False; [done | tauto]. }
  assert (find_index words guess <> Z.of_nat (length words)) as Hlt by tauto.
  rewrite (proj2 (Z.eqb_neq _ _) Hlt). simpl negb. unfold assert at 1. rewrite bind_Done_l.
  specialize (Hfound Hin).
  pose proof (Forall_lookup_1 _ _ _ _ Hwf Hfound) as Hwg.
  pose proof (Compute_filled words all Hwf Hall) as Hf.
  unfold consistent.
  destruct (ToPatternInt pattern) as [p|f] eqn:Hpi.
  2:{ apply ToPatternInt_fault in Hpi as ->. simpl.
      rewrite decide_False; [done |]. intros [_ Hne]. apply Hne.
      apply filter_none. intros wd Hwd.
      rewrite encode_wf; [done | done |]. by apply (proj1 (Forall_forall _ _) Hwf). }
  rewrite bind_Done_l. apply ToPatternInt_range in Hpi.
  destruct Hf as [[Hlen Hshape] Hcells].
  destruct (zget_in_range all (find_index words guess) ltac:(lia)) as [rows Hrows].
  rewrite Hrows, bind_Done_l. apply zget_Done in Hrows as [_ Hrows].
  destruct (Forall_lookup_1 _ _ _ _ Hshape Hrows) as [Lrows Hrl].
  destruct (zget_in_range rows p ltac:(lia)) as [matches Hm].
  rewrite Hm, bind_Done_l. apply zget_Done in Hm as [_ Hm].
  rewrite (prune_spec (fun wd => encode guess wd = Done p) words matches).
  2:{ intros a wd Hwd. pose proof (lookup_lt_Some _ _ _ Hwd) as La.
      specialize (Hcells (Z.to_nat (find_index words guess)) (Z.to_nat p) a
                         ltac:(lia) ltac:(lia) La).
      unfold cell in Hcells. rewrite Hrows, Hm in Hcells. rewrite Hcells. f_equal.
      apply bool_decide_ext. unfold pat. rewrite Hfound, Hwd.
      rewrite encode_wf; [| done | by apply (Forall_lookup_1 _ _ _ _ Hwf Hwd)].
      split; [intros [_ H]; f_equal; lia | intros [= H]; lia]. }
  rewrite bind_Done_l.
  destruct (ComputeWordPatternMatches_filled (filter (fun wd => encode guess wd = Done p) words))
    as (all' & -> & _).
  { apply Forall_forall. intros wd [_ Hwd]%list_elem_of_filter.
    by apply (proj1 (Forall_forall _ _) Hwf). }
  rewrite !bind_Done_l.
  destruct (decide (filter (fun wd => encode guess wd = Done p) words = [])) as [He|He].
  - rewrite bool_decide_true by done. simpl. rewrite decide_False; [done | tauto].
  - rewrite bool_decide_false by done. simpl. rewrite decide_True by done. reflexivity.
Qed.

Lemma clue_args_length (clues : list (word * word)) :
  length (clue_args clues) = (2 * length clues)%nat.
Proof. induction clues as [|c clues IH]; simpl; [done |]. unfold clue_args in IH. lia. Qed.

Lemma clue_args_lookup (prog : word) (clues : list (word * word)) (i : nat)
    (clue : word * word) :
  clues !! i = Some clue ->
  zget (prog :: clue_args clues) (1 + Z.of_nat i * 2) = Done clue.1
  /\ zget (prog :: clue_args clues) (1 + Z.of_nat i * 2 + 1) = Done clue.2.
Proof.
  revert i. induction clues as [|c clues IH]; intros i Hi; [done |].
  destruct i as [|i]; simpl in Hi.
  - injection Hi as ->. split; reflexivity.
  - destruct (IH i Hi) as [H1 H2]. apply zget_Done in H1 as [_ H1], H2 as [_ H2].
    split; apply zget_Done; (split; [lia |]).
    + replace (Z.to_nat (1 + Z.of_nat (Datatypes.S i) * 2))
        with (Datatypes.S (Datatypes.S (Z.to_nat (1 + Z.of_nat i * 2)))) by lia.
      replace (Z.to_nat (1 + Z.of_nat i * 2)) with (Datatypes.S (2 * i)) in * by lia.
      exact H1.
    + replace (Z.to_nat (1 + Z.of_nat (Datatypes.S i) * 2 + 1))
        with (Datatypes.S (Datatypes.S (Z.to_nat (1 + Z.of_nat i * 2 + 1)))) by lia.
      replace (Z.to_nat (1 + Z.of_nat i * 2 + 1)) with (Datatypes.S (2 * i + 1)) in * by lia.
      exact H2.
Qed.

Lemma narrow_wf (clues : list (word * word)) : forall words : list word,
  Forall wf_word words -> Forall wf_word (narrow words clues).
Proof.
  induction clues as [|c clues IH]; intros words Hwf; [done |].
  apply IH. by apply consistent_wf.
Qed.

(** The loop over the guesses, from the guess number [i] on. *)
Lemma apply_guess_loop (prog : word) (clues : list (word * word)) (n : nat) :
  forall (i : nat) (words : list word) (all : table) (max : Z),
  (i + n = length clues)%nat ->
  Forall wf_word words -> ComputeWordPatternMatches words = Done all ->
  for_count n (Z.of_nat i) (apply_guess (prog :: clue_args clues)) (words, all, max)
  = if accepted words (drop i clues) then
      let* all' := ComputeWordPatternMatches (narrow words (drop i clues)) in
      Done (narrow words (drop i clues), all', max - Z.of_nat n)
    else Fault AssertFailed.
Proof.
  induction n as [|n IH]; intros i words all max Hi Hwf Hall.
  - rewrite drop_ge by lia. simpl. rewrite Hall, bind_Done_l. do 3 f_equal. lia.
  - rewrite for_count_S.
    destruct (lookup_lt_is_Some_2 clues i ltac:(lia)) as [clue Hclue].
    destruct (clue_args_lookup prog clues i clue Hclue) as [Hg Hp].
    rewrite (apply_guess_spec _ _ _ _ _ _ _ Hwf Hall Hg Hp).
    rewrite (drop_S _ _ _ Hclue). simpl accepted. simpl narrow.
    destruct (decide (clue.1 ∈ words /\ consistent clue.1 clue.2 words <> [])) as [Hd|Hd].
    + rewrite bool_decide_true by done. simpl andb.
      destruct (ComputeWordPatternMatches_filled (consistent clue.1 clue.2 words))
        as (all' & Hall' & _); [by apply consistent_wf |].
      rewrite Hall', !bind_Done_l.
      replace (Z.of_nat i + 1) with (Z.of_nat (Datatypes.S i)) by lia.
      rewrite (IH (Datatypes.S i)); [| lia | by apply consistent_wf | done].
      destruct (accepted _ _); [|done].
      replace (max - 1 - Z.of_nat n) with (max - Z.of_nat (Datatypes.S n)) by lia. done.
    + rewrite bool_decide_false by done. reflexivity.
Qed.

Section Setup.
Variable file : option (list ascii).
Variable words : list word.
Variable prog : word.
Hypothesis file_words : ReadWords file = Done words.
Hypothesis words_wf : Forall wf_word words.

Lemma main_setup_spec (clues : list (word * word)) :
  exists all, ComputeWordPatternMatches (narrow words clues) = Done all
  /\ main_setup file (prog :: clue_args clues)
     = if accepted words clues && (Z.of_nat (length clues) <? kMaxNumGuesses) then
         Done {| setup_words := narrow words clues;
                 setup_table := TrimWordPatternMatches all;
                 setup_max_num_guesses := kMaxNumGuesses - Z.of_nat (length clues);
                 setup_result_number := Z.of_nat (length clues) + 1 |}
       else Fault AssertFailed.
Proof.
  destruct (ComputeWordPatternMatches_filled (narrow words clues))
    as (all & Hall & _); [by apply narrow_wf |].
  exists all. split; [done |].
  destruct (ComputeWordPatternMatches_filled words words_wf) as (all0 & Hall0 & _).
  unfold main_setup. rewrite file_words, bind_Done_l, Hall0, bind_Done_l.
  cbv zeta. simpl length. rewrite clue_args_length.
  replace (Z.of_nat (Datatypes.S (2 * length clues)) - 1)
    with (Z.of_nat (length clues) * 2) by lia.
  rewrite Z.rem_mul, Z.quot_mul by lia. simpl assert. rewrite bind_Done_l.
  unfold for_loop. rewrite Z.sub_0_r, Nat2Z.id. change 0 with (Z.of_nat 0) at 1.
  rewrite (apply_guess_loop prog clues (length clues) 0 words all0 kMaxNumGuesses
             eq_refl words_wf Hall0).
  rewrite drop_0. destruct (accepted words clues); [|done]. simpl andb.
  rewrite Hall, !bind_Done_l.
  destruct (Z.ltb_spec (Z.of_nat (length clues)) kMaxNumGuesses) as [Hk|Hk].
  - replace (kMaxNumGuesses - Z.of_nat (length clues) >? 0) with true by lia.
    simpl. do 2 f_equal. lia.
  - replace (kMaxNumGuesses - Z.of_nat (length clues) >? 0) with false by lia.
    reflexivity.
Qed.

End Setup.

(** ** Reading the vocabulary *)

(** X4.  [ReadWords] returns the words of the file in their order: for a
    file made of leading whitespace and then words, each followed by
    whitespace (only after the last word may it be missing), the result is
    the list of these words.  Blank lines, carriage returns and a missing
    final newline make no difference. *)
Theorem ReadWords_reads_the_words (lead : list ascii) (items : list (word * list ascii)) :
  blank lead -> separated items ->
  ReadWords (Some (lead ++ laid_out items)) = Done items.*1.
Proof.
  intros Hlead Hsep. unfold ReadWords. simpl open_file. cbv zeta. simpl unread.
  rewrite (ReadWords_loop_laid_out items _ [] lead true); [done | done | done | done |].
  pose proof (laid_out_length items Hsep). rewrite length_app. lia.
Qed.

Lemma ReadWords_reads_the_words_witness :
  ReadWords (Some ([" "%char] ++ laid_out [(w "abcde", ["013"%char; "010"%char]);
                                           (w "fghij", [])]))
  = Done [(w "abcde", ["013"%char; "010"%char]); (w "fghij", [])].*1.
Proof.
  apply (ReadWords_reads_the_words [" "%char]).
  - repeat constructor.
  - split_and!.
    + split; [discriminate | repeat constructor].
    + repeat constructor.
    + discriminate.
    + split_and!; [split; [discriminate | repeat constructor] | constructor | | exact I].
      intros H. by destruct H.
Defined.

(** X5.  [ReadWords] returns on every input: a file that cannot be opened
    gives no word; otherwise the words returned, one after the other, are
    the characters of the file without its whitespace, and no word is
    empty or holds whitespace.  Nothing else is checked: neither the
    length of a word nor its letters. *)
Theorem ReadWords_returns_tokens (file : option (list ascii)) :
  exists words, ReadWords file = Done words
    /\ Forall token words
    /\ match file with
       | None => words = []
       | Some cs => concat words = filter (fun ch => isspace ch = false) cs
       end.
Proof.
  destruct file as [cs|].
  - destruct (file_layout (length cs) cs ltac:(lia)) as (lead & items & Hlead & Hsep & ->).
    exists items.*1. split_and!.
    + unfold ReadWords. simpl open_file. cbv zeta. simpl unread.
      rewrite (ReadWords_loop_laid_out items _ [] lead true); [done | done | done | done |].
      pose proof (laid_out_length items Hsep). rewrite length_app. lia.
    + clear -Hsep. induction items as [|[wd sep] items IH]; [constructor |].
      destruct Hsep as (Htok & _ & _ & Hrest). constructor; [done | by apply IH].
    + rewrite filter_app, laid_out_filter by done.
      assert (filter (fun ch => isspace ch = false) lead = []) as ->; [|done].
      clear -Hlead. induction Hlead as [|ch lead Hch _ IH]; [done |].
      rewrite filter_cons, decide_False by congruence. done.
  - exists []. split_and!; [reflexivity | constructor | done].
Qed.

(** ** The guesses already made *)

Lemma narrow_app (words : list word) (clues1 clues2 : list (word * word)) :
  narrow words (clues1 ++ clues2) = narrow (narrow words clues1) clues2.
Proof. unfold narrow. apply fold_left_app. Qed.

Lemma accepted_spec (clues : list (word * word)) : forall words : list word,
  accepted words clues = true <->
  forall (i : nat) (clue : word * word), clues !! i = Some clue ->
    clue.1 ∈ narrow words (take i clues)
    /\ consistent clue.1 clue.2 (narrow words (take i clues)) <> [].
Proof.
  induction clues as [|c clues IH]; intros words; simpl.
  - split; [intros _ i clue; done | done].
  - rewrite andb_true_iff, bool_decide_eq_true, IH. split.
    + intros [H0 Hrest] [|i] clue Hi; simpl in *.
      * by injection Hi as <-.
      * by apply Hrest.
    + intros H. split; [apply (H 0%nat c eq_refl) |].
      intros i clue Hi. apply (H (Datatypes.S i) clue Hi).
Qed.

Lemma narrow_length (clues : list (word * word)) : forall words : list word,
  (length (narrow words clues) <= length words)%nat.
Proof.
  induction clues as [|c clues IH]; intros words; simpl; [done |].
  etransitivity; [apply IH |]. apply length_filter.
Qed.

Lemma narrow_elem_of (answer : word) (clues : list (word * word)) :
  forall words : list word,
  answer ∈ narrow words clues <->
  answer ∈ words /\ Forall (fun clue => encode clue.1 answer = ToPatternInt clue.2) clues.
Proof.
  induction clues as [|c clues IH]; intros words; simpl.
  - split; [intros H; split; [done | constructor] | tauto].
  - rewrite IH. unfold consistent. rewrite list_elem_of_filter, Forall_cons. tauto.
Qed.

(** X6.  The guesses on the command line.  For a vocabulary of five-letter
    lowercase words and arguments that pair guesses with patterns, [main]
    reaches the start of the search exactly when every guess is still in
    the vocabulary at its turn, some word is left after it, and fewer than
    6 guesses were given; every other case ends on a failed assertion.  The
    vocabulary it then searches holds the words whose pattern against each
    guess is the one given, in the order of the file; the table is the
    trimmed table of that vocabulary; each guess lowers the number of
    guesses left by one and raises the number of the result file by one. *)
Theorem main_setup_applies_clues (file : option (list ascii)) (words : list word)
    (prog : word) (clues : list (word * word)) :
  ReadWords file = Done words -> Forall wf_word words ->
  exists all, ComputeWordPatternMatches (narrow words clues) = Done all
  /\ main_setup file (prog :: clue_args clues)
     = if accepted words clues && (Z.of_nat (length clues) <? kMaxNumGuesses) then
         Done {| setup_words := narrow words clues;
                 setup_table := TrimWordPatternMatches all;
                 setup_max_num_guesses := kMaxNumGuesses - Z.of_nat (length clues);
                 setup_result_number := Z.of_nat (length clues) + 1 |}
       else Fault AssertFailed.
Proof. intros Hfile Hwf. by apply main_setup_spec. Qed.

(** X7.  The answer is never pruned.  If the answer of the game is in the
    vocabulary, every pattern given is the one of its guess against the
    answer, every guess was a word still possible when it was made, and
    fewer than 6 guesses were made, then [main] reaches the search, and
    the answer is among the words it searches. *)
Theorem main_setup_keeps_answer (file : option (list ascii)) (words : list word)
    (prog answer : word) (clues : list (word * word)) :
  ReadWords file = Done words -> Forall wf_word words ->
  answer ∈ words ->
  Forall (fun clue => ToPatternInt clue.2 = encode clue.1 answer) clues ->
  (forall (i : nat) (clue : word * word), clues !! i = Some clue ->
     clue.1 ∈ narrow words (take i clues)) ->
  (length clues < 6)%nat ->
  exists su, main_setup file (prog :: clue_args clues) = Done su
    /\ answer ∈ setup_words su
    /\ setup_max_num_guesses su = 6 - Z.of_nat (length clues).
Proof.
  intros Hfile Hwf Hans Htrue Hguess Hlen.
  destruct (main_setup_spec file words prog Hfile Hwf clues) as (all & Hall & ->).
  assert (forall clues', Forall (fun clue => ToPatternInt clue.2 = encode clue.1 answer) clues' ->
            answer ∈ narrow words clues') as Hin.
  { intros clues' H. apply narrow_elem_of. split; [done |].
    eapply Forall_impl; [exact H |]. by intros clue ->. }
  assert (accepted words clues = true) as ->.
  { apply accepted_spec. intros i clue Hi. split; [by apply Hguess |].
    assert (answer ∈ consistent clue.1 clue.2 (narrow words (take i clues))) as H.
    { apply list_elem_of_filter. split.
      - symmetry. by apply (Forall_lookup_1 _ _ _ _ Htrue Hi).
      - apply Hin. by apply Forall_take. }
    intros He. rewrite He in H. by apply elem_of_nil in H. }
  replace (Z.of_nat (length clues) <? kMaxNumGuesses) with true
    by (symmetry; apply Z.ltb_lt; unfold kMaxNumGuesses; lia).
  simpl andb. eexists. split; [reflexivity |]. simpl. split; [by apply Hin | done].
Qed.

(** X8.  What [main] refuses.  With a vocabulary of five-letter lowercase
    words, [main] stops on a failed assertion before any search when the
    arguments do not come in pairs, when a guess is not among the words
    still possible at its turn (a word outside the vocabulary, or one that
    contradicts an earlier clue), when a pattern is not five characters
    among [_], [y], [g], when no word fits the clues, and when six or more
    guesses are given. *)
Theorem main_setup_rejects (file : option (list ascii)) (words : list word)
    (prog : word) :
  ReadWords file = Done words -> Forall wf_word words ->
  (forall argv : list word, Nat.Even (length argv) ->
     main_setup file argv = Fault AssertFailed)
  /\ (forall (clues : list (word * word)) (i : nat) (clue : word * word),
        clues !! i = Some clue ->
        clue.1 ∉ narrow words (take i clues)
        \/ (length clue.2 <> 5%nat \/ forallb in_alphabet clue.2 = false)
        \/ narrow words (take (Datatypes.S i) clues) = [] ->
        main_setup file (prog :: clue_args clues) = Fault AssertFailed)
  /\ (forall clues : list (word * word), (6 <= length clues)%nat ->
        main_setup file (prog :: clue_args clues) = Fault AssertFailed).
Proof.
  intros Hfile Hwf. split_and!.
  - intros argv [m Hm]. unfold main_setup. rewrite Hfile, bind_Done_l.
    destruct (ComputeWordPatternMatches_filled words Hwf) as (all & -> & _).
    rewrite bind_Done_l. cbv zeta.
    assert (Z.rem (Z.of_nat (length argv) - 1) 2 <> 0) as Hrem.
    { rewrite Hm. destruct m as [|m]; [intros H; vm_compute in H; discriminate |].
      replace (Z.of_nat (2 * Datatypes.S m) - 1) with (1 + Z.of_nat m * 2) by lia.
      rewrite Z.rem_add by lia. intros H; vm_compute in H; discriminate. }
    apply Z.eqb_neq in Hrem. rewrite Hrem. reflexivity.
  - intros clues i clue Hi Hbad.
    destruct (main_setup_spec file words prog Hfile Hwf clues) as (all & _ & ->).
    destruct (accepted words clues) eqn:Hacc; [|done]. exfalso.
    destruct (proj1 (accepted_spec clues words) Hacc i clue Hi) as [Hin Hne].
    destruct Hbad as [Hbad|[Hbad|Hbad]]; [done | |].
    + apply Hne. apply filter_none. intros wd Hwd%narrow_elem_of.
      destruct Hwd as [Hwd _]. rewrite ToPatternInt_spec.
      replace ((length clue.2 =? 5)%nat && forallb in_alphabet clue.2) with false.
      * rewrite encode_wf; [done | |]; apply (proj1 (Forall_forall _ _) Hwf);
          [by apply narrow_elem_of in Hin as [? _] | done].
      * symmetry. apply andb_false_iff. destruct Hbad as [Hbad|Hbad]; [left | by right].
        by apply Nat.eqb_neq.
    + apply Hne. rewrite (take_S_r _ _ _ Hi), narrow_app in Hbad. exact Hbad.
  - intros clues Hlen.
    destruct (main_setup_spec file words prog Hfile Hwf clues) as (all & _ & ->).
    replace (Z.of_nat (length clues) <? kMaxNumGuesses) with false
      by (symmetry; apply Z.ltb_ge; unfold kMaxNumGuesses; lia).
    by rewrite andb_false_r.
Qed.

Lemma two_words_file_read : ReadWords (Some two_words_file) = Done two_words.
Proof. reflexivity. Qed.

Lemma main_setup_applies_clues_witness :
  exists all,
    ComputeWordPatternMatches (narrow two_words [(w "abcde", w "_____")]) = Done all
    /\ main_setup (Some two_words_file)
                  (w "solver" :: clue_args [(w "abcde", w "_____")])
       = if accepted two_words [(w "abcde", w "_____")]
            && (Z.of_nat (length [(w "abcde", w "_____")]) <? kMaxNumGuesses) then
           Done {| setup_words := narrow two_words [(w "abcde", w "_____")];
                   setup_table := TrimWordPatternMatches all;
                   setup_max_num_guesses :=
                     kMaxNumGuesses - Z.of_nat (length [(w "abcde", w "_____")]);
                   setup_result_number :=
                     Z.of_nat (length [(w "abcde", w "_____")]) + 1 |}
         else Fault AssertFailed.
Proof.
  apply (main_setup_applies_clues (Some two_words_file) two_words (w "solver")
           [(w "abcde", w "_____")]).
  - reflexivity.
  - repeat constructor; vm_compute; discriminate.
Defined.

Lemma main_setup_keeps_answer_witness :
  exists su, main_setup (Some two_words_file)
                        (w "solver" :: clue_args [(w "abcde", w "_____")]) = Done su
    /\ w "fghij" ∈ setup_words su
    /\ setup_max_num_guesses su = 6 - Z.of_nat (length [(w "abcde", w "_____")]).
Proof.
  apply (main_setup_keeps_answer (Some two_words_file) two_words (w "solver") (w "fghij")
           [(w "abcde", w "_____")]).
  - reflexivity.
  - repeat constructor; vm_compute; discriminate.
  - apply list_elem_of_further, list_elem_of_here.
  - repeat constructor.
  - intros [|i] clue H; simpl in H; [|done]. injection H as <-. apply list_elem_of_here.
  - simpl. lia.
Defined.

Lemma main_setup_rejects_witness :
  (forall argv : list word, Nat.Even (length argv) ->
     main_setup (Some two_words_file) argv = Fault AssertFailed)
  /\ (forall (clues : list (word * word)) (i : nat) (clue : word * word),
        clues !! i = Some clue ->
        clue.1 ∉ narrow two_words (take i clues)
        \/ (length clue.2 <> 5%nat \/ forallb in_alphabet clue.2 = false)
        \/ narrow two_words (take (Datatypes.S i) clues) = [] ->
        main_setup (Some two_words_file) (w "solver" :: clue_args clues)
        = Fault AssertFailed)
  /\ (forall clues : list (word * word), (6 <= length clues)%nat ->
        main_setup (Some two_words_file) (w "solver" :: clue_args clues)
        = Fault AssertFailed).
Proof.
  apply (main_setup_rejects (Some two_words_file) two_words (w "solver")).
  - reflexivity.
  - repeat constructor; vm_compute; discriminate.
Defined.

(** ** The workers of [main] *)

(** X9.  Every worker [main] starts returns.  When [main] reaches the
    search on a vocabulary of five-letter lowercase words (fewer than
    [2^31] of them), the call of [Thread] made by each of the 24 workers
    stays inside its vectors and returns, whatever the shared state it
    finds. *)
Theorem main_workers_return `{ops : FloatOps} (file : option (list ascii))
    (words : list word) (prog : word) (clues : list (word * word)) (su : setup)
    (thread : Z) (sh : shared) :
  ReadWords file = Done words -> Forall wf_word words ->
  Z.of_nat (length words) < 2 ^ 31 ->
  main_setup file (prog :: clue_args clues) = Done su ->
  0 <= thread < kNumThreads ->
  exists sh', worker su thread sh = Done sh'.
Proof.
  intros Hfile Hwf Hsize Hsu Ht.
  destruct (main_setup_spec file words prog Hfile Hwf clues) as (all & Hall & Hspec).
  rewrite Hspec in Hsu.
  destruct (accepted words clues && (Z.of_nat (length clues) <? kMaxNumGuesses)) eqn:Hok;
    [|done].
  injection Hsu as <-. apply andb_true_iff in Hok as [_ Hk%Z.ltb_lt].
  unfold worker. simpl. pose proof (narrow_length clues words) as Hlen.
  unfold kNumThreads in Ht.
  apply Thread_safe.
  - apply trim_fits, filled_fits. apply Compute_filled; [by apply narrow_wf | done].
  - lia.
  - rewrite range_start_eq by lia. apply Z.div_pos; lia.
  - rewrite range_end_eq by lia. apply Z.div_le_upper_bound; [lia | nia].
Qed.

Lemma main_workers_return_witness :
  exists sh',
    @worker binary32
      {| setup_words := narrow two_words [];
         setup_table := TrimWordPatternMatches two_words_table;
         setup_max_num_guesses := 6;
         setup_result_number := 1 |} 11 no_best = Done sh'.
Proof.
  apply (@main_workers_return binary32 (Some two_words_file) two_words (w "solver") []).
  - reflexivity.
  - repeat constructor; vm_compute; discriminate.
  - simpl. lia.
  - vm_compute. reflexivity.
  - unfold kNumThreads. lia.
Defined.

(** X10.  The announcement never reads an uninitialised [best_word].
    [main] starts the workers with no [min_expected] and [best_word] not
    set.  Whatever reports of first guesses reach the shared record, each
    with the word of its index, in whatever order: [main] prints that one
    cannot win exactly when there was no report; otherwise [best_word] was
    written by a report, [words[best_word]] is inside the vocabulary, and
    what is printed does not depend on the value [best_word] held at the
    start. *)
Theorem announce_reads_reported_word `{ops : FloatOps} (words : list word)
    (schedule : list event) (garbage : Z) :
  Forall (fun e => zget words (event_index e) = Done e.2) schedule ->
  exists out : option word,
    announce words (reduce (initial_shared garbage) schedule) = Done out
    /\ (forall garbage' : Z,
          announce words (reduce (initial_shared garbage') schedule) = Done out)
    /\ (out = None <-> schedule = [])
    /\ (forall wd, out = Some wd ->
          exists e, e ∈ schedule /\ e.2 = wd
                    /\ best_word (reduce (initial_shared garbage) schedule) = event_index e).
Proof.
  intros Hall.
  pose proof (reduce_best schedule (initial_shared garbage) [] eq_refl) as Hinv.
  simpl app in Hinv. unfold best_inv in Hinv.
  assert (forall garbage',
            schedule <> [] ->
            reduce (initial_shared garbage') schedule
            = reduce (initial_shared garbage) schedule) as Hsame.
  { intros g' Hne. by apply reduce_garbage. }
  unfold announce.
  destruct (min_expected (reduce (initial_shared garbage) schedule)) as [m|] eqn:Hm.
  - destruct Hinv as (e & Hin & Hb).
    pose proof (proj1 (Forall_forall _ _) Hall e Hin) as Hw.
    assert (schedule <> []) as Hne by (intros ->; by apply elem_of_nil in Hin).
    exists (Some e.2). split_and!.
    + by rewrite Hb, Hw.
    + intros g'. rewrite (Hsame g' Hne), Hm, Hb, Hw. reflexivity.
    + split; [done | by intros ->].
    + intros wd [= <-]. by exists e.
  - subst schedule. exists None. split_and!; [done | | done | done].
    intros g'. reflexivity.
Qed.

Lemma announce_reads_reported_word_witness :
  exists out : option word,
    @announce binary32 two_words (@reduce binary32 (@initial_shared binary32 7) two_reports)
    = Done out
    /\ (forall garbage' : Z,
          @announce binary32 two_words
            (@reduce binary32 (@initial_shared binary32 garbage') two_reports) = Done out)
    /\ (out = None <-> two_reports = [])
    /\ (forall wd, out = Some wd ->
          exists e : @event binary32,
            e ∈ two_reports /\ e.2 = wd
            /\ best_word (@reduce binary32 (@initial_shared binary32 7) two_reports)
               = event_index e).
Proof.
  apply (@announce_reads_reported_word binary32 two_words two_reports 7).
  repeat constructor.
Defined.

(** ** Patterns and their strings *)

Lemma digit_symbol_digit (ch : ascii) :
  in_alphabet ch = true -> digit_symbol (symbol_digit ch) = ch.
Proof.
  unfold in_alphabet, symbol_digit, digit_symbol.
  destruct (Ascii.eqb_spec ch "g") as [->|Hg]; [done |].
  destruct (Ascii.eqb_spec ch "y") as [->|Hy]; [done |].
  destruct (Ascii.eqb_spec ch "_") as [->|Hu]; done.
Qed.

Lemma symbol_digit_range (pattern : word) :
  Forall (fun d => 0 <= d <= 2) (symbol_digit <$> pattern).
Proof.
  apply Forall_fmap, Forall_forall. intros ch _. unfold symbol_digit. simpl.
  destruct (Ascii.eqb ch "g"); [lia |]. destruct (Ascii.eqb ch "y"); lia.
Qed.

Lemma pattern_string_spells (pattern : word) :
  length pattern = 5%nat -> forallb in_alphabet pattern = true ->
  pattern_string (digits_value (symbol_digit <$> pattern)) = pattern.
Proof.
  intros Hlen Hal. unfold pattern_string.
  pose proof (symbol_digit_range pattern) as Hr.
  assert (forall c : Z, 0 <= c < 5 ->
            exists ch, pattern !! Z.to_nat c = Some ch
              /\ digit_symbol (pattern_digit (digits_value (symbol_digit <$> pattern)) c)
                 = ch) as H.
  { intros c Hc. destruct (lookup_lt_is_Some_2 pattern (Z.to_nat c) ltac:(lia)) as [ch Hch].
    exists ch. split; [done |]. rewrite <- (Z2Nat.id c) at 1 by lia.
    rewrite (pattern_digit_value _ (Z.to_nat c) (symbol_digit ch) Hr)
      by (by rewrite list_lookup_fmap, Hch).
    apply digit_symbol_digit.
    apply (proj1 (forallb_forall _ _) Hal). apply list_elem_of_In.
    by eapply list_elem_of_lookup_2. }
  destruct pattern as [|c0 [|c1 [|c2 [|c3 [|c4 [|]]]]]]; try done.
  destruct (H 0 ltac:(lia)) as (? & [= <-] & H0).
  destruct (H 1 ltac:(lia)) as (? & [= <-] & H1).
  destruct (H 2 ltac:(lia)) as (? & [= <-] & H2).
  destruct (H 3 ltac:(lia)) as (? & [= <-] & H3).
  destruct (H 4 ltac:(lia)) as (? & [= <-] & H4).
  change (seqZ 0 5) with [0; 1; 2; 3; 4]. cbn [map].
  by rewrite H0, H1, H2, H3, H4.
Qed.

Lemma ToPatternInt_pattern_string (p : Z) :
  0 <= p < 243 -> ToPatternInt (pattern_string p) = Done p.
Proof.
  intros Hp.
  assert (forallb (fun p => bool_decide (ToPatternInt (pattern_string p) = Done p))
                  (seqZ 0 243) = true) as H by (vm_compute; reflexivity).
  rewrite forallb_forall in H. specialize (H p).
  eapply bool_decide_eq_true_1, H, list_elem_of_In, elem_of_seqZ. lia.
Qed.

(** X11.  [ToPatternInt] is one-to-one from the strings of five
    characters among [_], [y], [g] onto the patterns [0 .. 242]: every
    pattern is the number of the string that spells it, and a string that
    [ToPatternInt] accepts is the one that spells the number returned; so
    two accepted strings with the same number are the same string. *)
Theorem ToPatternInt_one_to_one :
  (forall p, 0 <= p < 243 -> ToPatternInt (pattern_string p) = Done p)
  /\ (forall (pattern : word) (p : Z), ToPatternInt pattern = Done p ->
        0 <= p < 243 /\ pattern = pattern_string p)
  /\ (forall (pattern1 pattern2 : word) (p : Z),
        ToPatternInt pattern1 = Done p -> ToPatternInt pattern2 = Done p ->
        pattern1 = pattern2).
Proof.
  assert (forall (pattern : word) (p : Z), ToPatternInt pattern = Done p ->
            0 <= p < 243 /\ pattern = pattern_string p) as Hinv.
  { intros pattern p H. split; [by eapply ToPatternInt_range |].
    rewrite ToPatternInt_spec in H.
    destruct (Nat.eqb_spec (length pattern) 5) as [H5|]; [|done]. simpl in H.
    destruct (forallb in_alphabet pattern) eqn:Hal; [|done]. injection H as <-.
    symmetry. by apply pattern_string_spells. }
  split_and!; [apply ToPatternInt_pattern_string | exact Hinv |].
  intros p1 p2 p [_ ->]%Hinv [_ ->]%Hinv. reflexivity.
Qed.

Lemma ToPatternInt_one_to_one_witness :
  ToPatternInt (pattern_string 180) = Done 180
  /\ (0 <= 180 < 243 /\ w "__g_g" = pattern_string 180)
  /\ w "__g_g" = w "__g_g".
Proof.
  destruct ToPatternInt_one_to_one as (H1 & H2 & H3). split; [|split].
  - apply H1. lia.
  - apply (H2 (w "__g_g") 180). reflexivity.
  - apply (H3 (w "__g_g") (w "__g_g") 180); reflexivity.
Defined.

(** ** What the digits of a pattern say *)

Lemma marks_one (ga : list (ascii * ascii)) :
  forall (cnt : Z -> Z) (c : nat) (g a : ascii),
  ga !! c = Some (g, a) -> marks ga cnt !! c = Some 1 ->
  cnt (letter_index g) > 0 /\ g <> a.
Proof.
  induction ga as [|[g0 a0] ga IH]; intros cnt c g a Hc Hm; [done |].
  destruct c as [|c]; simpl in *.
  - injection Hc as -> ->. destruct (Ascii.eqb_spec g a) as [->|Hne]; [done |].
    destruct (Z.gtb_spec (cnt (letter_index g)) 0); [split; [lia | done] | done].
  - destruct (Ascii.eqb g0 a0); [by eapply IH |].
    destruct (Z.gtb_spec (cnt (letter_index g0)) 0) as [Hpos|Hnpos]; [|by eapply IH].
    destruct (IH _ _ _ _ Hc Hm) as [H1 H2]. split; [|done].
    unfold upd in H1. destruct (letter_index g =? letter_index g0) eqn:E; [|done].
    apply Z.eqb_eq in E. rewrite E. lia.
Qed.

Lemma unmatched_pos (ga : list (ascii * ascii)) : forall (cnt : Z -> Z) (k : Z),
  unmatched ga cnt k > cnt k ->
  exists (c : nat) (g a : ascii), ga !! c = Some (g, a) /\ g <> a /\ letter_index a = k.
Proof.
  induction ga as [|[g a] ga IH]; intros cnt k H; simpl in H; [lia |].
  destruct (Ascii.eqb_spec g a) as [->|Hne].
  - destruct (IH _ _ H) as (c & g' & a' & Hc & Hd & Hk).
    exists (Datatypes.S c), g', a'. by split_and!.
  - destruct (decide (letter_index a = k)) as [Hk|Hk].
    + exists 0%nat, g, a. by split_and!.
    + destruct (IH (upd cnt (letter_index a) (cnt (letter_index a) + 1)) k)
        as (c & g' & a' & Hc & Hd & Hk').
      * unfold upd at 2. destruct (Z.eqb_spec k (letter_index a)); [congruence | done].
      * exists (Datatypes.S c), g', a'. by split_and!.
Qed.

(** X12.  The digits of the pattern that the encoding gives for two
    five-letter lowercase words.  At each position the digit is 0, 1 or 2;
    it is 2 exactly when the answer holds the letter of the guess at that
    position; it is 1 only if the answer holds that letter at a position
    where the guess does not hold it; and a letter that the answer does not
    hold gets the digit 0. *)
Theorem encode_digits_sound (guess answer : word) :
  wf_word guess -> wf_word answer ->
  exists p, encode guess answer = Done p
    /\ forall (c : nat) (g : ascii), guess !! c = Some g ->
         0 <= pattern_digit p (Z.of_nat c) <= 2
         /\ (pattern_digit p (Z.of_nat c) = 2 <-> answer !! c = Some g)
         /\ (pattern_digit p (Z.of_nat c) = 1 ->
               exists c' : nat, answer !! c' = Some g /\ guess !! c' <> Some g)
         /\ (g ∉ answer -> pattern_digit p (Z.of_nat c) = 0).
Proof.
  intros Hg Ha. exists (digits_value (feedback guess answer)).
  split; [by apply encode_wf |]. destruct Hg as [Lg _], Ha as [La _].
  intros c g Hgc. pose proof (lookup_lt_Some _ _ _ Hgc) as Hc.
  destruct (lookup_lt_is_Some_2 answer c ltac:(lia)) as [a Hac].
  destruct (feedback_digit guess answer c g a Hgc Hac) as (d & Hd & Hr & H2 & ->).
  assert (d = 1 -> exists c' : nat, answer !! c' = Some g /\ guess !! c' <> Some g) as H1.
  { intros ->. unfold feedback in Hd.
    assert (zip guess answer !! c = Some (g, a)) as Hz
      by (rewrite lookup_zip_with, Hgc; simpl; by rewrite Hac).
    destruct (marks_one _ _ _ _ _ Hz Hd) as [Hpos Hne].
    destruct (unmatched_pos (zip guess answer) (fun _ => 0) (letter_index g)
                ltac:(cbv beta; lia))
      as (c' & g' & a' & Hc' & Hd' & Hk).
    apply letter_index_inj in Hk as ->.
    rewrite lookup_zip_with in Hc'.
    destruct (guess !! c') as [x|] eqn:Egc; [|done]. simpl in Hc'.
    destruct (answer !! c') as [y|] eqn:Eac; [|done]. injection Hc' as -> ->.
    exists c'. split; [done | congruence]. }
  split; [lia |]. split; [| split; [exact H1 |]].
  - rewrite H2, Hac. split; [by intros -> | by intros [= ->]].
  - intros Hnot. destruct (decide (d = 2)) as [->|Hn2].
    { exfalso. apply Hnot. assert (g = a) as -> by tauto.
      by eapply list_elem_of_lookup_2. }
    destruct (decide (d = 1)) as [->|Hn1]; [|lia].
    destruct (H1 eq_refl) as (c' & Hc' & _). exfalso. apply Hnot.
    by eapply list_elem_of_lookup_2.
Qed.

Lemma encode_digits_sound_witness :
  exists p, encode (w "speed") (w "abide") = Done p
    /\ forall (c : nat) (g : ascii), w "speed" !! c = Some g ->
         0 <= pattern_digit p (Z.of_nat c) <= 2
         /\ (pattern_digit p (Z.of_nat c) = 2 <-> w "abide" !! c = Some g)
         /\ (pattern_digit p (Z.of_nat c) = 1 ->
               exists c' : nat, w "abide" !! c' = Some g /\ w "speed" !! c' <> Some g)
         /\ (g ∉ w "abide" -> pattern_digit p (Z.of_nat c) = 0).
Proof.
  apply (encode_digits_sound (w "speed") (w "abide")).
  - split; [reflexivity |]. repeat constructor; vm_compute; discriminate.
  - split; [reflexivity |]. repeat constructor; vm_compute; discriminate.
Defined.

(** ** The number of credits of a letter *)

Lemma credit_list_exact (x : ascii) (ga : list (ascii * ascii)) :
  forall cnt : Z -> Z,
  0 <= cnt (letter_index x) ->
  Z.of_nat (credit_list x ga (marks ga cnt))
  = Z.of_nat (exact_count x ga)
    + Z.min (cnt (letter_index x)) (Z.of_nat (misplaced_count x ga)).
Proof.
  induction ga as [|[g a] ga IH]; intros cnt Hc; simpl; [lia |].
  destruct (Ascii.eqb_spec g a) as [->|Hne].
  - specialize (IH cnt Hc). simpl. destruct (decide (a = x)) as [Hx|Hx].
    + rewrite decide_True by (split; [done | lia]).
      rewrite decide_True by tauto. rewrite decide_False by tauto. lia.
    + rewrite !decide_False by tauto. lia.
  - rewrite (decide_False (P := g = x /\ a = x)) by (intros [? ?]; congruence).
    destruct (Z.gtb_spec (cnt (letter_index g)) 0) as [Hpos|Hnpos]; simpl.
    + destruct (decide (g = x)) as [->|Hgx].
      * specialize (IH (upd cnt (letter_index x) (cnt (letter_index x) - 1))).
        unfold upd in IH at 1 3. rewrite Z.eqb_refl in IH.
        rewrite decide_True by (split; [done | lia]).
        rewrite decide_True by (split; [done | congruence]). lia.
      * specialize (IH (upd cnt (letter_index g) (cnt (letter_index g) - 1))).
        unfold upd in IH at 1 3.
        destruct (Z.eqb_spec (letter_index x) (letter_index g)) as [He|He];
          [apply letter_index_inj in He; congruence |].
        rewrite !decide_False by tauto. lia.
    + specialize (IH cnt Hc). rewrite decide_False by (intros [? ?]; lia).
      destruct (decide (g = x)) as [->|Hgx].
      * rewrite decide_True by (split; [done | congruence]). lia.
      * rewrite decide_False by tauto. lia.
Qed.

Lemma guess_count (x : ascii) (ga : list (ascii * ascii)) :
  occurrences x ga.*1 = (exact_count x ga + misplaced_count x ga)%nat.
Proof.
  unfold occurrences. induction ga as [|[g a] ga IH]; [done |].
  rewrite fmap_cons, filter_cons. simpl fst. simpl exact_count. simpl misplaced_count.
  destruct (decide (g = x)) as [->|Hg].
  - simpl length. rewrite IH. destruct (decide (a = x)) as [->|Ha].
    + rewrite decide_True by done. rewrite decide_False by tauto. lia.
    + rewrite decide_False by tauto. rewrite decide_True by done. lia.
  - rewrite IH. rewrite !decide_False by tauto. lia.
Qed.

(** X13.  The number of credits of a letter.  In the pattern that the
    encoding gives for two five-letter lowercase words, the positions of
    the guess that hold a letter [x] and have a digit other than 0 are as
    many as the lesser of the occurrences of [x] in the guess and in the
    answer. *)
Theorem encode_credits_exact (guess answer : word) (x : ascii) :
  wf_word guess -> wf_word answer ->
  exists p, encode guess answer = Done p
    /\ credits x guess p = (occurrences x guess `min` occurrences x answer)%nat.
Proof.
  intros Hg Ha. exists (digits_value (feedback guess answer)).
  split; [by apply encode_wf |]. destruct Hg as [Lg _], Ha as [La _].
  unfold feedback.
  rewrite (credits_credit_list x guess answer)
    by (rewrite ?marks_length, ?length_zip_with; try lia; apply marks_range).
  pose proof (unmatched_count x (zip guess answer) (fun _ => 0)) as H1.
  pose proof (unmatched_ge (zip guess answer) (fun _ => 0) (letter_index x)) as H2.
  pose proof (credit_list_exact x (zip guess answer)
                (unmatched (zip guess answer) (fun _ => 0)) H2) as H3.
  pose proof (guess_count x (zip guess answer)) as H4.
  rewrite snd_zip in H1 by lia. rewrite fst_zip in H4 by lia. lia.
Qed.

Lemma encode_credits_exact_witness :
  exists p, encode (w "speed") (w "erase") = Done p
    /\ credits "e" (w "speed") p
       = (occurrences "e" (w "speed") `min` occurrences "e" (w "erase"))%nat.
Proof.
  apply (encode_credits_exact (w "speed") (w "erase") "e").
  - split; [reflexivity |]. repeat constructor; vm_compute; discriminate.
  - split; [reflexivity |]. repeat constructor; vm_compute; discriminate.
Defined.

(** ** The rows of a guess split the working set *)

Lemma filter_filter_sub {A : Type} (P Q : A -> Prop)
    `{!forall x, Decision (P x)} `{!forall x, Decision (Q x)} (l : list A) :
  (forall x, P x -> Q x) -> filter P (filter Q l) = filter P l.
Proof.
  intros Hsub. induction l as [|x l IH]; [done |].
  rewrite !filter_cons. destruct (decide (Q x)) as [Hq|Hq].
  - rewrite filter_cons. by rewrite IH.
  - rewrite IH. rewrite decide_False; [done |]. intros Hp. by apply Hq, Hsub.
Qed.

Lemma kept_cons_length (row : list bool) (a : Z) (ws : list Z) :
  length (kept row (a :: ws))
  = ((if decide (keeps row a = true) then 1 else 0) + length (kept row ws))%nat.
Proof.
  rewrite kept_cons. destruct (keeps row a); [by rewrite decide_True |].
  by rewrite decide_False.
Qed.

Lemma sum_kept_cons (rows : list (list bool)) (a : Z) (ws : list Z) :
  sum_list ((fun row => length (kept row (a :: ws))) <$> rows)
  = (length (filter (fun row => keeps row a = true) rows)
     + sum_list ((fun row => length (kept row ws)) <$> rows))%nat.
Proof.
  induction rows as [|row rows IH]; [done |].
  rewrite !fmap_cons, filter_cons. cbn [sum_list sum_list_with].
  rewrite IH, kept_cons_length. destruct (decide (keeps row a = true)); simpl; lia.
Qed.

Section RowsPartition.
Variable words : list word.
Variable t : table.
Hypothesis words_wf : Forall wf_word words.
Hypothesis t_filled : filled words (length words) 0 t.

Lemma one_row_keeps (g a : Z) (rows : list (list bool)) :
  zget t g = Done rows -> 0 <= a < Z.of_nat (length words) ->
  length (filter (fun row => keeps row a = true) rows) = 1%nat.
Proof.
  intros Hg Ha. pose proof (zget_Done_range _ _ _ Hg) as Hgr.
  apply zget_Done in Hg as [_ Hg].
  destruct t_filled as [[Hlen Hshape] Hcells]. rewrite Hlen in Hgr.
  destruct (Forall_lookup_1 _ _ _ _ Hshape Hg) as [Lrows _].
  destruct (lookup_lt_is_Some_2 words (Z.to_nat g) ltac:(lia)) as [guess Hguess].
  destruct (lookup_lt_is_Some_2 words (Z.to_nat a) ltac:(lia)) as [answer Hanswer].
  destruct (pat_range words words_wf _ _ _ _ Hguess Hanswer) as [_ Hp].
  set (P := Z.to_nat (pat words (Z.to_nat g) (Z.to_nat a))).
  assert (forall (p : nat) (row : list bool), rows !! p = Some row ->
            keeps row a = true <-> p = P) as Hrow.
  { intros p row Hrp. pose proof (lookup_lt_Some _ _ _ Hrp) as Lp.
    specialize (Hcells (Z.to_nat g) p (Z.to_nat a) ltac:(lia) ltac:(lia) ltac:(lia)).
    unfold cell in Hcells. rewrite Hg, Hrp in Hcells.
    rewrite keeps_true, Hcells. split.
    - intros [_ [= H]]. apply bool_decide_eq_true in H. lia.
    - intros ->. split; [lia |]. f_equal. apply bool_decide_eq_true. lia. }
  destruct (lookup_lt_is_Some_2 rows P ltac:(lia)) as [rowP HrowP].
  rewrite <- (take_drop_middle rows P rowP HrowP), filter_app, filter_cons.
  rewrite decide_True by (by apply (Hrow P)).
  rewrite !filter_none; [done | |].
  - intros row [i Hi]%list_elem_of_lookup Hk. rewrite lookup_drop in Hi.
    apply (Hrow _ _ Hi) in Hk. lia.
  - intros row [i Hi]%list_elem_of_lookup Hk.
    pose proof (lookup_lt_Some _ _ _ Hi) as Li. rewrite length_take in Li.
    rewrite lookup_take_lt in Hi by lia. apply (Hrow _ _ Hi) in Hk. lia.
Qed.

Lemma one_row_keeps_trimmed (g a : Z) (rows : list (list bool)) :
  zget (TrimWordPatternMatches t) g = Done rows -> 0 <= a < Z.of_nat (length words) ->
  length (filter (fun row => keeps row a = true) rows) = 1%nat.
Proof.
  rewrite trim_lookup. intros (rows0 & Hg & [= <-])%bind_Done Ha.
  rewrite trim_rows_filter, filter_filter_sub; [by eapply one_row_keeps |].
  intros row [_ Hk]%keeps_true. by eapply list_elem_of_lookup_2.
Qed.

End RowsPartition.

(** X14.  The rows of a guess split every working set.  In the table of a
    vocabulary of five-letter lowercase words, trimmed or not, each word
    is kept by exactly one row of a guess; so over the rows of a
    candidate the sizes of the subsets that the partition loop counts
    add up to the size of the working set. *)
Theorem rows_split_working_set (words : list word) (t wpm : table) (g : Z)
    (rows : list (list bool)) :
  Forall wf_word words -> ComputeWordPatternMatches words = Done t ->
  wpm = t \/ wpm = TrimWordPatternMatches t ->
  zget wpm g = Done rows ->
  (forall a, 0 <= a < Z.of_nat (length words) ->
     length (filter (fun row => keeps row a = true) rows) = 1%nat)
  /\ (forall ws : list Z,
        Forall (fun a => 0 <= a < Z.of_nat (length words)) ws ->
        sum_list ((fun row => length (kept row ws)) <$> rows) = length ws)
  /\ (forall (row : list bool) (num_guesses n k : Z) (s s1 : list (list Z))
             (prev buf : list Z),
        zget s (num_guesses - 1) = Done prev -> zget s num_guesses = Done buf ->
        partition_words_left row num_guesses n s = Done (k, s1) ->
        k = Z.of_nat (length (kept row (take (Z.to_nat n) prev)))).
Proof.
  intros Hwf Ht Hwpm Hrows. pose proof (Compute_filled words t Hwf Ht) as Hf.
  assert (forall a, 0 <= a < Z.of_nat (length words) ->
            length (filter (fun row => keeps row a = true) rows) = 1%nat) as Hone.
  { intros a Ha. destruct Hwpm as [->| ->].
    - by eapply one_row_keeps.
    - by eapply one_row_keeps_trimmed. }
  split_and!; [exact Hone | |].
  - intros ws Hws. induction Hws as [|a ws Ha _ IH].
    + clear. induction rows as [|row rows IH]; [done |].
      rewrite fmap_cons. cbn [sum_list sum_list_with]. by rewrite IH.
    + rewrite sum_kept_cons, IH, Hone by done. reflexivity.
  - intros row ng n k s s1 prev buf Hprev Hbuf Hp.
    rewrite (partition_words_left_spec _ _ _ _ _ _ Hprev Hbuf) in Hp.
    apply zget_Done in Hbuf as [_ Hbuf].
    by apply (partition_result_Done _ _ _ _ _ _ _ _ Hbuf) in Hp as [-> _].
Qed.

Lemma rows_split_working_set_witness :
  (forall a, 0 <= a < Z.of_nat (length two_words) ->
     length (filter (fun row => keeps row a = true) [[false; true]; [true; false]]) = 1%nat)
  /\ (forall ws : list Z,
        Forall (fun a => 0 <= a < Z.of_nat (length two_words)) ws ->
        sum_list ((fun row => length (kept row ws)) <$> [[false; true]; [true; false]])
        = length ws)
  /\ (forall (row : list bool) (num_guesses n k : Z) (s s1 : list (list Z))
             (prev buf : list Z),
        zget s (num_guesses - 1) = Done prev -> zget s num_guesses = Done buf ->
        partition_words_left row num_guesses n s = Done (k, s1) ->
        k = Z.of_nat (length (kept row (take (Z.to_nat n) prev)))).
Proof.
  apply (rows_split_working_set two_words two_words_table
           (TrimWordPatternMatches two_words_table) 0).
  - exact two_words_wf.
  - exact two_words_table_eq.
  - right. reflexivity.
  - vm_compute. reflexivity.
Defined.

(** ** Two runs side by side *)

Lemma for_count_rel {S : Type} (R : S -> S -> Prop) (body : Z -> S -> outcome S)
    (n : nat) : forall (i : Z) (s s' : S),
  (forall j s s', i <= j < i + Z.of_nat n -> R s s' ->
     exists s1 s1', body j s = Done s1 /\ body j s' = Done s1' /\ R s1 s1') ->
  R s s' ->
  exists s1 s1', for_count n i body s = Done s1 /\ for_count n i body s' = Done s1'
                 /\ R s1 s1'.
Proof.
  induction n as [|n IH]; intros i s s' Hbody Hs.
  - exists s, s'. by split_and!.
  - rewrite !for_count_S.
    destruct (Hbody i s s' ltac:(lia) Hs) as (s1 & s1' & -> & -> & Hs1).
    rewrite !bind_Done_l. apply IH; [|done]. intros j s2 s2' Hj. apply Hbody. lia.
Qed.

Lemma foreach_break_rel {A S : Type} (R : S -> S -> Prop)
    (body : A -> S -> outcome (ctl S)) (l : list A) : forall s s' : S,
  (forall a s s', a ∈ l -> R s s' ->
     exists r r', body a s = Done r /\ body a s' = Done r' /\ ctl_rel R r r') ->
  R s s' ->
  exists r r', foreach_break l body s = Done r /\ foreach_break l body s' = Done r'
               /\ ctl_rel R r r'.
Proof.
  induction l as [|a l IH]; intros s s' Hbody Hs; simpl.
  - exists (Next s), (Next s'). by split_and!.
  - destruct (Hbody a s s' ltac:(by left) Hs) as (r & r' & -> & -> & Hr).
    rewrite !bind_Done_l. destruct r as [s1|s1], r' as [s1'|s1']; try done.
    + apply IH; [|done]. intros b s2 s2' Hb. apply Hbody. by right.
    + exists (Break s1), (Break s1'). by split_and!.
Qed.

(** The partition of the same working set writes the same subset. *)
Lemma partition_words_left_subset (V : nat) (max ng n : Z) (s : list (list Z))
    (pattern : list bool) (prev : list Z) :
  1 <= ng < max -> length pattern = V -> scratch_fits V max ng n s ->
  zget s (ng - 1) = Done prev ->
  exists s1 nwl,
    partition_words_left pattern ng n s
    = Done (Z.of_nat (length (kept pattern (take (Z.to_nat n) prev))), s1)
    /\ zget s1 ng = Done nwl
    /\ take (length (kept pattern (take (Z.to_nat n) prev))) nwl
       = kept pattern (take (Z.to_nat n) prev)
    /\ scratch_fits V max (ng + 1)
         (Z.of_nat (length (kept pattern (take (Z.to_nat n) prev)))) s1.
Proof.
  intros Hng Hpat Hfit Hprev.
  destruct (partition_words_left_fits V max ng n s pattern Hng Hpat Hfit)
    as (k & s1 & Hp & _ & Hfit1 & _).
  pose proof Hfit as (Hlen & _).
  destruct (zget_in_range s ng ltac:(lia)) as [buf Hbuf].
  pose proof Hp as Hp'.
  rewrite (partition_words_left_spec _ _ _ _ _ _ Hprev Hbuf) in Hp'.
  apply zget_Done in Hbuf as [_ Hbuf].
  apply (partition_result_Done _ _ _ _ _ _ _ _ Hbuf) in Hp'
    as (-> & _ & _ & nwl & Hnwl & Htake & _).
  exists s1, nwl. split_and!; [done | | | done].
  - apply zget_Done. split; [lia | done].
  - by rewrite Nat2Z.id in Htake.
Qed.

Section Agree.
Context `{ops : FloatOps}.
Variable V : nat.
Variable max : Z.
Variable wpm : table.
Hypothesis wpm_fits : table_fits V wpm.

(** The recursive call gives the same result on the same working set. *)
Definition agrees (ng : Z)
    (recurse : Z -> list (list Z) -> outcome (option F * list (list Z))) : Prop :=
  forall k s1 s1',
    scratch_fits V max ng k s1 -> scratch_fits V max ng k s1' ->
    same_working_set ng k s1 s1' ->
    exists r s2 s2', recurse k s1 = Done (r, s2) /\ recurse k s1' = Done (r, s2').

Lemma Recurse_branch_agree recurse (ng n next_word : Z) (pattern : list bool)
    (result : F) (valid : bool) (s s' : list (list Z)) :
  1 <= ng < max -> length pattern = V ->
  scratch_fits V max ng n s -> scratch_fits V max ng n s' ->
  same_working_set ng n s s' ->
  agrees (ng + 1) recurse ->
  exists r r',
    Recurse_branch recurse ng n next_word pattern (result, valid, s) = Done r
    /\ Recurse_branch recurse ng n next_word pattern (result, valid, s') = Done r'
    /\ ctl_rel (fun st st' => fst st = fst st') r r'.
Proof.
  intros Hng Hpat Hfit Hfit' (prev & prev' & Hprev & Hprev' & Hsame) Hrec.
  unfold Recurse_branch.
  destruct (partition_words_left_subset V max ng n s pattern prev Hng Hpat Hfit Hprev)
    as (s1 & nwl & -> & Hnwl & Htake & Hfit1).
  destruct (partition_words_left_subset V max ng n s' pattern prev' Hng Hpat Hfit' Hprev')
    as (s1' & nwl' & -> & Hnwl' & Htake' & Hfit1').
  rewrite <- Hsame in *. rewrite !bind_Done_l.
  set (ks := kept pattern (take (Z.to_nat n) prev)) in *.
  destruct (Z.gtb_spec (Z.of_nat (length ks)) 0) as [Hk|Hk].
  2:{ eexists _, _. split_and!; [reflexivity | reflexivity | done]. }
  rewrite Hnwl, Hnwl', !bind_Done_l.
  destruct ks as [|first rest] eqn:Eks; [simpl in Hk; lia |].
  assert (zget nwl 0 = Done first /\ zget nwl' 0 = Done first) as [-> ->].
  { split; apply zget_Done; (split; [lia |]); change (Z.to_nat 0) with 0%nat.
    - rewrite <- (lookup_take_lt nwl (length (first :: rest))) by (simpl; lia).
      by rewrite Htake.
    - rewrite <- (lookup_take_lt nwl' (length (first :: rest))) by (simpl; lia).
      by rewrite Htake'. }
  rewrite !bind_Done_l. destruct (first =? next_word).
  { eexists _, _. split_and!; [reflexivity | reflexivity | done]. }
  destruct (Hrec (Z.of_nat (length (first :: rest))) s1 s1' Hfit1 Hfit1')
    as (r & s2 & s2' & -> & ->).
  { exists nwl, nwl'. replace (ng + 1 - 1) with ng by lia. split_and!; [done | done |].
    rewrite Nat2Z.id. congruence. }
  rewrite !bind_Done_l. destruct r as [r|].
  - eexists _, _. split_and!; [reflexivity | reflexivity | done].
  - eexists _, _. split_and!; [reflexivity | reflexivity | done].
Qed.

Lemma same_working_set_below (ng n : Z) (s0 s0' s s' : list (list Z)) :
  same_working_set ng n s0 s0' -> same_below ng s0 s -> same_below ng s0' s' ->
  same_working_set ng n s s'.
Proof.
  intros (prev & prev' & Hp & Hp' & Hsame) (_ & Hb & _) (_ & Hb' & _).
  exists prev, prev'. apply zget_Done in Hp as [H0 Hp], Hp' as [_ Hp'].
  split_and!; [| | done]; apply zget_Done; (split; [done |]).
  - rewrite <- Hp. apply Hb. lia.
  - rewrite <- Hp'. apply Hb'. lia.
Qed.

Lemma Recurse_value_agree recurse (ng n next : Z) (s s' : list (list Z)) :
  1 <= ng < max -> 0 <= next < n ->
  scratch_fits V max ng n s -> scratch_fits V max ng n s' ->
  same_working_set ng n s s' ->
  frames (ng + 1) recurse -> agrees (ng + 1) recurse ->
  exists v s1 s1',
    Recurse_value recurse ng n wpm next s = Done (v, s1)
    /\ Recurse_value recurse ng n wpm next s' = Done (v, s1').
Proof.
  intros Hng Hnext Hfit Hfit' Hsame Hfr Hrec.
  pose proof Hsame as (prev & prev' & Hprev & Hprev' & Htake).
  pose proof Hfit as (Hlen & Hall & prev0 & Hprev0 & Hn & Hin).
  assert (prev0 = prev) as -> by congruence.
  pose proof Hfit' as (_ & _ & prev0' & Hprev0' & Hn' & _).
  assert (prev0' = prev') as -> by congruence.
  unfold Recurse_value. rewrite Hprev, Hprev', !bind_Done_l.
  destruct (zget_in_range prev next ltac:(lia)) as [next_word Hw].
  assert (zget prev' next = Done next_word) as Hw'.
  { apply zget_Done in Hw as [H0 Hw]. apply zget_Done. split; [done |].
    rewrite <- (lookup_take_lt prev' (Z.to_nat n)) by lia.
    rewrite <- Htake. by rewrite lookup_take_lt by lia. }
  rewrite Hw, Hw', !bind_Done_l.
  assert (0 <= next_word < Z.of_nat V) as Hrange.
  { apply zget_Done in Hw as [_ Hw].
    apply (Forall_lookup_1 _ _ (Z.to_nat next) _ Hin).
    rewrite lookup_take_lt by lia. done. }
  destruct wpm_fits as [Lw Hrows].
  destruct (zget_in_range wpm next_word ltac:(lia)) as [rows Hr]. rewrite Hr, !bind_Done_l.
  apply zget_Done in Hr as [_ Hr]. pose proof (Forall_lookup_1 _ _ _ _ Hrows Hr) as Hrl.
  destruct (foreach_break_rel
              (fun st st' : F * bool * list (list Z) =>
                 fst st = fst st' /\ same_below ng s (snd st) /\ same_below ng s' (snd st'))
              (Recurse_branch recurse ng n next_word) rows
              (of_int 0, true, s) (of_int 0, true, s'))
    as (r & r' & -> & -> & Hrel).
  - intros row [[result valid] s1] [[result' valid'] s1'] Hrow (Heq & Hb & Hb').
    simpl in Heq, Hb, Hb'. injection Heq as <- <-.
    destruct (Recurse_branch_agree recurse ng n next_word row result valid s1 s1')
      as (r & r' & Hr1 & Hr1' & Hrel); try done.
    + by apply (proj1 (Forall_forall _ _) Hrl).
    + apply (scratch_fits_same_below V max ng n s s1 Hfit Hb).
    + apply (scratch_fits_same_below V max ng n s' s1' Hfit' Hb').
    + apply (same_working_set_below ng n s s' s1 s1' Hsame Hb Hb').
    + exists r, r'. split; [done |]. split; [done |].
      pose proof (Recurse_branch_frame _ _ _ _ _ _ _ Hfr Hr1) as Hf1.
      pose proof (Recurse_branch_frame _ _ _ _ _ _ _ Hfr Hr1') as Hf1'.
      simpl in Hf1, Hf1'.
      destruct r as [st|st], r' as [st'|st']; try done; simpl in *;
        (split_and!; [done | by eapply same_below_trans | by eapply same_below_trans]).
  - split_and!; [done | apply same_below_refl | apply same_below_refl].
  - rewrite !bind_Done_l.
    assert (fst (ctl_state r) = fst (ctl_state r')) as Heq.
    { destruct r, r'; try done; simpl in *; tauto. }
    destruct (ctl_state r) as [[result valid] s1], (ctl_state r') as [[result' valid'] s1'].
    simpl in Heq. injection Heq as <- <-. destruct valid; eauto.
Qed.

Lemma Recurse_fuel_agree (fuel : nat) : forall (ng : Z),
  1 <= ng <= max -> max <= Z.of_nat fuel + ng ->
  agrees ng (Recurse_fuel fuel ng max wpm).
Proof.
  induction fuel as [|fuel IH]; intros ng Hng Hfuel n s s' Hfit Hfit' Hsame;
    pose proof Hfit as (Hlen & _ & prev & Hprev & _);
    pose proof Hfit' as (Hlen' & _ & prev' & Hprev' & _); simpl.
  - destruct (Z.eqb_spec ng max); [eauto |]. destruct (n =? 1); [eauto |]. lia.
  - destruct (Z.eqb_spec ng max); [eauto |]. destruct (n =? 1); [eauto |].
    rewrite Hprev, Hprev', !bind_Done_l.
    destruct (zget_in_range s ng ltac:(lia)) as [buf ->].
    destruct (zget_in_range s' ng ltac:(lia)) as [buf' ->]. rewrite !bind_Done_l.
    unfold for_loop.
    destruct (for_count_rel
                (fun st st' : option F * list (list Z) =>
                   fst st = fst st' /\ same_below ng s (snd st) /\ same_below ng s' (snd st'))
                (Recurse_candidate (Recurse_fuel fuel (ng + 1) max wpm) ng n wpm)
                (Z.to_nat (n - 0)) 0 (None, s) (None, s'))
      as ([m s1] & [m' s1'] & -> & -> & Heq & _).
    + intros next [m s1] [m' s1'] Hnext (Heq & Hb & Hb'). simpl in Heq, Hb, Hb'. subst m'.
      unfold Recurse_candidate.
      destruct (Recurse_value_agree (Recurse_fuel fuel (ng + 1) max wpm) ng n next s1 s1')
        as (v & s2 & s2' & Hv & Hv'); try lia.
      * apply (scratch_fits_same_below V max ng n s s1 Hfit Hb).
      * apply (scratch_fits_same_below V max ng n s' s1' Hfit' Hb').
      * apply (same_working_set_below ng n s s' s1 s1' Hsame Hb Hb').
      * apply Recurse_fuel_frame.
      * apply IH; lia.
      * rewrite Hv, Hv', !bind_Done_l.
        apply Recurse_value_frame in Hv, Hv'; try apply Recurse_fuel_frame.
        destruct v; eexists _, _; (split; [reflexivity |]); (split; [reflexivity |]); simpl;
          (split_and!; [done | by eapply same_below_trans | by eapply same_below_trans]).
    + split_and!; [done | apply same_below_refl | apply same_below_refl].
    + simpl in Heq. subst m'. eauto.
Qed.

End Agree.

(** The partition of the whole vocabulary by a row with a member. *)
Lemma partition_all_subset (V : nat) (max : Z) (s : list (list Z)) (pattern : list bool) :
  1 <= max -> length pattern = V ->
  Z.of_nat (length s) = max -> Forall (fun b : list Z => length b = V) s ->
  exists s1 nwl,
    partition_all pattern (Z.of_nat V) s
    = Done (Z.of_nat (length (kept pattern (seqZ 0 (Z.of_nat V)))), s1)
    /\ zget s1 0 = Done nwl
    /\ take (length (kept pattern (seqZ 0 (Z.of_nat V)))) nwl
       = kept pattern (seqZ 0 (Z.of_nat V))
    /\ scratch_fits V max 1 (Z.of_nat (length (kept pattern (seqZ 0 (Z.of_nat V))))) s1.
Proof.
  intros Hmax Hpat Hlen Hall.
  destruct (partition_all_fits V max s pattern Hmax Hpat Hlen Hall)
    as (k & s1 & Hp & Hfit1 & _).
  destruct (zget_in_range s 0 ltac:(lia)) as [buf Hbuf].
  pose proof Hp as Hp'. rewrite (partition_all_spec _ _ _ _ Hbuf) in Hp'.
  apply zget_Done in Hbuf as [_ Hbuf]. change (Z.to_nat 0) with 0%nat in Hbuf.
  apply (partition_result_Done _ _ _ _ _ _ _ _ Hbuf) in Hp'
    as (-> & _ & _ & nwl & Hnwl & Htake & _).
  rewrite !Nat2Z.id in Htake, Hp, Hfit1.
  rewrite (take_ge (seqZ 0 (Z.of_nat V))) in Htake, Hp, Hfit1 by (rewrite length_seqZ; lia).
  exists s1, nwl. split_and!; [done | | done | done].
  apply zget_Done. split; [lia | done].
Qed.

Lemma trim_no_empty_row (t : table) :
  Forall (Forall (fun row : list bool => true ∈ row)) (TrimWordPatternMatches t).
Proof.
  unfold TrimWordPatternMatches. apply Forall_fmap, Forall_forall. intros rows _. simpl.
  rewrite trim_rows_filter. apply Forall_forall. by intros row [? _]%list_elem_of_filter.
Qed.

Section ThreadAgree.
Context `{ops : FloatOps}.
Variable words : list word.
Variable max : Z.
Variable wpm : table.
Hypothesis wpm_fits : table_fits (length words) wpm.
Hypothesis max_pos : 1 <= max.

Lemma Recurse_agree (ng n : Z) (s s' : list (list Z)) :
  1 <= ng <= max ->
  scratch_fits (length words) max ng n s -> scratch_fits (length words) max ng n s' ->
  same_working_set ng n s s' ->
  exists r s1 s1', Recurse ng max s n wpm = Done (r, s1)
                   /\ Recurse ng max s' n wpm = Done (r, s1').
Proof.
  intros Hng Hfit Hfit' Hsame. unfold Recurse.
  pose proof Hfit as (Hlen & _). pose proof Hfit' as (Hlen' & _).
  replace (length s') with (length s) by lia.
  apply (Recurse_fuel_agree (length words) max wpm wpm_fits (length s) ng Hng); try done.
  lia.
Qed.

Lemma Thread_branch_agree (first_word : Z) (pattern : list bool)
    (result : F) (valid : bool) (s s' : list (list Z)) :
  length pattern = length words -> true ∈ pattern ->
  Z.of_nat (length s) = max -> Forall (fun b : list Z => length b = length words) s ->
  Z.of_nat (length s') = max -> Forall (fun b : list Z => length b = length words) s' ->
  exists r r',
    Thread_branch max (Z.of_nat (length words)) wpm first_word pattern (result, valid, s)
    = Done r
    /\ Thread_branch max (Z.of_nat (length words)) wpm first_word pattern (result, valid, s')
       = Done r'
    /\ ctl_rel (fun st st' => fst st = fst st') r r'.
Proof.
  intros Hpat Hmem Hlen Hall Hlen' Hall'. unfold Thread_branch.
  destruct (partition_all_subset (length words) max s pattern max_pos Hpat Hlen Hall)
    as (s1 & nwl & -> & Hnwl & Htake & Hfit1).
  destruct (partition_all_subset (length words) max s' pattern max_pos Hpat Hlen' Hall')
    as (s1' & nwl' & -> & Hnwl' & Htake' & Hfit1').
  rewrite !bind_Done_l, Hnwl, Hnwl', !bind_Done_l.
  set (ks := kept pattern (seqZ 0 (Z.of_nat (length words)))) in *.
  assert (ks <> []) as Hne.
  { apply list_elem_of_lookup in Hmem as [a Ha]. intros He.
    assert (Z.of_nat a ∈ ks) as Hin; [|rewrite He in Hin; by apply elem_of_nil in Hin].
    apply kept_keeps. split.
    - apply keeps_true. rewrite Nat2Z.id. split; [lia | done].
    - apply elem_of_seqZ. apply lookup_lt_Some in Ha. lia. }
  destruct ks as [|first rest] eqn:Eks; [done |].
  assert (zget nwl 0 = Done first /\ zget nwl' 0 = Done first) as [-> ->].
  { split; apply zget_Done; (split; [lia |]); change (Z.to_nat 0) with 0%nat.
    - rewrite <- (lookup_take_lt nwl (length (first :: rest))) by (simpl; lia).
      by rewrite Htake.
    - rewrite <- (lookup_take_lt nwl' (length (first :: rest))) by (simpl; lia).
      by rewrite Htake'. }
  rewrite !bind_Done_l. destruct (first =? first_word).
  { eexists _, _. split_and!; [reflexivity | reflexivity | done]. }
  destruct (Recurse_agree 1 (Z.of_nat (length (first :: rest))) s1 s1' ltac:(lia)
              Hfit1 Hfit1') as (r & s2 & s2' & -> & ->).
  { exists nwl, nwl'. split_and!; [done | done |]. rewrite Nat2Z.id. congruence. }
  rewrite !bind_Done_l. destruct r as [r|].
  - eexists _, _. split_and!; [reflexivity | reflexivity | done].
  - eexists _, _. split_and!; [reflexivity | reflexivity | done].
Qed.

Lemma Thread_candidate_agree (first_word : Z) (s s' : list (list Z)) :
  Forall (Forall (fun row : list bool => true ∈ row)) wpm ->
  0 <= first_word < Z.of_nat (length words) ->
  Z.of_nat (length s) = max -> Forall (fun b : list Z => length b = length words) s ->
  Z.of_nat (length s') = max -> Forall (fun b : list Z => length b = length words) s' ->
  exists v s1 s1',
    Thread_candidate max words wpm first_word s = Done (v, s1)
    /\ Thread_candidate max words wpm first_word s' = Done (v, s1').
Proof.
  intros Hmem Hfw Hlen Hall Hlen' Hall'. unfold Thread_candidate.
  destruct wpm_fits as [Lw Hrows].
  destruct (zget_in_range wpm first_word ltac:(lia)) as [rows Hr]. rewrite Hr, !bind_Done_l.
  apply zget_Done in Hr as [_ Hr]. pose proof (Forall_lookup_1 _ _ _ _ Hrows Hr) as Hrl.
  pose proof (Forall_lookup_1 _ _ _ _ Hmem Hr) as Hrm.
  destruct (foreach_break_rel
              (fun st st' : F * bool * list (list Z) =>
                 fst st = fst st' /\ same_below 0 s (snd st) /\ same_below 0 s' (snd st'))
              (Thread_branch max (Z.of_nat (length words)) wpm first_word) rows
              (of_int 0, true, s) (of_int 0, true, s'))
    as (r & r' & -> & -> & Hrel).
  - intros row [[result valid] s1] [[result' valid'] s1'] Hrow (Heq & Hb & Hb').
    simpl in Heq, Hb, Hb'. injection Heq as <- <-.
    pose proof Hb as (Hl1 & _ & Hsh1). pose proof Hb' as (Hl1' & _ & Hsh1').
    destruct (Thread_branch_agree first_word row result valid s1 s1')
      as (r & r' & Hr1 & Hr1' & Hrel).
    + by apply (proj1 (Forall_forall _ _) Hrl).
    + by apply (proj1 (Forall_forall _ _) Hrm).
    + lia.
    + by eapply shape_Forall.
    + lia.
    + by eapply shape_Forall.
    + exists r, r'. split; [done |]. split; [done |].
      pose proof (Thread_branch_frame _ _ _ _ _ _ _ Hr1) as Hf1.
      pose proof (Thread_branch_frame _ _ _ _ _ _ _ Hr1') as Hf1'.
      simpl in Hf1, Hf1'.
      destruct r as [st|st], r' as [st'|st']; try done; simpl in *;
        (split_and!; [done | by eapply same_below_trans | by eapply same_below_trans]).
  - split_and!; [done | apply same_below_refl | apply same_below_refl].
  - rewrite !bind_Done_l.
    assert (fst (ctl_state r) = fst (ctl_state r')) as Heq.
    { destruct r, r'; try done; simpl in *; tauto. }
    destruct (ctl_state r) as [[result valid] s1], (ctl_state r') as [[result' valid'] s1'].
    simpl in Heq. injection Heq as <- <-. destruct valid; eauto.
Qed.

End ThreadAgree.

(** X15.  The result of [Recurse] depends on the working set only.  Two
    calls at the same depth on buffers that hold the same
    [num_words_left] words at the front of the caller's buffer return the
    same result, whatever else the buffers hold: the rest of the caller's
    buffer and the buffers of the deeper levels, which earlier branches
    have written, are never read before they are written again. *)
Theorem Recurse_depends_on_working_set `{ops : FloatOps} (V : nat) (wpm : table)
    (num_guesses max_num_guesses num_words_left : Z) (s s' : list (list Z)) :
  table_fits V wpm ->
  1 <= num_guesses <= max_num_guesses ->
  scratch_fits V max_num_guesses num_guesses num_words_left s ->
  scratch_fits V max_num_guesses num_guesses num_words_left s' ->
  same_working_set num_guesses num_words_left s s' ->
  exists (result : option F) (s1 s1' : list (list Z)),
    Recurse num_guesses max_num_guesses s num_words_left wpm = Done (result, s1)
    /\ Recurse num_guesses max_num_guesses s' num_words_left wpm = Done (result, s1').
Proof.
  intros Hfits Hng Hs Hs' Hsame. unfold Recurse.
  pose proof Hs as (Hlen & _). pose proof Hs' as (Hlen' & _).
  replace (length s') with (length s) by lia.
  apply (Recurse_fuel_agree V max_num_guesses wpm Hfits (length s) num_guesses Hng);
    try done.
  lia.
Qed.

Lemma Recurse_depends_on_working_set_witness :
  exists (result : option (@F binary32)) (s1 s1' : list (list Z)),
    @Recurse binary32 1 3 [[0; 1]; [0; 0]; [0; 0]] 2 (TrimWordPatternMatches two_words_table)
    = Done (result, s1)
    /\ @Recurse binary32 1 3 [[0; 1]; [1; 1]; [1; 0]] 2
                (TrimWordPatternMatches two_words_table)
       = Done (result, s1').
Proof.
  apply (@Recurse_depends_on_working_set binary32 2).
  - vm_compute. split; [reflexivity | repeat constructor].
  - lia.
  - split_and!; [reflexivity | repeat constructor |].
    exists [0; 1]. split; [reflexivity |]. split; [simpl; lia |].
    repeat constructor; simpl; lia.
  - split_and!; [reflexivity | repeat constructor |].
    exists [0; 1]. split; [reflexivity |]. split; [simpl; lia |].
    repeat constructor; simpl; lia.
  - exists [0; 1], [0; 1]. split_and!; reflexivity.
Defined.

(** X16.  On a trimmed table the value of a first guess does not depend
    on the buffers.  For the trimmed form of a table of the size of the
    vocabulary, with at least one guess allowed, the value [Thread]
    computes for a first guess (or the fact that the guess is dropped)
    is the same whatever the buffers hold when the guess is taken up: what
    the first guesses before it have left there is not read. *)
Theorem Thread_value_ignores_buffers `{ops : FloatOps} (words : list word) (t : table)
    (max_num_guesses first_word : Z) (s s' : list (list Z)) :
  table_fits (length words) t ->
  1 <= max_num_guesses ->
  0 <= first_word < Z.of_nat (length words) ->
  Z.of_nat (length s) = max_num_guesses ->
  Forall (fun b : list Z => length b = length words) s ->
  Z.of_nat (length s') = max_num_guesses ->
  Forall (fun b : list Z => length b = length words) s' ->
  exists (value : option F) (s1 s1' : list (list Z)),
    Thread_candidate max_num_guesses words (TrimWordPatternMatches t) first_word s
    = Done (value, s1)
    /\ Thread_candidate max_num_guesses words (TrimWordPatternMatches t) first_word s'
       = Done (value, s1').
Proof.
  intros Hfits Hmax Hfw Hlen Hall Hlen' Hall'.
  apply Thread_candidate_agree; try done.
  - by apply trim_fits.
  - apply trim_no_empty_row.
Qed.

Lemma Thread_value_ignores_buffers_witness :
  exists (value : option (@F binary32)) (s1 s1' : list (list Z)),
    @Thread_candidate binary32 2 two_words (TrimWordPatternMatches two_words_table) 0
                      [[0; 0]; [0; 0]] = Done (value, s1)
    /\ @Thread_candidate binary32 2 two_words (TrimWordPatternMatches two_words_table) 0
                         [[1; 1]; [1; 0]] = Done (value, s1').
Proof.
  apply (@Thread_value_ignores_buffers binary32 two_words two_words_table 2 0).
  - vm_compute. split; [reflexivity | repeat constructor].
  - lia.
  - simpl. lia.
  - reflexivity.
  - repeat constructor.
  - reflexivity.
  - repeat constructor.
Defined.

(** ** One guess left *)

(** A loop breaks when one of its elements breaks from every state, and
    the others return. *)
Lemma foreach_break_breaks {A S : Type} (P : S -> Prop) (B : S -> Prop)
    (body : A -> S -> outcome (ctl S)) (l : list A) (x : A) : forall s : S,
  x ∈ l ->
  (forall a s, a ∈ l -> P s ->
     (exists s', body a s = Done (Next s') /\ P s')
     \/ (exists s', body a s = Done (Break s') /\ B s')) ->
  (forall s, P s -> exists s', body x s = Done (Break s') /\ B s') ->
  P s -> exists s', foreach_break l body s = Done (Break s') /\ B s'.
Proof.
  induction l as [|a l IH]; intros s Hx Hbody Hbreak Hs; [by apply elem_of_nil in Hx |].
  simpl. destruct (Hbody a s ltac:(by left) Hs) as [(s' & E & Hs')|(s' & E & Hs')];
    rewrite E, bind_Done_l.
  - apply elem_of_cons in Hx as [->|Hx].
    + destruct (Hbreak s Hs) as (s2 & H2 & _). congruence.
    + apply IH; [done | | done | done]. intros b s2 Hb. apply Hbody. by right.
  - by exists s'.
Qed.

Section LastGuess.
Context `{ops : FloatOps}.
Variable words : list word.
Variable t : table.
Hypothesis words_wf : Forall wf_word words.
Hypothesis words_NoDup : NoDup words.
Hypothesis t_filled : filled words (length words) 0 t.

(** The row of the guess [c] that keeps another word [a] does not keep
    [c]. *)
Lemma row_of_other (c a : Z) (rows : list (list bool)) :
  zget t c = Done rows ->
  0 <= a < Z.of_nat (length words) -> a <> c ->
  exists row, row ∈ rows /\ keeps row a = true /\ keeps row c = false.
Proof.
  intros Hc Ha Hne. pose proof (zget_Done_range _ _ _ Hc) as Hcr.
  destruct t_filled as [[Hlen Hshape] Hcells]. rewrite Hlen in Hcr.
  apply zget_Done in Hc as [_ Hc].
  destruct (Forall_lookup_1 _ _ _ _ Hshape Hc) as [Lrows _].
  destruct (lookup_lt_is_Some_2 words (Z.to_nat c) ltac:(lia)) as [guess Hguess].
  destruct (lookup_lt_is_Some_2 words (Z.to_nat a) ltac:(lia)) as [answer Hanswer].
  destruct (pat_range words words_wf _ _ _ _ Hguess Hanswer) as [_ Hp].
  set (P := Z.to_nat (pat words (Z.to_nat c) (Z.to_nat a))).
  destruct (lookup_lt_is_Some_2 rows P ltac:(lia)) as [row Hrow].
  assert (forall b : nat, (b < length words)%nat ->
            row !! b = Some (bool_decide (pat words (Z.to_nat c) b = Z.of_nat P))) as Hcell.
  { intros b Hb. specialize (Hcells (Z.to_nat c) P b ltac:(lia) ltac:(lia) Hb).
    unfold cell in Hcells. rewrite Hc, Hrow in Hcells. rewrite Hcells. f_equal.
    apply bool_decide_ext. lia. }
  exists row. split_and!.
  - by eapply list_elem_of_lookup_2.
  - apply keeps_true. split; [lia |]. rewrite Hcell by lia. f_equal.
    apply bool_decide_eq_true. lia.
  - destruct (keeps row c) eqn:Ek; [|done]. exfalso.
    apply keeps_true in Ek as [_ Ek]. rewrite Hcell in Ek by lia.
    injection Ek as Ek. apply bool_decide_eq_true in Ek.
    rewrite (pat_self words words_wf) in Ek by lia.
    assert (Z.to_nat a = Z.to_nat c); [|lia].
    apply (pat_all_exact words words_wf (Z.to_nat c) (Z.to_nat a)); [done | lia | lia | lia].
Qed.

End LastGuess.

Section LastGuessSearch.
Context `{ops : FloatOps}.
Variable words : list word.
Variable t wpm : table.
Hypothesis words_wf : Forall wf_word words.
Hypothesis words_NoDup : NoDup words.
Hypothesis t_filled : filled words (length words) 0 t.
Hypothesis wpm_table : wpm = t \/ wpm = TrimWordPatternMatches t.

Lemma wpm_fits_vocabulary : table_fits (length words) wpm.
Proof.
  destruct wpm_table as [->| ->]; [by apply filled_fits |].
  by apply trim_fits, filled_fits.
Qed.

Lemma wpm_row_of_other (c a : Z) (rows : list (list bool)) :
  zget wpm c = Done rows ->
  0 <= a < Z.of_nat (length words) -> a <> c ->
  exists row, row ∈ rows /\ keeps row a = true /\ keeps row c = false.
Proof.
  intros Hc Ha Hne. destruct wpm_table as [->| ->].
  - by eapply row_of_other.
  - rewrite trim_lookup in Hc. apply bind_Done in Hc as (rows0 & Hc & [= <-]).
    destruct (row_of_other words t words_wf words_NoDup t_filled c a rows0 Hc Ha Hne)
      as (row & Hin & Hka & Hkc).
    exists row. split_and!; [|done..]. rewrite trim_rows_filter.
    apply list_elem_of_filter. split; [|done].
    apply keeps_true in Hka as [_ Hka]. by eapply list_elem_of_lookup_2.
Qed.

(** What a turn of the loop over the rows does to [valid]. *)
Lemma Recurse_branch_valid recurse (ng n next_word : Z) (pattern : list bool)
    (result : F) (valid : bool) (s : list (list Z))
    (r : ctl (F * bool * list (list Z))) :
  Recurse_branch recurse ng n next_word pattern (result, valid, s) = Done r ->
  match r with
  | Next st => snd (fst st) = valid
  | Break st => snd (fst st) = false
  end.
Proof.
  unfold Recurse_branch. intros H.
  apply bind_Done in H as ([k s1] & _ & H). destruct (k >? 0).
  - apply bind_Done in H as (nwl & _ & H). apply bind_Done in H as (first & _ & H).
    destruct (first =? next_word); [by injection H as <- |].
    apply bind_Done in H as ([[v|] s2] & _ & H); by injection H as <-.
  - by injection H as <-.
Qed.

Variable ng : Z.
Hypothesis ng_pos : 1 <= ng.

(** With no guess left after this one, a candidate is dropped as soon
    as a row keeps a word other than the candidate. *)
Lemma last_guess_value (n next : Z) (s : list (list Z)) (prev : list Z) :
  0 <= next < n -> 2 <= n ->
  scratch_fits (length words) (ng + 1) ng n s ->
  zget s (ng - 1) = Done prev -> NoDup (take (Z.to_nat n) prev) ->
  exists s', Recurse_value (fun _ s => Done (None, s)) ng n wpm next s = Done (None, s')
             /\ same_below ng s s'.
Proof.
  intros Hnext Hn Hfit Hprev Hnd.
  pose proof Hfit as (Hlen & Hall & prev0 & Hprev0 & Hnl & Hin).
  assert (prev0 = prev) as -> by congruence.
  assert (frames (ng + 1) (fun (_ : Z) (s : list (list Z)) => Done (@None F, s))) as Hfr.
  { intros k s1 r s2 [= _ <-]. apply same_below_refl. }
  unfold Recurse_value. rewrite Hprev, bind_Done_l.
  destruct (zget_in_range prev next ltac:(lia)) as [c Hc]. rewrite Hc, bind_Done_l.
  apply zget_Done in Hc as [_ Hc].
  assert (forall (j : nat) (x : Z), (j < Z.to_nat n)%nat -> prev !! j = Some x ->
            0 <= x < Z.of_nat (length words)) as Hrange.
  { intros j x Hj Hx. apply (Forall_lookup_1 _ _ j _ Hin). by rewrite lookup_take_lt. }
  pose proof (Hrange (Z.to_nat next) c ltac:(lia) Hc) as Hcr.
  destruct wpm_fits_vocabulary as [Lw Hrows].
  destruct (zget_in_range wpm c ltac:(lia)) as [rows Hr]. rewrite Hr, bind_Done_l.
  pose proof Hr as Hr'. apply zget_Done in Hr' as [_ Hr'].
  pose proof (Forall_lookup_1 _ _ _ _ Hrows Hr') as Hrl.
  (* another word of the working set *)
  set (j := if decide (next = 0) then 1%nat else 0%nat).
  assert ((j < Z.to_nat n)%nat /\ j <> Z.to_nat next) as [Hj Hjn]
    by (unfold j; case_decide; lia).
  destruct (lookup_lt_is_Some_2 prev j ltac:(lia)) as [a Ha].
  pose proof (Hrange _ _ Hj Ha) as Har.
  assert (a <> c) as Hac.
  { intros ->. apply Hjn.
    apply (NoDup_lookup _ _ _ c Hnd); by rewrite lookup_take_lt by lia. }
  destruct (wpm_row_of_other c a rows Hr Har Hac) as (row & Hrow & Hka & Hkc).
  destruct (foreach_break_breaks
              (fun st : F * bool * list (list Z) =>
                 snd (fst st) = true /\ same_below ng s (snd st))
              (fun st : F * bool * list (list Z) =>
                 snd (fst st) = false /\ same_below ng s (snd st))
              (Recurse_branch (fun _ s => Done (None, s)) ng n c) rows row
              (of_int 0, true, s))
    as ([[result valid] s'] & -> & Hv & Hs'); [done | | | |].
  - intros row0 [[result valid] s1] Hrow0 [Hv Hs1]. simpl in Hv, Hs1. subst valid.
    destruct (Recurse_branch_safe (length words) (ng + 1)
                (fun _ s => Done (None, s)) ng n c row0 (result, true, s1))
      as [r Hb]; [lia | by apply (proj1 (Forall_forall _ _) Hrl)
                 | by eapply scratch_fits_same_below | by eauto |].
    pose proof (Recurse_branch_valid _ _ _ _ _ _ _ _ _ Hb) as Hval.
    pose proof (Recurse_branch_frame _ _ _ _ _ _ _ Hfr Hb) as Hframe. simpl in Hframe.
    destruct r as [st|st]; [left | right]; exists st; (split; [done |]);
      (split; [done | by eapply same_below_trans]).
  - intros [[result valid] s1] [Hv Hs1]. simpl in Hv, Hs1. subst valid.
    assert (scratch_fits (length words) (ng + 1) ng n s1) as Hfit1
      by (by eapply scratch_fits_same_below).
    assert (zget s1 (ng - 1) = Done prev) as Hprev1.
    { destruct Hs1 as (_ & Hb & _). apply zget_Done in Hprev as [H0 Hprev].
      apply zget_Done. split; [done |]. rewrite <- Hprev. apply Hb. lia. }
    destruct (partition_words_left_subset (length words) (ng + 1) ng n s1 row prev
                ltac:(lia) ltac:(by apply (proj1 (Forall_forall _ _) Hrl)) Hfit1 Hprev1)
      as (s2 & nwl & Hp & Hnwl & Htake & Hfit2).
    pose proof (partition_words_left_frame _ _ _ _ _ _ Hp) as Hframe.
    unfold Recurse_branch. rewrite Hp, bind_Done_l.
    assert (a ∈ kept row (take (Z.to_nat n) prev)) as Hain.
    { apply kept_keeps. split; [done |]. apply (list_elem_of_lookup_2 _ j).
      by rewrite lookup_take_lt. }
    destruct (kept row (take (Z.to_nat n) prev)) as [|first rest] eqn:Eks;
      [by apply elem_of_nil in Hain |].
    destruct (Z.gtb_spec (Z.of_nat (length (first :: rest))) 0) as [_|Hk];
      [|simpl in Hk; lia].
    rewrite Hnwl, bind_Done_l.
    assert (zget nwl 0 = Done first) as ->.
    { apply zget_Done. split; [lia |]. change (Z.to_nat 0) with 0%nat.
      rewrite <- (lookup_take_lt nwl (length (first :: rest))) by (simpl; lia).
      by rewrite Htake. }
    rewrite bind_Done_l.
    assert (first <> c) as Hfc.
    { intros ->. assert (c ∈ kept row (take (Z.to_nat n) prev)) as Hcin
        by (rewrite Eks; by left).
      apply kept_keeps in Hcin as [Hcin _]. congruence. }
    apply Z.eqb_neq in Hfc. rewrite Hfc, bind_Done_l.
    eexists. split; [reflexivity |]. split; [done | by eapply same_below_trans].
  - split; [done | apply same_below_refl].
  - simpl in Hv, Hs'. subst valid. rewrite bind_Done_l. simpl. by exists s'.
Qed.

End LastGuessSearch.

(** X17.  One guess left.  On the table, trimmed or not, of a vocabulary
    of distinct five-letter lowercase words, with a working set of two or
    more distinct words and [max_num_guesses = num_guesses + 1], [Recurse]
    returns no value: whichever word is played, some other word of the
    working set answers with a pattern that is not all exact, and no guess
    is left for it. *)
Theorem Recurse_last_guess `{ops : FloatOps} (words : list word) (t wpm : table)
    (num_guesses num_words_left : Z) (all_words_left : list (list Z)) (prev : list Z) :
  Forall wf_word words -> NoDup words ->
  ComputeWordPatternMatches words = Done t ->
  wpm = t \/ wpm = TrimWordPatternMatches t ->
  1 <= num_guesses -> 2 <= num_words_left ->
  scratch_fits (length words) (num_guesses + 1) num_guesses num_words_left all_words_left ->
  zget all_words_left (num_guesses - 1) = Done prev ->
  NoDup (take (Z.to_nat num_words_left) prev) ->
  exists s', Recurse num_guesses (num_guesses + 1) all_words_left num_words_left wpm
             = Done (None, s').
Proof.
  intros Hwf Hnd Ht Hwpm Hng Hn Hfit Hprev Hws.
  pose proof (Compute_filled words t Hwf Ht) as Hf.
  pose proof Hfit as (Hlen & _).
  unfold Recurse. destruct (length all_words_left) as [|fuel] eqn:El; [lia |].
  simpl. destruct (Z.eqb_spec num_guesses (num_guesses + 1)); [lia |].
  destruct (Z.eqb_spec num_words_left 1); [lia |].
  rewrite Hprev, bind_Done_l.
  destruct (zget_in_range all_words_left num_guesses ltac:(lia)) as [buf ->].
  rewrite bind_Done_l. unfold for_loop.
  destruct (for_count_total
              (fun st : option F * list (list Z) =>
                 fst st = None /\ same_below num_guesses all_words_left (snd st))
              (Recurse_candidate
                 (Recurse_fuel fuel (num_guesses + 1) (num_guesses + 1) wpm)
                 num_guesses num_words_left wpm)
              (Z.to_nat (num_words_left - 0)) 0 (None, all_words_left))
    as ([m s'] & -> & Hm & _).
  - intros next [m s1] Hnext [Hm Hs1]. simpl in Hm, Hs1. subst m.
    unfold Recurse_candidate.
    rewrite (Recurse_value_ext _ (fun _ s => Done (None, s))).
    2:{ intros k s2. destruct fuel; simpl; by rewrite Z.eqb_refl. }
    destruct (last_guess_value words t wpm Hwf Hnd Hf Hwpm num_guesses Hng
                num_words_left next s1 prev) as (s2 & -> & Hs2); try lia; try done.
    + by eapply scratch_fits_same_below.
    + destruct Hs1 as (_ & Hb & _). apply zget_Done in Hprev as [H0 Hprev].
      apply zget_Done. split; [done |]. rewrite <- Hprev. apply Hb. lia.
    + rewrite bind_Done_l. eexists. split; [reflexivity |].
      split; [done | by eapply same_below_trans].
  - split; [done | apply same_below_refl].
  - simpl in Hm. subst m. by exists s'.
Qed.

Lemma Recurse_last_guess_witness :
  exists s', @Recurse binary32 1 (1 + 1) [[0; 1]; [0; 0]] 2
                      (TrimWordPatternMatches two_words_table) = Done (None, s').
Proof.
  apply (@Recurse_last_guess binary32 two_words two_words_table
           (TrimWordPatternMatches two_words_table) 1 2 [[0; 1]; [0; 0]] [0; 1]).
  - exact two_words_wf.
  - exact two_words_NoDup.
  - exact two_words_table_eq.
  - right. reflexivity.
  - lia.
  - lia.
  - split_and!; [reflexivity | repeat constructor |].
    exists [0; 1]. split; [reflexivity |]. split; [simpl; lia |].
    repeat constructor; simpl; lia.
  - reflexivity.
  - simpl. apply NoDup_cons. split; [by intros ?%list_elem_of_singleton |].
    apply NoDup_singleton.
Defined.

(** ** As many guesses left as words *)

Lemma foreach_break_all_next {A S : Type} (P : S -> Prop)
    (body : A -> S -> outcome (ctl S)) (l : list A) : forall s : S,
  (forall a s, a ∈ l -> P s -> exists s', body a s = Done (Next s') /\ P s') ->
  P s -> exists s', foreach_break l body s = Done (Next s') /\ P s'.
Proof.
  induction l as [|a l IH]; intros s Hbody Hs; simpl.
  - by exists s.
  - destruct (Hbody a s ltac:(by left) Hs) as (s' & -> & Hs'). rewrite bind_Done_l.
    apply IH; [|done]. intros b s2 Hb. apply Hbody. by right.
Qed.

Section EnoughGuesses.
Context `{ops : FloatOps}.
Variable words : list word.
Variable t wpm : table.
Hypothesis words_wf : Forall wf_word words.
Hypothesis words_NoDup : NoDup words.
Hypothesis t_filled : filled words (length words) 0 t.
Hypothesis wpm_table : wpm = t \/ wpm = TrimWordPatternMatches t.
Variable max : Z.

(** A row of the guess [c] that keeps [c] keeps nothing else. *)
Lemma wpm_row_keeps_self (c : Z) (rows : list (list bool)) (row : list bool) :
  zget wpm c = Done rows -> row ∈ rows -> keeps row c = true ->
  forall a, keeps row a = true -> a = c.
Proof.
  intros Hc Hrow Hk. destruct wpm_table as [->| ->].
  - by eapply row_keeps_self.
  - destruct (trimmed_row t c rows row Hc Hrow) as (rows0 & Hc0 & Hrow0 & _).
    by eapply row_keeps_self.
Qed.

(** The subset a row of [c] keeps, when its first word is not [c], is
    smaller than the working set that holds [c]. *)
Lemma subset_smaller (c first : Z) (rows : list (list bool)) (row : list bool)
    (ws rest : list Z) :
  zget wpm c = Done rows -> row ∈ rows -> c ∈ ws ->
  kept row ws = first :: rest -> first <> c ->
  (length (kept row ws) < length ws)%nat.
Proof.
  intros Hc Hrow Hin Hk Hne. unfold kept. apply (length_filter_lt _ _ c); [done |].
  intros Hkc. apply Hne.
  assert (first ∈ kept row ws) as [Hkf _]%kept_keeps by (rewrite Hk; by left).
  by apply (wpm_row_keeps_self c rows row Hc Hrow Hkc).
Qed.

(** The recursive call returns a value on every working set of at most
    [bound] distinct words. *)
Definition wins (ng bound : Z)
    (recurse : Z -> list (list Z) -> outcome (option F * list (list Z))) : Prop :=
  forall k s1 prev1,
    1 <= k <= bound -> scratch_fits (length words) max ng k s1 ->
    zget s1 (ng - 1) = Done prev1 -> NoDup (take (Z.to_nat k) prev1) ->
    exists v s2, recurse k s1 = Done (Some v, s2).

Lemma enough_guesses_value recurse (ng n next : Z) (s : list (list Z)) (prev : list Z) :
  1 <= ng < max -> 0 <= next < n ->
  scratch_fits (length words) max ng n s ->
  zget s (ng - 1) = Done prev -> NoDup (take (Z.to_nat n) prev) ->
  frames (ng + 1) recurse -> wins (ng + 1) (n - 1) recurse ->
  exists v s', Recurse_value recurse ng n wpm next s = Done (Some v, s')
               /\ same_below ng s s'.
Proof.
  intros Hng Hnext Hfit Hprev Hnd Hfr Hwin.
  pose proof Hfit as (Hlen & Hall & prev0 & Hprev0 & Hnl & Hin).
  assert (prev0 = prev) as -> by congruence.
  unfold Recurse_value. rewrite Hprev, bind_Done_l.
  destruct (zget_in_range prev next ltac:(lia)) as [c Hc]. rewrite Hc, bind_Done_l.
  apply zget_Done in Hc as [_ Hc].
  assert (c ∈ take (Z.to_nat n) prev) as Hcin.
  { apply (list_elem_of_lookup_2 _ (Z.to_nat next)). by rewrite lookup_take_lt by lia. }
  pose proof (proj1 (Forall_forall _ _) Hin c Hcin) as Hcr. cbv beta in Hcr.
  destruct (wpm_fits_vocabulary words t wpm t_filled wpm_table) as [Lw Hrows].
  destruct (zget_in_range wpm c ltac:(lia)) as [rows Hr]. rewrite Hr, bind_Done_l.
  pose proof Hr as Hr'. apply zget_Done in Hr' as [_ Hr'].
  pose proof (Forall_lookup_1 _ _ _ _ Hrows Hr') as Hrl.
  destruct (foreach_break_all_next
              (fun st : F * bool * list (list Z) =>
                 snd (fst st) = true /\ same_below ng s (snd st))
              (Recurse_branch recurse ng n c) rows (of_int 0, true, s))
    as ([[result valid] s'] & -> & Hv & Hs'); [| split; [done | apply same_below_refl] |].
  - intros row [[result valid] s1] Hrow [Hv Hs1]. simpl in Hv, Hs1. subst valid.
    assert (scratch_fits (length words) max ng n s1) as Hfit1
      by (by eapply scratch_fits_same_below).
    assert (zget s1 (ng - 1) = Done prev) as Hprev1.
    { destruct Hs1 as (_ & Hb & _). apply zget_Done in Hprev as [H0 Hprev].
      apply zget_Done. split; [done |]. rewrite <- Hprev. apply Hb. lia. }
    destruct (partition_words_left_subset (length words) max ng n s1 row prev
                ltac:(lia) ltac:(by apply (proj1 (Forall_forall _ _) Hrl)) Hfit1 Hprev1)
      as (s2 & nwl & Hp & Hnwl & Htake & Hfit2).
    pose proof (partition_words_left_frame _ _ _ _ _ _ Hp) as Hframe.
    unfold Recurse_branch. rewrite Hp, bind_Done_l.
    destruct (kept row (take (Z.to_nat n) prev)) as [|first rest] eqn:Eks.
    { simpl. eexists. split; [reflexivity |]. split; [done | by eapply same_below_trans]. }
    destruct (Z.gtb_spec (Z.of_nat (length (first :: rest))) 0) as [_|Hk];
      [|simpl in Hk; lia].
    rewrite Hnwl, bind_Done_l.
    assert (zget nwl 0 = Done first) as ->.
    { apply zget_Done. split; [lia |]. change (Z.to_nat 0) with 0%nat.
      rewrite <- (lookup_take_lt nwl (length (first :: rest))) by (simpl; lia).
      by rewrite Htake. }
    rewrite bind_Done_l. destruct (Z.eqb_spec first c) as [Hfc|Hfc].
    { eexists. split; [reflexivity |]. split; [done | by eapply same_below_trans]. }
    pose proof (subset_smaller c first rows row (take (Z.to_nat n) prev) rest
                  Hr Hrow Hcin Eks Hfc) as Hsmall.
    rewrite Eks, length_take in Hsmall.
    destruct (Hwin (Z.of_nat (length (first :: rest))) s2 nwl) as (v & s3 & Hrec).
    + simpl in *. lia.
    + done.
    + by replace (ng + 1 - 1) with ng by lia.
    + rewrite Nat2Z.id, Htake, <- Eks. by apply NoDup_filter.
    + rewrite Hrec, bind_Done_l. eexists. split; [reflexivity |]. split; [done |].
      apply Hfr in Hrec. apply (same_below_weaken ng) in Hrec; [|lia].
      eapply same_below_trans; [exact Hs1 |]. by eapply same_below_trans.
  - simpl in Hv, Hs'. subst valid. rewrite bind_Done_l. simpl. eauto.
Qed.

Lemma Recurse_fuel_wins (fuel : nat) : forall (ng bound : Z),
  1 <= ng -> bound <= max - ng -> max <= Z.of_nat fuel + ng ->
  wins ng bound (Recurse_fuel fuel ng max wpm).
Proof.
  induction fuel as [|fuel IH]; intros ng bound Hng Hbound Hfuel n s prev Hn Hfit Hprev Hnd;
    pose proof Hfit as (Hlen & _); simpl.
  - lia.
  - destruct (Z.eqb_spec ng max); [lia |].
    destruct (Z.eqb_spec n 1); [eauto |].
    rewrite Hprev, bind_Done_l.
    destruct (zget_in_range s ng ltac:(lia)) as [buf ->]. rewrite bind_Done_l.
    unfold for_loop. rewrite Z.sub_0_r.
    destruct (Z.to_nat n) as [|count] eqn:En; [lia |]. rewrite for_count_S.
    assert (forall next m s1, 0 <= next < n -> same_below ng s s1 ->
              exists v s2,
                Recurse_candidate (Recurse_fuel fuel (ng + 1) max wpm) ng n wpm next (m, s1)
                = Done (Some v, s2) /\ same_below ng s s2) as Hcand.
    { intros next m s1 Hnext Hs1. unfold Recurse_candidate.
      destruct (enough_guesses_value (Recurse_fuel fuel (ng + 1) max wpm) ng n next s1 prev)
        as (v & s2 & -> & Hs2); try lia.
      - by eapply scratch_fits_same_below.
      - destruct Hs1 as (_ & Hb & _). apply zget_Done in Hprev as [H0 Hprev].
        apply zget_Done. split; [done |]. rewrite <- Hprev. apply Hb. lia.
      - by rewrite <- En in Hnd.
      - apply Recurse_fuel_frame.
      - apply IH; lia.
      - rewrite bind_Done_l. unfold min_update.
        destruct m as [m|]; [destruct (flt v m) |]; eexists _, _;
          (split; [reflexivity | by eapply same_below_trans]). }
    destruct (Hcand 0 None s ltac:(lia) (same_below_refl ng s)) as (v & s1 & -> & Hs1).
    rewrite bind_Done_l.
    destruct (for_count_total
                (fun st : option F * list (list Z) =>
                   fst st <> None /\ same_below ng s (snd st))
                (Recurse_candidate (Recurse_fuel fuel (ng + 1) max wpm) ng n wpm)
                count (0 + 1) (Some v, s1)) as ([m s'] & -> & Hm & _).
    + intros next [m s2] Hnext [_ Hs2]. simpl in Hs2.
      destruct (Hcand next m s2 ltac:(lia) Hs2) as (v' & s3 & -> & Hs3).
      eexists. split; [reflexivity |]. by split.
    + by split.
    + simpl in Hm. destruct m as [m|]; [eauto | done].
Qed.

End EnoughGuesses.

Section ThreadWins.
Context `{ops : FloatOps}.
Variable words : list word.
Variable t : table.
Hypothesis words_wf : Forall wf_word words.
Hypothesis words_NoDup : NoDup words.
Hypothesis t_filled : filled words (length words) 0 t.
Variable max : Z.
Hypothesis enough : Z.of_nat (length words) <= max.

Lemma Thread_candidate_wins (first_word : Z) (s : list (list Z)) :
  0 <= first_word < Z.of_nat (length words) ->
  Z.of_nat (length s) = max -> Forall (fun b : list Z => length b = length words) s ->
  exists v s', Thread_candidate max words (TrimWordPatternMatches t) first_word s
               = Done (Some v, s')
               /\ same_below 0 s s'.
Proof.
  intros Hfw Hlen Hall. unfold Thread_candidate.
  assert (TrimWordPatternMatches t = t \/ TrimWordPatternMatches t = TrimWordPatternMatches t)
    as Hwpm by (by right).
  destruct (wpm_fits_vocabulary words t _ t_filled Hwpm) as [Lw Hrows].
  destruct (zget_in_range (TrimWordPatternMatches t) first_word ltac:(lia)) as [rows Hr].
  rewrite Hr, bind_Done_l.
  pose proof Hr as Hr'. apply zget_Done in Hr' as [_ Hr'].
  pose proof (Forall_lookup_1 _ _ _ _ Hrows Hr') as Hrl.
  pose proof (Forall_lookup_1 _ _ _ _ (trim_no_empty_row t) Hr') as Hrm.
  destruct (foreach_break_all_next
              (fun st : F * bool * list (list Z) =>
                 snd (fst st) = true /\ same_below 0 s (snd st))
              (Thread_branch max (Z.of_nat (length words)) (TrimWordPatternMatches t)
                             first_word)
              rows (of_int 0, true, s))
    as ([[result valid] s'] & -> & Hv & Hs'); [| split; [done | apply same_below_refl] |].
  - intros row [[result valid] s1] Hrow [Hv Hs1]. simpl in Hv, Hs1. subst valid.
    pose proof Hs1 as (Hl1 & _ & Hsh1).
    destruct (partition_all_subset (length words) max s1 row ltac:(lia)
                ltac:(by apply (proj1 (Forall_forall _ _) Hrl)) ltac:(lia)
                ltac:(by eapply shape_Forall))
      as (s2 & nwl & Hp & Hnwl & Htake & Hfit2).
    pose proof (partition_all_frame _ _ _ _ _ Hp) as Hframe.
    unfold Thread_branch. rewrite Hp, bind_Done_l, Hnwl, bind_Done_l.
    assert (kept row (seqZ 0 (Z.of_nat (length words))) <> []) as Hne.
    { pose proof (proj1 (Forall_forall _ _) Hrm row Hrow) as Hmem. cbv beta in Hmem.
      apply list_elem_of_lookup in Hmem as [a Ha]. intros He.
      assert (Z.of_nat a ∈ kept row (seqZ 0 (Z.of_nat (length words)))) as Hin;
        [|rewrite He in Hin; by apply elem_of_nil in Hin].
      apply kept_keeps. split.
      - apply keeps_true. rewrite Nat2Z.id. split; [lia | done].
      - apply elem_of_seqZ. apply lookup_lt_Some in Ha.
        rewrite (proj1 (Forall_forall _ _) Hrl row Hrow) in Ha. lia. }
    destruct (kept row (seqZ 0 (Z.of_nat (length words)))) as [|first rest] eqn:Eks;
      [done |].
    assert (zget nwl 0 = Done first) as ->.
    { apply zget_Done. split; [lia |]. change (Z.to_nat 0) with 0%nat.
      rewrite <- (lookup_take_lt nwl (length (first :: rest))) by (simpl; lia).
      by rewrite Htake. }
    rewrite bind_Done_l. destruct (Z.eqb_spec first first_word) as [Hfc|Hfc].
    { eexists. split; [reflexivity |]. split; [done | by eapply same_below_trans]. }
    pose proof (subset_smaller words t _ words_wf words_NoDup t_filled Hwpm
                  first_word first rows row (seqZ 0 (Z.of_nat (length words))) rest
                  Hr Hrow ltac:(apply elem_of_seqZ; lia) Eks Hfc) as Hsmall.
    rewrite Eks, length_seqZ in Hsmall.
    pose proof Hfit2 as (Hlen2 & _).
    destruct (Recurse_fuel_wins words t _ words_wf words_NoDup t_filled Hwpm max
                (length s2) 1 (Z.of_nat (length words) - 1) ltac:(lia) ltac:(lia) ltac:(lia)
                (Z.of_nat (length (first :: rest))) s2 nwl) as (v & s3 & Hrec).
    + simpl in *. lia.
    + done.
    + done.
    + rewrite Nat2Z.id, Htake, <- Eks. apply NoDup_filter, NoDup_seqZ.
    + unfold Recurse. rewrite Hrec, bind_Done_l.
      eexists. split; [reflexivity |]. split; [done |].
      apply Recurse_fuel_frame in Hrec. apply (same_below_weaken 0) in Hrec; [|lia].
      eapply same_below_trans; [exact Hs1 |]. by eapply same_below_trans.
  - simpl in Hv, Hs'. subst valid. rewrite bind_Done_l. simpl. eauto.
Qed.

Lemma Thread_events_all (count : nat) : forall (first_word : Z) (s : list (list Z)),
  0 <= first_word -> first_word + Z.of_nat count <= Z.of_nat (length words) ->
  Z.of_nat (length s) = max -> Forall (fun b : list Z => length b = length words) s ->
  exists evs s',
    Thread_events max words (TrimWordPatternMatches t) count first_word s = Done (evs, s')
    /\ event_index <$> evs = seqZ first_word (Z.of_nat count).
Proof.
  induction count as [|count IH]; intros fw s Hfw Hend Hlen Hall.
  - exists [], s. by split.
  - simpl Thread_events.
    destruct (Thread_candidate_wins fw s ltac:(lia) Hlen Hall) as (v & s1 & -> & Hs1).
    rewrite bind_Done_l.
    destruct (zget_in_range words fw ltac:(lia)) as [wd ->]. rewrite !bind_Done_l.
    destruct Hs1 as (Hl1 & _ & Hsh1).
    destruct (IH (fw + 1) s1 ltac:(lia) ltac:(lia) ltac:(lia) ltac:(by eapply shape_Forall))
      as (evs & s' & -> & Hevs).
    rewrite bind_Done_l. eexists _, _. split; [reflexivity |].
    rewrite fmap_app, Hevs. rewrite Nat2Z.inj_succ. rewrite (seqZ_cons fw) by lia.
    change (event_index <$> [(v, fw, wd)]) with [fw]. simpl app.
    f_equal. f_equal; lia.
Qed.

End ThreadWins.

Lemma reduce_min_Some `{ops : FloatOps} (evs : list event) : forall sh : shared,
  min_expected sh <> None \/ evs <> [] -> min_expected (reduce sh evs) <> None.
Proof.
  induction evs as [|e evs IH]; intros sh H; simpl.
  - destruct H; done.
  - apply IH. left. unfold report_event.
    destruct (report_record sh (event_value e) (event_index e) e.2) as [-> _].
    unfold better. destruct (min_expected sh); [|done]. by destruct (_ || _).
Qed.

(** X18.  As many guesses left as words.  On the table, trimmed or not,
    of a vocabulary of distinct five-letter lowercase words, with a
    working set of distinct words that holds no more words than there are
    guesses left ([1 <= num_words_left <= max_num_guesses - num_guesses]),
    [Recurse] returns a value: it never reports that one cannot win. *)
Theorem Recurse_enough_guesses `{ops : FloatOps} (words : list word) (t wpm : table)
    (num_guesses max_num_guesses num_words_left : Z) (all_words_left : list (list Z))
    (prev : list Z) :
  Forall wf_word words -> NoDup words ->
  ComputeWordPatternMatches words = Done t ->
  wpm = t \/ wpm = TrimWordPatternMatches t ->
  1 <= num_guesses ->
  1 <= num_words_left <= max_num_guesses - num_guesses ->
  scratch_fits (length words) max_num_guesses num_guesses num_words_left all_words_left ->
  zget all_words_left (num_guesses - 1) = Done prev ->
  NoDup (take (Z.to_nat num_words_left) prev) ->
  exists (value : F) (s' : list (list Z)),
    Recurse num_guesses max_num_guesses all_words_left num_words_left wpm
    = Done (Some value, s').
Proof.
  intros Hwf Hnd Ht Hwpm Hng Hn Hfit Hprev Hws.
  pose proof (Compute_filled words t Hwf Ht) as Hf. pose proof Hfit as (Hlen & _).
  unfold Recurse.
  apply (Recurse_fuel_wins words t wpm Hwf Hnd Hf Hwpm max_num_guesses
           (length all_words_left) num_guesses (max_num_guesses - num_guesses)
           Hng ltac:(lia) ltac:(lia) num_words_left all_words_left prev); done.
Qed.

Lemma Recurse_enough_guesses_witness :
  exists (value : @F binary32) (s' : list (list Z)),
    @Recurse binary32 1 3 [[0; 1]; [0; 0]; [0; 0]] 2
             (TrimWordPatternMatches two_words_table) = Done (Some value, s').
Proof.
  apply (@Recurse_enough_guesses binary32 two_words two_words_table
           (TrimWordPatternMatches two_words_table) 1 3 2
           [[0; 1]; [0; 0]; [0; 0]] [0; 1]).
  - exact two_words_wf.
  - exact two_words_NoDup.
  - exact two_words_table_eq.
  - right. reflexivity.
  - lia.
  - lia.
  - split_and!; [reflexivity | repeat constructor |].
    exists [0; 1]. split; [reflexivity |]. split; [simpl; lia |].
    repeat constructor; simpl; lia.
  - reflexivity.
  - simpl. apply NoDup_cons. split; [by intros ?%list_elem_of_singleton |].
    apply NoDup_singleton.
Defined.

(** X19.  No more words than guesses.  On the trimmed table of a
    vocabulary of distinct five-letter lowercase words that holds no more
    words than guesses are allowed, [Thread] reports every first guess of
    its range, in order; so when the range is not empty, [min_expected]
    is set when it returns. *)
Theorem Thread_reports_every_guess `{ops : FloatOps} (words : list word) (t : table)
    (start end_ max_num_guesses : Z) (sh : shared) :
  Forall wf_word words -> NoDup words ->
  ComputeWordPatternMatches words = Done t ->
  1 <= max_num_guesses -> Z.of_nat (length words) <= max_num_guesses ->
  0 <= start -> end_ <= Z.of_nat (length words) ->
  exists (sh' : shared) (evs : list event),
    Thread start end_ max_num_guesses words (TrimWordPatternMatches t) sh = Done sh'
    /\ sh' = reduce sh evs
    /\ event_index <$> evs = seqZ start (end_ - start)
    /\ (start < end_ -> min_expected sh' <> None).
Proof.
  intros Hwf Hnd Ht Hpos Hmax Hstart Hend.
  pose proof (Compute_filled words t Hwf Ht) as Hf.
  rewrite Thread_reduce. unfold new_scratch.
  destruct (Z.ltb_spec max_num_guesses 0); [lia |]. rewrite bind_Done_l.
  destruct (zget_in_range (replicate (Z.to_nat max_num_guesses)
                                     (replicate (length words) 0)) 0)
    as [buf ->]; [rewrite length_replicate; lia |].
  rewrite bind_Done_l.
  assert (exists evs s',
            Thread_events max_num_guesses words (TrimWordPatternMatches t)
              (Z.to_nat (end_ - start)) start
              (replicate (Z.to_nat max_num_guesses) (replicate (length words) 0))
            = Done (evs, s')
            /\ event_index <$> evs = seqZ start (Z.of_nat (Z.to_nat (end_ - start))))
    as (evs & s' & -> & Hevs).
  { destruct (decide (start < end_)) as [Hlt|Hge].
    - apply (Thread_events_all words t Hwf Hnd Hf max_num_guesses Hmax);
        [lia | lia | rewrite length_replicate; lia |].
      apply Forall_replicate. apply length_replicate.
    - replace (Z.to_nat (end_ - start)) with 0%nat by lia. eexists _, _. by split. }
  rewrite bind_Done_l. exists (reduce sh evs), evs.
  assert (seqZ start (Z.of_nat (Z.to_nat (end_ - start))) = seqZ start (end_ - start)) as He.
  { destruct (decide (0 <= end_ - start)); [by rewrite Z2Nat.id |].
    replace (Z.to_nat (end_ - start)) with 0%nat by lia.
    symmetry. apply seqZ_nil. lia. }
  rewrite He in Hevs. split_and!; [done | done | done |].
  intros Hlt. apply reduce_min_Some. right. intros ->. simpl in Hevs.
  symmetry in Hevs. apply (f_equal length) in Hevs. rewrite length_seqZ in Hevs.
  simpl in Hevs. lia.
Qed.

Lemma Thread_reports_every_guess_witness :
  exists (sh' : @shared binary32) (evs : list (@event binary32)),
    @Thread binary32 0 2 6 two_words (TrimWordPatternMatches two_words_table) no_best
    = Done sh'
    /\ sh' = reduce no_best evs
    /\ event_index <$> evs = seqZ 0 (2 - 0)
    /\ (0 < 2 -> min_expected sh' <> None).
Proof.
  apply (@Thread_reports_every_guess binary32 two_words two_words_table 0 2 6 no_best).
  - exact two_words_wf.
  - exact two_words_NoDup.
  - exact two_words_table_eq.
  - lia.
  - simpl. lia.
  - lia.
  - simpl. lia.
Defined.

(** ** How many rows the trimming leaves *)

Lemma length_le_sum {A : Type} (f : A -> nat) (l : list A) :
  Forall (fun x => (1 <= f x)%nat) l -> (length l <= sum_list (f <$> l))%nat.
Proof.
  induction 1 as [|x l Hx _ IH]; [done |].
  rewrite fmap_cons. simpl. lia.
Qed.

Lemma sum_kept_rows (rows : list (list bool)) (ws : list Z) :
  (forall a, a ∈ ws -> length (filter (fun row => keeps row a = true) rows) = 1%nat) ->
  sum_list ((fun row => length (kept row ws)) <$> rows) = length ws.
Proof.
  induction ws as [|a ws IH]; intros Hone.
  - clear. induction rows as [|row rows IH]; [done |].
    rewrite fmap_cons. cbn [sum_list sum_list_with]. by rewrite IH.
  - rewrite sum_kept_cons, IH, Hone; [done | by left |].
    intros b Hb. apply Hone. by right.
Qed.

(** X20.  What the trimming leaves.  Trimming twice is trimming once.  In
    the table of a vocabulary of five-letter lowercase words every guess
    has 243 rows of one entry per word; after the trimming it has at
    least one row and at most as many as there are words, and never more
    than 243, each with one entry per word and a member. *)
Theorem trimmed_rows_count (words : list word) (t : table) (g : Z)
    (rows : list (list bool)) :
  Forall wf_word words -> ComputeWordPatternMatches words = Done t ->
  zget (TrimWordPatternMatches t) g = Done rows ->
  TrimWordPatternMatches (TrimWordPatternMatches t) = TrimWordPatternMatches t
  /\ (exists rows0, zget t g = Done rows0 /\ length rows0 = 243%nat)
  /\ (1 <= length rows <= 243 `min` length words)%nat
  /\ Forall (fun row => length row = length words /\ true ∈ row) rows.
Proof.
  intros Hwf Ht Hrows. pose proof (Compute_filled words t Hwf Ht) as Hf.
  pose proof Hrows as Hrows'. rewrite trim_lookup in Hrows'.
  apply bind_Done in Hrows' as (rows0 & Hg & [= Hr]).
  pose proof (zget_Done_range _ _ _ Hg) as Hgr.
  pose proof Hf as [[Hlen Hshape] _]. rewrite Hlen in Hgr.
  pose proof Hg as Hg'. apply zget_Done in Hg' as [_ Hg'].
  destruct (Forall_lookup_1 _ _ _ _ Hshape Hg') as [L0 Hl0].
  assert (Forall (fun row => length row = length words /\ true ∈ row) rows) as Hall.
  { subst rows. rewrite trim_rows_filter. apply Forall_forall.
    intros row [Hm Hin]%list_elem_of_filter. split; [|done].
    by apply (proj1 (Forall_forall _ _) Hl0). }
  split_and!.
  - unfold TrimWordPatternMatches. rewrite <- list_fmap_compose.
    apply list_fmap_ext. intros _ rs _. simpl. rewrite !trim_rows_filter.
    by apply filter_filter_sub.
  - by exists rows0.
  - destruct (row_of_self words t Hwf Hf g Hgr) as (rows1 & row & Hg1 & Hin & Hk).
    assert (rows1 = rows0) as -> by congruence.
    assert (row ∈ rows) as Hrow.
    { subst rows. rewrite trim_rows_filter. apply list_elem_of_filter. split; [|done].
      apply keeps_true in Hk as [_ Hk]. by eapply list_elem_of_lookup_2. }
    destruct rows as [|r rows']; [by apply elem_of_nil in Hrow |]. simpl. lia.
  - apply Nat.min_glb.
    + subst rows. rewrite trim_rows_filter, <- L0. apply length_filter.
    + pose proof (sum_kept_rows rows (seqZ 0 (Z.of_nat (length words)))) as Hsum.
      rewrite length_seqZ, Nat2Z.id in Hsum. rewrite <- Hsum.
      * apply length_le_sum. eapply Forall_impl; [exact Hall |].
        intros row [Hl Hm]. cbv beta.
        apply list_elem_of_lookup in Hm as [a Ha].
        assert (Z.of_nat a ∈ kept row (seqZ 0 (Z.of_nat (length words)))) as Hin.
        { apply kept_keeps. split.
          - apply keeps_true. rewrite Nat2Z.id. split; [lia | done].
          - apply elem_of_seqZ. apply lookup_lt_Some in Ha. lia. }
        destruct (kept row (seqZ 0 (Z.of_nat (length words)))); [|simpl; lia].
        by apply elem_of_nil in Hin.
      * intros a Ha%elem_of_seqZ.
        by apply (one_row_keeps_trimmed words t Hwf Hf g a rows).
  - exact Hall.
Qed.

Lemma trimmed_rows_count_witness :
  TrimWordPatternMatches (TrimWordPatternMatches two_words_table)
  = TrimWordPatternMatches two_words_table
  /\ (exists rows0, zget two_words_table 0 = Done rows0 /\ length rows0 = 243%nat)
  /\ (1 <= length [[false; true]; [true; false]] <= 243 `min` length two_words)%nat
  /\ Forall (fun row => length row = length two_words /\ true ∈ row)
            [[false; true]; [true; false]].
Proof.
  apply (trimmed_rows_count two_words two_words_table 0).
  - exact two_words_wf.
  - exact two_words_table_eq.
  - vm_compute. reflexivity.
Defined.

(** ** Words that are not five lowercase letters *)





Section Alphabet.
Variable shift : list Z.
Variables guess answer : word.






End Alphabet.






(** ** Two words left *)

Section TwoWordsLeft.
Variable words : list word.
Variable t wpm : table.
Hypothesis words_wf : Forall wf_word words.
Hypothesis words_NoDup : NoDup words.
Hypothesis t_filled : filled words (length words) 0 t.
Hypothesis wpm_table : wpm = t \/ wpm = TrimWordPatternMatches t.
Variables ng max : Z.
Hypothesis ng_pos : 1 <= ng.
Hypothesis two_guesses : ng + 2 <= max.

Lemma wpm_one_row_keeps (g a : Z) (rows : list (list bool)) :
  zget wpm g = Done rows -> 0 <= a < Z.of_nat (length words) ->
  length (filter (fun row => keeps row a = true) rows) = 1%nat.
Proof.
  intros Hg Ha. destruct wpm_table as [->| ->].
  - by eapply one_row_keeps.
  - by eapply one_row_keeps_trimmed.
Qed.

Variable s : list (list Z).
Variable prev : list Z.
Variables c a : Z.
Hypothesis s_fits : scratch_fits (length words) max ng 2 s.
Hypothesis s_prev : zget s (ng - 1) = Done prev.
Hypothesis working_set : take 2 prev = [c; a] \/ take 2 prev = [a; c].
Hypothesis distinct : c <> a.
Variable rows : list (list bool).
Hypothesis c_rows : zget wpm c = Done rows.

Lemma two_words_kept (row : list bool) :
  row ∈ rows ->
  kept row (take 2 prev)
  = if keeps row c then [c] else if keeps row a then [a] else [].
Proof.
  intros Hrow.
  assert (keeps row c = true -> keeps row a = false) as Hself.
  { intros Hk. destruct (keeps row a) eqn:Ea; [|done].
    destruct distinct. symmetry.
    by apply (wpm_row_keeps_self words t wpm words_wf words_NoDup t_filled wpm_table
                c rows row c_rows Hrow Hk a). }
  destruct working_set as [-> | ->]; rewrite !kept_cons; unfold kept;
    rewrite filter_nil; destruct (keeps row c) eqn:Ec;
    try rewrite (Hself eq_refl); destruct (keeps row a); done.
Qed.

Lemma two_words_branch (fuel : nat) (row : list bool) (result : @F binary32)
    (s1 : list (list Z)) :
  row ∈ rows -> same_below ng s s1 ->
  exists s2,
    @Recurse_branch binary32 (@Recurse_fuel binary32 fuel (ng + 1) max wpm) ng 2 c row
                    (result, true, s1)
    = Done (Next (if keeps row c then SFadd 24 128 result float_1
                  else if keeps row a then SFadd 24 128 result float_2
                  else result, true, s2))
    /\ same_below ng s s2.
Proof.
  intros Hrow Hs1.
  assert (scratch_fits (length words) max ng 2 s1) as Hfit1
    by (by eapply scratch_fits_same_below).
  assert (zget s1 (ng - 1) = Done prev) as Hprev1.
  { destruct Hs1 as (_ & Hb & _). pose proof s_prev as Hp.
    apply zget_Done in Hp as [H0 Hp]. apply zget_Done. split; [done |].
    rewrite <- Hp. apply Hb. lia. }
  destruct (wpm_fits_vocabulary words t wpm t_filled wpm_table) as [Lw Hrows].
  pose proof c_rows as Hr'. apply zget_Done in Hr' as [_ Hr'].
  pose proof (Forall_lookup_1 _ _ _ _ Hrows Hr') as Hrl.
  destruct (partition_words_left_subset (length words) max ng 2 s1 row prev
              ltac:(lia) ltac:(by apply (proj1 (Forall_forall _ _) Hrl)) Hfit1 Hprev1)
    as (s2 & nwl & Hp & Hnwl & Htake & Hfit2).
  pose proof (partition_words_left_frame _ _ _ _ _ _ Hp) as Hframe.
  change (Z.to_nat 2) with 2%nat in *. rewrite (two_words_kept row Hrow) in *.
  exists s2. split; [|by eapply same_below_trans].
  unfold Recurse_branch. rewrite Hp, bind_Done_l.
  destruct (keeps row c) eqn:Ec; [|destruct (keeps row a) eqn:Ea].
  - simpl length in *. change (Z.of_nat 1 >? 0) with true. cbv iota.
    rewrite Hnwl, bind_Done_l.
    assert (zget nwl 0 = Done c) as ->.
    { apply zget_Done. split; [lia |]. change (Z.to_nat 0) with 0%nat.
      rewrite <- (lookup_take_lt nwl 1) by lia. by rewrite Htake. }
    rewrite bind_Done_l, Z.eqb_refl. reflexivity.
  - simpl length in *. change (Z.of_nat 1 >? 0) with true. cbv iota.
    rewrite Hnwl, bind_Done_l.
    assert (zget nwl 0 = Done a) as ->.
    { apply zget_Done. split; [lia |]. change (Z.to_nat 0) with 0%nat.
      rewrite <- (lookup_take_lt nwl 1) by lia. by rewrite Htake. }
    rewrite bind_Done_l. destruct (Z.eqb_spec a c) as [Hac|_]; [by destruct distinct |].
    assert (@Recurse_fuel binary32 fuel (ng + 1) max wpm (Z.of_nat 1) s2
            = Done (Some float_1, s2)) as ->.
    { destruct fuel; simpl; (destruct (Z.eqb_spec (ng + 1) max); [lia |]); reflexivity. }
    rewrite bind_Done_l. reflexivity.
  - reflexivity.
Qed.

Lemma two_words_loop (fuel : nat) (rest : list (list bool)) :
  forall (seen_c seen_a : nat) (s1 : list (list Z)),
  (forall row, row ∈ rest -> row ∈ rows) ->
  (seen_c + length (filter (fun row => keeps row c = true) rest) = 1)%nat ->
  (seen_a + length (filter (fun row => keeps row a = true) rest) = 1)%nat ->
  same_below ng s s1 ->
  exists s2,
    foreach_break rest
      (@Recurse_branch binary32 (@Recurse_fuel binary32 fuel (ng + 1) max wpm) ng 2 c)
      (two_words_result seen_c seen_a, true, s1)
    = Done (Next (float_3, true, s2))
    /\ same_below ng s s2.
Proof.
  induction rest as [|row rest IH]; intros seen_c seen_a s1 Hsub Hc Ha Hs1.
  - simpl in Hc, Ha. rewrite Nat.add_0_r in Hc, Ha. subst. by exists s1.
  - cbn [foreach_break].
    destruct (two_words_branch fuel row (two_words_result seen_c seen_a) s1
                ltac:(apply Hsub; by left) Hs1) as (s2 & -> & Hs2).
    rewrite bind_Done_l. rewrite !filter_cons in Hc, Ha.
    assert (keeps row c = true -> keeps row a = false) as Hself.
    { intros Hk. destruct (keeps row a) eqn:Ea; [|done].
      destruct distinct. symmetry.
      by apply (wpm_row_keeps_self words t wpm words_wf words_NoDup t_filled wpm_table
                  c rows row c_rows ltac:(apply Hsub; by left) Hk a). }
    destruct (keeps row c) eqn:Ec.
    + rewrite (Hself eq_refl) in Ha. rewrite decide_True in Hc by done.
      rewrite decide_False in Ha by done. simpl in Hc.
      assert (seen_c = 0%nat) as -> by lia.
      replace (SFadd 24 128 (two_words_result 0 seen_a) float_1)
        with (two_words_result 1 seen_a)
        by (destruct seen_a as [|[|?]]; [reflexivity | reflexivity | simpl in Ha; lia]).
      apply IH; [intros r Hr; apply Hsub; by right | simpl; lia | done | done].
    + rewrite decide_False in Hc by done. destruct (keeps row a) eqn:Ea.
      * rewrite decide_True in Ha by done. simpl in Ha.
        assert (seen_a = 0%nat) as -> by lia.
        replace (SFadd 24 128 (two_words_result seen_c 0) float_2)
          with (two_words_result seen_c 1)
          by (destruct seen_c as [|[|?]]; [reflexivity | reflexivity | simpl in Hc; lia]).
        apply IH; [intros r Hr; apply Hsub; by right | done | simpl; lia | done].
      * rewrite decide_False in Ha by done.
        apply IH; [intros r Hr; apply Hsub; by right | done | done | done].
Qed.

End TwoWordsLeft.

Lemma two_words_value (words : list word) (t wpm : table) (ng max : Z) (fuel : nat)
    (s s1 : list (list Z)) (prev : list Z) (c a next : Z) :
  Forall wf_word words -> NoDup words -> filled words (length words) 0 t ->
  wpm = t \/ wpm = TrimWordPatternMatches t ->
  1 <= ng -> ng + 2 <= max ->
  scratch_fits (length words) max ng 2 s -> zget s (ng - 1) = Done prev ->
  take 2 prev = [c; a] \/ take 2 prev = [a; c] -> c <> a ->
  zget prev next = Done c -> same_below ng s s1 ->
  exists s2,
    @Recurse_value binary32 (@Recurse_fuel binary32 fuel (ng + 1) max wpm) ng 2 wpm next s1
    = Done (Some float_1_5, s2)
    /\ same_below ng s s2.
Proof.
  intros Hwf Hnd Hf Hwpm Hng Hmax Hfit Hprev Hws Hca Hc Hs1.
  pose proof Hfit as (Hlen & Hall & prev0 & Hprev0 & Hnl & Hin).
  assert (prev0 = prev) as -> by congruence.
  assert (zget s1 (ng - 1) = Done prev) as Hprev1.
  { destruct Hs1 as (_ & Hb & _). pose proof Hprev as Hp.
    apply zget_Done in Hp as [H0 Hp]. apply zget_Done. split; [done |].
    rewrite <- Hp. apply Hb. lia. }
  change (Z.to_nat 2) with 2%nat in Hin.
  assert (0 <= c < Z.of_nat (length words) /\ 0 <= a < Z.of_nat (length words))
    as [Hcr Har].
  { destruct Hws as [Hws|Hws]; rewrite Hws in Hin;
      apply Forall_cons in Hin as [H1 Hin]; apply Forall_cons in Hin as [H2 _]; done. }
  destruct (wpm_fits_vocabulary words t wpm Hf Hwpm) as [Lw Hrows].
  destruct (zget_in_range wpm c ltac:(lia)) as [rows Hr].
  unfold Recurse_value. rewrite Hprev1, bind_Done_l, Hc, bind_Done_l, Hr, bind_Done_l.
  destruct (two_words_loop words t wpm Hwf Hnd Hf Hwpm ng max Hng Hmax s prev c a
              Hfit Hprev Hws Hca rows Hr fuel rows 0 0 s1) as (s2 & Hloop & Hs2);
    [done | | | done |].
  - simpl. by apply (wpm_one_row_keeps words t wpm Hwf Hf Hwpm c c rows).
  - simpl. by apply (wpm_one_row_keeps words t wpm Hwf Hf Hwpm c a rows).
  - change (@of_int binary32 0) with (two_words_result 0 0).
    rewrite Hloop, bind_Done_l. simpl. by exists s2.
Qed.

(** X22.  Two words left.  On the table, trimmed or not, of a vocabulary
    of distinct five-letter lowercase words, with two distinct words left
    and at least two guesses left, [Recurse] in single precision returns
    exactly 1.5: whichever of the two words is played, it is the answer
    with probability 1/2 (one guess), and otherwise the other word is
    played next (two guesses). *)
Theorem Recurse_two_words_left (words : list word) (t wpm : table)
    (num_guesses max_num_guesses : Z) (all_words_left : list (list Z))
    (prev : list Z) (x y : Z) :
  Forall wf_word words -> NoDup words ->
  ComputeWordPatternMatches words = Done t ->
  wpm = t \/ wpm = TrimWordPatternMatches t ->
  1 <= num_guesses -> num_guesses + 2 <= max_num_guesses ->
  scratch_fits (length words) max_num_guesses num_guesses 2 all_words_left ->
  zget all_words_left (num_guesses - 1) = Done prev ->
  take 2 prev = [x; y] -> x <> y ->
  exists s', @Recurse binary32 num_guesses max_num_guesses all_words_left 2 wpm
             = Done (Some float_1_5, s').
Proof.
  intros Hwf Hnd Ht Hwpm Hng Hmax Hfit Hprev Hws Hxy.
  pose proof (Compute_filled words t Hwf Ht) as Hf. pose proof Hfit as (Hlen & _).
  unfold Recurse. destruct (length all_words_left) as [|fuel] eqn:El; [lia |].
  simpl Recurse_fuel. destruct (Z.eqb_spec num_guesses max_num_guesses); [lia |].
  change (2 =? 1) with false. cbv iota.
  rewrite Hprev, bind_Done_l.
  destruct (zget_in_range all_words_left num_guesses ltac:(lia)) as [buf ->].
  rewrite bind_Done_l. unfold for_loop. change (Z.to_nat (2 - 0)) with 2%nat.
  assert (zget prev 0 = Done x /\ zget prev 1 = Done y) as [Hx Hy].
  { split; apply zget_Done; (split; [lia |]).
    - change (Z.to_nat 0) with 0%nat. rewrite <- (lookup_take_lt prev 2) by lia.
      by rewrite Hws.
    - change (Z.to_nat 1) with 1%nat. rewrite <- (lookup_take_lt prev 2) by lia.
      by rewrite Hws. }
  rewrite for_count_S. unfold Recurse_candidate at 1.
  destruct (two_words_value words t wpm num_guesses max_num_guesses fuel
              all_words_left all_words_left prev x y 0 Hwf Hnd Hf Hwpm Hng Hmax Hfit Hprev
              ltac:(by left) Hxy Hx (same_below_refl _ _)) as (s1 & -> & Hs1).
  rewrite !bind_Done_l. rewrite for_count_S. unfold Recurse_candidate at 1.
  destruct (two_words_value words t wpm num_guesses max_num_guesses fuel
              all_words_left s1 prev y x (0 + 1) Hwf Hnd Hf Hwpm Hng Hmax Hfit Hprev
              ltac:(by right) ltac:(congruence) Hy Hs1) as (s2 & -> & Hs2).
  rewrite !bind_Done_l. by exists s2.
Qed.

Lemma Recurse_two_words_left_witness :
  exists s', @Recurse binary32 1 3 [[0; 1]; [0; 0]; [0; 0]] 2
                      (TrimWordPatternMatches two_words_table)
             = Done (Some float_1_5, s').
Proof.
  apply (Recurse_two_words_left two_words two_words_table
           (TrimWordPatternMatches two_words_table) 1 3 [[0; 1]; [0; 0]; [0; 0]]
           [0; 1] 0 1).
  - exact two_words_wf.
  - exact two_words_NoDup.
  - exact two_words_table_eq.
  - right. reflexivity.
  - lia.
  - lia.
  - split_and!; [reflexivity | repeat constructor |].
    exists [0; 1]. split; [reflexivity |]. split; [simpl; lia |].
    repeat constructor; simpl; lia.
  - reflexivity.
  - reflexivity.
  - lia.
Defined.

(** ** No vocabulary, and a vocabulary of one word *)

(** X23.  No vocabulary.  When the word file is missing or holds no word,
    [main] without guesses reaches the search with an empty vocabulary and
    all 6 guesses; every worker has an empty range and returns at once,
    leaving the shared state as it was; [main] then prints that one cannot
    win.  With a guess on the command line it stops on a failed
    assertion, the guess not being in the vocabulary. *)
Theorem main_without_words `{ops : FloatOps} (file : option (list ascii)) (prog : word) :
  ReadWords file = Done [] ->
  main_setup file [prog]
  = Done {| setup_words := []; setup_table := [];
            setup_max_num_guesses := 6; setup_result_number := 1 |}
  /\ (forall (thread : Z) (sh : shared),
        worker {| setup_words := []; setup_table := [];
                  setup_max_num_guesses := 6; setup_result_number := 1 |} thread sh
        = Done sh)
  /\ (forall garbage : Z, announce [] (initial_shared garbage) = Done None)
  /\ (forall clues : list (word * word), clues <> [] ->
        main_setup file (prog :: clue_args clues) = Fault AssertFailed).
Proof.
  intros Hfile. split_and!.
  - unfold main_setup. rewrite Hfile. reflexivity.
  - intros thread sh. reflexivity.
  - reflexivity.
  - intros clues Hne.
    destruct (main_setup_spec file [] prog Hfile (Forall_nil_2 _) clues) as (all & _ & ->).
    destruct clues as [|clue clues]; [done |]. reflexivity.
Qed.

Lemma main_without_words_witness :
  main_setup None [w "solver"]
  = Done {| setup_words := []; setup_table := [];
            setup_max_num_guesses := 6; setup_result_number := 1 |}
  /\ (forall (thread : Z) (sh : @shared binary32),
        @worker binary32 {| setup_words := []; setup_table := [];
                            setup_max_num_guesses := 6; setup_result_number := 1 |}
                thread sh
        = Done sh)
  /\ (forall garbage : Z, @announce binary32 [] (initial_shared garbage) = Done None)
  /\ (forall clues : list (word * word), clues <> [] ->
        main_setup None (w "solver" :: clue_args clues) = Fault AssertFailed).
Proof. apply (@main_without_words binary32 None (w "solver")). reflexivity. Defined.

Lemma range_of_one (thread : Z) :
  0 <= thread < 24 ->
  range_start 1 thread = 0
  /\ range_end 1 thread = (if decide (thread = 23) then 1 else 0).
Proof.
  intros Ht. rewrite range_start_eq, range_end_eq by lia. split.
  - apply Z.div_small. lia.
  - case_decide as H; [subst; reflexivity |]. apply Z.div_small. lia.
Qed.

(** X24.  One word left.  When the guesses on the command line leave
    exactly one word of a vocabulary of five-letter lowercase words,
    the workers 0 to 22 report nothing, the last worker reports this word
    as first guess, and [main] announces it, whatever [best_word] held at
    the start. *)
Theorem main_single_word `{ops : FloatOps} (file : option (list ascii))
    (words : list word) (prog wd : word) (clues : list (word * word)) (su : setup) :
  ReadWords file = Done words -> Forall wf_word words ->
  main_setup file (prog :: clue_args clues) = Done su ->
  setup_words su = [wd] ->
  exists value : F,
    (forall thread, 0 <= thread < 23 -> worker_events su thread = Done [])
    /\ worker_events su 23 = Done [(value, 0, wd)]
    /\ (forall garbage : Z,
          announce (setup_words su) (reduce (initial_shared garbage) [(value, 0, wd)])
          = Done (Some wd)).
Proof.
  intros Hfile Hwf Hsu Hone.
  destruct (main_setup_spec file words prog Hfile Hwf clues) as (all & Hall & Hspec).
  rewrite Hspec in Hsu.
  destruct (accepted words clues && (Z.of_nat (length clues) <? kMaxNumGuesses)) eqn:Hok;
    [|done].
  injection Hsu as <-. apply andb_true_iff in Hok as [_ Hk%Z.ltb_lt].
  simpl in Hone. unfold worker_events. simpl setup_words. simpl setup_table.
  simpl setup_max_num_guesses. rewrite Hone in *. simpl length.
  change (Z.of_nat 1) with 1.
  assert (Forall wf_word [wd]) as Hwf1 by (rewrite <- Hone; by apply narrow_wf).
  assert (NoDup [wd]) as Hnd1 by apply NoDup_singleton.
  pose proof (Compute_filled [wd] all Hwf1 Hall) as Hf.
  unfold kMaxNumGuesses in *.
  set (max := 6 - Z.of_nat (length clues)) in *.
  assert (new_scratch max 1 = Done (replicate (Z.to_nat max) (replicate 1 0))) as Hnew.
  { unfold new_scratch. destruct (Z.ltb_spec max 0); [lia | done]. }
  destruct (zget_in_range (replicate (Z.to_nat max) (replicate 1 0)) 0)
    as [buf Hbuf]; [rewrite length_replicate; lia |].
  destruct (Thread_events_all [wd] all Hwf1 Hnd1 Hf max ltac:(simpl; lia) 1 0
              (replicate (Z.to_nat max) (replicate 1 0)))
    as (evs & s' & Hev & Hidx); [lia | simpl; lia | rewrite length_replicate; lia | |].
  { apply Forall_replicate. apply length_replicate. }
  destruct (Thread_events_spec _ _ _ _ _ _ _ _ Hev) as [Hwords _].
  destruct evs as [|[[value index] wd'] [|e evs]]; try done.
  injection Hidx as Hidx. unfold event_index in Hidx. simpl in Hidx. subst index.
  apply Forall_inv in Hwords as [_ Hwd]. unfold event_index in Hwd. simpl in Hwd.
  injection Hwd as <-.
  exists value. split_and!.
  - intros thread Ht. destruct (range_of_one thread ltac:(lia)) as [-> ->].
    rewrite decide_False by lia. rewrite Hnew, bind_Done_l, Hbuf, bind_Done_l.
    reflexivity.
  - destruct (range_of_one 23 ltac:(lia)) as [-> ->].
    rewrite Hnew, bind_Done_l, Hbuf, bind_Done_l.
    change (Z.to_nat ((if decide (23 = 23) then 1 else 0) - 0)) with 1%nat.
    rewrite Hev. reflexivity.
  - intros garbage. reflexivity.
Qed.

Lemma main_single_word_witness :
  exists value : @F binary32,
    (forall thread, 0 <= thread < 23 ->
       @worker_events binary32
         {| setup_words := [w "fghij"];
            setup_table := [[[true]]];
            setup_max_num_guesses := 5; setup_result_number := 2 |} thread
       = Done [])
    /\ @worker_events binary32
         {| setup_words := [w "fghij"];
            setup_table := [[[true]]];
            setup_max_num_guesses := 5; setup_result_number := 2 |} 23
       = Done [(value, 0, w "fghij")]
    /\ (forall garbage : Z,
          @announce binary32 [w "fghij"]
            (@reduce binary32 (@initial_shared binary32 garbage) [(value, 0, w "fghij")])
          = Done (Some (w "fghij"))).
Proof.
  apply (@main_single_word binary32 (Some two_words_file) [w "abcde"; w "fghij"]
           (w "solver") (w "fghij") [(w "abcde", w "_____")]).
  - reflexivity.
  - exact two_words_wf.
  - vm_compute. reflexivity.
  - reflexivity.
Defined.
